(** * except.c / except.h : a setjmp/longjmp exception mechanism

    A shallow embedding of the two registries of [src/C/except.c] (the
    calling-environment table [envList] and the exception pool
    [exceptionList]) and of the functions that operate on them, followed by
    the properties of the specification that concern them.

    Conventions of the embedding.
    - A C array of structs is a list in index order.  [exInit] links entry
      [i] to entry [i+1] through [next], so a walk
      [for (entry = list; entry; entry = entry->next)] visits the slots in
      index order: it is a recursion on the list.
    - [Exception *] is [ptr]: [None] is [NULL], [Some i] is
      [&exceptionList[i].exception]; an index outside the pool stands for any
      address that is not the address of a pool record.
    - [pthread_self ()] is an explicit [thread] argument.
    - Each function body runs under the global mutex up to its last registry
      access, so a call is one atomic transition of the registry state.
    - [assert] is active (the reference build): a failed assertion aborts,
      reported as [Violation] together with the registry at the abort.  A
      [NULL] dereference is [Undefined].
    - [exDeinit] is embedded for the build with assertions; the value it
      returns is its output.  The [next] links that [exInit] writes are
      embedded apart, in [Links].  Of the test program, the code of one
      test thread ([funcA] up to its assertion, and [funcB]) is embedded,
      run with no call of another thread in between; [main] and the
      scheduling of the threads are outside the embedding. *)

From Stdlib Require Import ZArith Lia.
From Stdlib.Strings Require Import Byte String.
From stdpp Require Import base list.

(** ** Constants and plain types *)

Definition ENV_LIST_SIZE : nat := 16.
Definition EXCEPTION_LIST_SIZE : nat := 16.
Definition MAX_MSG_LEN : nat := 2048.

Definition pthread_t := nat.

(** The saved execution context written by [setjmp]; opaque. *)
Definition jmp_buf := nat.

Definition ExceptionCode := Z.
Definition exOther : ExceptionCode := 0%Z.

Definition ptr := option nat.

(** ** The structs *)

Module EnvEntry.
Record t := mk {
  env : jmp_buf;
  used : bool;
  level : Z;
  thread : pthread_t
}.
Definition zero : t := mk 0 false 0%Z 0.
Definition set_env (v : jmp_buf) (e : t) : t := mk v (used e) (level e) (thread e).
Definition set_used (v : bool) (e : t) : t := mk (env e) v (level e) (thread e).
Definition set_level (v : Z) (e : t) : t := mk (env e) (used e) v (thread e).
Definition set_thread (v : pthread_t) (e : t) : t := mk (env e) (used e) (level e) v.
End EnvEntry.

Module Exception.
Record t := mk {
  code : ExceptionCode;
  msg : list byte;
  cause : ptr
}.
Definition zero : t := mk 0%Z (replicate MAX_MSG_LEN x00) None.
Definition set_code (v : ExceptionCode) (e : t) : t := mk v (msg e) (cause e).
Definition set_msg (v : list byte) (e : t) : t := mk (code e) v (cause e).
Definition set_cause (v : ptr) (e : t) : t := mk (code e) (msg e) v.
End Exception.

Module ExceptionEntry.
Record t := mk {
  exception : Exception.t;
  used : bool;
  thrown : bool;
  cause : bool;
  thread : pthread_t
}.
Definition zero : t := mk Exception.zero false false false 0.
Definition set_exception (v : Exception.t) (e : t) : t :=
  mk v (used e) (thrown e) (cause e) (thread e).
Definition set_used (v : bool) (e : t) : t :=
  mk (exception e) v (thrown e) (cause e) (thread e).
Definition set_thrown (v : bool) (e : t) : t :=
  mk (exception e) (used e) v (cause e) (thread e).
Definition set_cause (v : bool) (e : t) : t :=
  mk (exception e) (used e) (thrown e) v (thread e).
Definition set_thread (v : pthread_t) (e : t) : t :=
  mk (exception e) (used e) (thrown e) (cause e) v.
End ExceptionEntry.

(** ** The registry state: the two static arrays *)

Record state := mkState {
  envList : list EnvEntry.t;
  exceptionList : list ExceptionEntry.t
}.

(** Static storage is zero-initialised. *)
Definition zeroed : state :=
  mkState (replicate ENV_LIST_SIZE EnvEntry.zero)
          (replicate EXCEPTION_LIST_SIZE ExceptionEntry.zero).

(** ** Outcomes and the monad the functions run in *)

Inductive Res (A : Type) : Type :=
| Ok (a : A) (s : state)
| Violation (s : state)
| Undefined
| OutOfFuel.
Arguments Ok {A} a s.
Arguments Violation {A} s.
Arguments Undefined {A}.
Arguments OutOfFuel {A}.

Definition M (A : Type) : Type := state -> Res A.

Definition ret {A} (a : A) : M A := fun s => Ok a s.

Definition bind {A B} (m : M A) (k : A -> M B) : M B :=
  fun s =>
    match m s with
    | Ok a s' => k a s'
    | Violation s' => Violation s'
    | Undefined => Undefined
    | OutOfFuel => OutOfFuel
    end.

Notation "'let*' x := m 'in' k" := (bind m (fun x => k))
  (at level 10, x name, m at level 100, k at level 200).
Notation "'do' m 'then' k" := (bind m (fun _ => k))
  (at level 10, m at level 100, k at level 200).

Definition assert_ (b : bool) : M unit :=
  fun s => if b then Ok tt s else Violation s.

Definition undefined {A} : M A := fun _ => Undefined.
Definition out_of_fuel {A} : M A := fun _ => OutOfFuel.

(** [entry->field] for an [EnvEntry *] (a slot index, or [None] for [NULL]). *)
Definition readEnv (entry : option nat) : M EnvEntry.t :=
  fun s =>
    match entry with
    | None => Undefined
    | Some i =>
      match envList s !! i with
      | Some x => Ok x s
      | None => Undefined
      end
    end.

Definition writeEnv (entry : option nat) (f : EnvEntry.t -> EnvEntry.t) : M unit :=
  fun s =>
    match entry with
    | None => Undefined
    | Some i =>
      match envList s !! i with
      | Some _ => Ok tt (mkState (alter f i (envList s)) (exceptionList s))
      | None => Undefined
      end
    end.

(** [entry->field] for an [ExceptionEntry *]. *)
Definition readExc (entry : option nat) : M ExceptionEntry.t :=
  fun s =>
    match entry with
    | None => Undefined
    | Some i =>
      match exceptionList s !! i with
      | Some x => Ok x s
      | None => Undefined
      end
    end.

Definition writeExc (entry : option nat)
    (f : ExceptionEntry.t -> ExceptionEntry.t) : M unit :=
  fun s =>
    match entry with
    | None => Undefined
    | Some i =>
      match exceptionList s !! i with
      | Some _ => Ok tt (mkState (envList s) (alter f i (exceptionList s)))
      | None => Undefined
      end
    end.

(** ** getLastEnvEntry *)

(** The loop [for (i = ENV_LIST_SIZE - 1; i >= 0; i--)]: [n] is [i + 1], and
    each branch of the body continues with the next iteration. *)
Fixpoint getLastEnvEntry_loop (l : list EnvEntry.t) (thread : pthread_t)
    (n : nat) (last : option (nat * EnvEntry.t)) : option (nat * EnvEntry.t) :=
  match n with
  | O => last
  | S i =>
    match l !! i with
    | Some entry =>
      if EnvEntry.used entry && (EnvEntry.thread entry =? thread) then
        match last with
        | None => getLastEnvEntry_loop l thread i (Some (i, entry))
        | Some (_, le) =>
          if (EnvEntry.level entry >? EnvEntry.level le)%Z
          then getLastEnvEntry_loop l thread i (Some (i, entry))
          else getLastEnvEntry_loop l thread i last
        end
      else getLastEnvEntry_loop l thread i last
    | None => getLastEnvEntry_loop l thread i last
    end
  end.

(** The slot [getLastEnvEntry] returns when the table is [l]. *)
Definition last_slot (thread : pthread_t) (l : list EnvEntry.t) : option nat :=
  fst <$> getLastEnvEntry_loop l thread ENV_LIST_SIZE None.

Arguments last_slot : simpl never.

Definition getLastEnvEntry (thread : pthread_t) : M (option nat) :=
  fun s => Ok (last_slot thread (envList s)) s.

(** ** getExceptionEntry *)

(** [l] is the part of the pool from slot [i] on. *)
Fixpoint getExceptionEntry_loop (l : list ExceptionEntry.t) (i : nat) (e : ptr)
    : option nat :=
  match l with
  | [] => None
  | _ :: rest =>
    if bool_decide (e = Some i) then Some i
    else getExceptionEntry_loop rest (S i) e
  end.

Definition getExceptionEntry (e : ptr) : M (option nat) :=
  fun s => Ok (getExceptionEntry_loop (exceptionList s) 0 e) s.

(** ** allocExceptionEntry *)

Fixpoint allocExceptionEntry_loop (l : list ExceptionEntry.t) (i : nat)
    : option nat :=
  match l with
  | [] => None
  | entry :: rest =>
    if negb (ExceptionEntry.used entry) then Some i
    else allocExceptionEntry_loop rest (S i)
  end.

Definition allocExceptionEntry : M (option nat) :=
  fun s =>
    match allocExceptionEntry_loop (exceptionList s) 0 with
    | Some i =>
      (do writeExc (Some i) (ExceptionEntry.set_cause false) then
       do writeExc (Some i) (ExceptionEntry.set_used true) then
       ret (Some i)) s
    | None => Ok None s
    end.

(** ** pushCallingEnv *)

(** [l] is the part of the table from slot [i] on. *)
Fixpoint pushCallingEnv_loop (thread : pthread_t) (l : list EnvEntry.t) (i : nat)
    (unused : option nat) (level : Z) : option nat * Z :=
  match l with
  | [] => (unused, level)
  | entry :: rest =>
    if negb (bool_decide (is_Some unused)) && negb (EnvEntry.used entry) then
      pushCallingEnv_loop thread rest (S i) (Some i) level
    else if EnvEntry.used entry && (EnvEntry.thread entry =? thread) then
      pushCallingEnv_loop thread rest (S i) unused (level + 1)%Z
    else
      pushCallingEnv_loop thread rest (S i) unused level
  end.

(** Returns the reserved slot, whose [env] field the caller fills. *)
Definition pushCallingEnv (thread : pthread_t) : M nat :=
  fun s =>
    let '(unused, level) := pushCallingEnv_loop thread (envList s) 0 None 0%Z in
    (do writeEnv unused (EnvEntry.set_used true) then
     do writeEnv unused (EnvEntry.set_level level) then
     do writeEnv unused (EnvEntry.set_thread thread) then
     match unused with
     | Some j => ret j
     | None => undefined
     end) s.

(** ** popCallingEnv *)

(** [Exception **e]: [NullOut] is [NULL]; [VarOut v] is the address of a
    variable of the caller that currently holds [v].  The functions return
    the out-parameter with the variable's content after the call. *)
Inductive outparam :=
| NullOut
| VarOut (v : ptr).

#[global] Instance outparam_eq_dec : EqDecision outparam.
Proof. solve_decision. Defined.

Fixpoint popCallingEnv_loop (thread : pthread_t) (l : list ExceptionEntry.t)
    (i : nat) : option nat :=
  match l with
  | [] => None
  | entry :: rest =>
    if ExceptionEntry.used entry && ExceptionEntry.thrown entry
       && (ExceptionEntry.thread entry =? thread)
    then Some i
    else popCallingEnv_loop thread rest (S i)
  end.

Definition popCallingEnv (thread : pthread_t) (e : outparam) : M outparam :=
  let* last := getLastEnvEntry thread in
  do writeEnv last (EnvEntry.set_used false) then
  fun s =>
    match popCallingEnv_loop thread (exceptionList s) 0 with
    | Some i =>
      (do writeExc (Some i) (ExceptionEntry.set_thrown false) then
       match e with
       | NullOut => undefined
       | VarOut _ => ret (VarOut (Some i))
       end) s
    | None => Ok e s
    end.

(** ** The macros [try] and [catch] *)

(** [if (!setjmp( *pushCallingEnv()))]: reserve a slot and save the current
    context [ctx] in it; the direct return of [setjmp] enters the body. *)
Definition try_ (thread : pthread_t) (ctx : jmp_buf) : M nat :=
  let* j := pushCallingEnv thread in
  do writeEnv (Some j) (EnvEntry.set_env ctx) then
  ret j.

(** End of the body reached: [popCallingEnv(NULL)]. *)
Definition catch_normal (thread : pthread_t) : M outparam :=
  popCallingEnv thread NullOut.

(** Resumed by [longjmp]: [popCallingEnv(&e)], then the handler. *)
Definition catch_resumed (thread : pthread_t) (e : ptr) : M outparam :=
  popCallingEnv thread (VarOut e).

(** ** vsnprintf

    Modelled from the C standard (the function belongs to the C library, not
    to this repository): [vsnprintf (buf, size, ...)] stores at most
    [size - 1] characters of the formatted output at [buf[0..]], then a
    terminating NUL, and nothing when [size] is 0.  A store outside the
    array is reported as [None]. *)
Fixpoint store_bytes (buf : list byte) (i : nat) (bs : list byte)
    : option (list byte) :=
  match bs with
  | [] => Some buf
  | b :: rest =>
    if i <? length buf then store_bytes (<[i:=b]> buf) (S i) rest
    else None
  end.

Definition vsnprintf (buf : list byte) (size : nat) (out : list byte)
    : option (list byte) :=
  match size with
  | O => Some buf
  | S n => store_bytes buf 0 (take n out ++ [x00])
  end.
Arguments vsnprintf : simpl never.

(** The string held by a [char] array: the bytes before the first NUL. *)
Fixpoint c_str (buf : list byte) : list byte :=
  match buf with
  | [] => []
  | b :: rest => if Byte.eqb b x00 then [] else b :: c_str rest
  end.

Definition c_strlen (buf : list byte) : nat := length (c_str buf).

Section Except.

(** The formatting engine of the C library: the characters a template and
    its arguments expand to, before any size limit is applied. *)
Variables (Template Args : Type).
Variable vformat : Template -> Args -> list byte.

(** ** Construction shared by exAlloc and exThrow *)

(** The three assertions on [cause]. *)
Definition assert_cause (cause : ptr) : M unit :=
  match cause with
  | None => ret tt
  | Some _ =>
    let* c := getExceptionEntry cause in let* x := readExc c in
    do assert_ (ExceptionEntry.used x) then
    let* c := getExceptionEntry cause in let* x := readExc c in
    do assert_ (negb (ExceptionEntry.cause x)) then
    let* c := getExceptionEntry cause in let* x := readExc c in
    assert_ (negb (ExceptionEntry.thrown x))
  end.

(** [if (cause) getExceptionEntry(cause)->cause = 1;] *)
Definition mark_cause (cause : ptr) : M unit :=
  match cause with
  | None => ret tt
  | Some _ =>
    let* c := getExceptionEntry cause in
    writeExc c (ExceptionEntry.set_cause true)
  end.

(** [e = &entry->exception; e->code = code; e->cause = cause;
    vsnprintf(e->msg, MAX_MSG_LEN, msg, argList);] *)
Definition fill_exception (entry : option nat) (code : ExceptionCode)
    (cause : ptr) (msg : Template) (args : Args) : M unit :=
  do writeExc entry
    (fun x => ExceptionEntry.set_exception
                (Exception.set_code code (ExceptionEntry.exception x)) x) then
  do writeExc entry
    (fun x => ExceptionEntry.set_exception
                (Exception.set_cause cause (ExceptionEntry.exception x)) x) then
  let* x := readExc entry in
  match vsnprintf (Exception.msg (ExceptionEntry.exception x)) MAX_MSG_LEN
                  (vformat msg args) with
  | Some m =>
    writeExc entry
      (fun x => ExceptionEntry.set_exception
                  (Exception.set_msg m (ExceptionEntry.exception x)) x)
  | None => undefined
  end.

(** ** exAlloc *)

Definition exAlloc (code : ExceptionCode) (cause : ptr) (msg : Template)
    (args : Args) : M ptr :=
  do assert_cause cause then
  let* entry := allocExceptionEntry in
  do mark_cause cause then
  do fill_exception entry code cause msg args then
  ret entry.

(** ** exThrow

    Returns the slot whose saved context [longjmp] resumes. *)
Definition exThrow (thread : pthread_t) (code : ExceptionCode) (cause : ptr)
    (msg : Template) (args : Args) : M nat :=
  do assert_cause cause then
  let* entry := allocExceptionEntry in
  do writeExc entry (ExceptionEntry.set_thrown true) then
  do writeExc entry (ExceptionEntry.set_thread thread) then
  let* env := getLastEnvEntry thread in
  do mark_cause cause then
  do fill_exception entry code cause msg args then
  match env with
  | Some j => ret j
  | None => undefined
  end.

(** ** exRepeat *)

Definition exRepeat (thread : pthread_t) (e : ptr) : M nat :=
  let* entry := getExceptionEntry e in
  let* x := readExc entry in
  do assert_ (ExceptionEntry.used x) then
  let* x := readExc entry in
  do assert_ (negb (ExceptionEntry.thrown x)) then
  do writeExc entry (ExceptionEntry.set_thrown true) then
  do writeExc entry (ExceptionEntry.set_thread thread) then
  let* env := getLastEnvEntry thread in
  match env with
  | Some j => ret j
  | None => undefined
  end.

(** ** exFree *)

(** [for (; e; e = e->cause) getExceptionEntry(e)->used = 0;] with one unit
    of fuel per iteration. *)
Fixpoint exFree_loop (fuel : nat) (e : ptr) : M unit :=
  match e with
  | None => ret tt
  | Some _ =>
    match fuel with
    | O => out_of_fuel
    | S fuel' =>
      let* entry := getExceptionEntry e in
      do writeExc entry (ExceptionEntry.set_used false) then
      let* x := readExc entry in
      exFree_loop fuel' (Exception.cause (ExceptionEntry.exception x))
    end
  end.

Definition exFree (fuel : nat) (e : ptr) : M unit :=
  let* c := getExceptionEntry e in let* x := readExc c in
  do assert_ (ExceptionEntry.used x) then
  let* c := getExceptionEntry e in let* x := readExc c in
  do assert_ (negb (ExceptionEntry.cause x)) then
  let* c := getExceptionEntry e in let* x := readExc c in
  do assert_ (negb (ExceptionEntry.thrown x)) then
  exFree_loop fuel e.

(** ** exInit

    Only writes the [next] links, which the list order stands for. *)
Definition exInit : M unit := ret tt.

(** ** Calls of the interface and the states they reach *)

Inductive call : Type :=
| Try (thread : pthread_t) (ctx : jmp_buf)
| Catch (thread : pthread_t) (e : outparam)
| Alloc (code : ExceptionCode) (cause : ptr) (msg : Template) (args : Args)
| Throw (thread : pthread_t) (code : ExceptionCode) (cause : ptr)
        (msg : Template) (args : Args)
| Repeat (thread : pthread_t) (e : ptr)
| Free (e : ptr).

(** [exec c s s']: the call [c] returns (or jumps) normally from [s],
    leaving the registries as [s']. *)
Definition exec (c : call) (s s' : state) : Prop :=
  match c with
  | Try t ctx => exists j, try_ t ctx s = Ok j s'
  | Catch t e => exists e', popCallingEnv t e s = Ok e' s'
  | Alloc code cause msg args => exists p, exAlloc code cause msg args s = Ok p s'
  | Throw t code cause msg args =>
    exists j, exThrow t code cause msg args s = Ok j s'
  | Repeat t e => exists j, exRepeat t e s = Ok j s'
  | Free e => exists fuel, exFree fuel e s = Ok tt s'
  end.

Inductive reachable : state -> Prop :=
| reachable_init s : exInit zeroed = Ok tt s -> reachable s
| reachable_step s c s' : reachable s -> exec c s s' -> reachable s'.

(** A call through which [t] neither enters nor leaves a protected block. *)
Definition keeps_blocks (t : pthread_t) (c : call) : Prop :=
  match c with
  | Try t' _ | Catch t' _ => t' <> t
  | _ => True
  end.

(** [nested_entries t s js s']: from [s], thread [t] enters the protected
    blocks [js] (slot and saved context, outermost first) and leaves none,
    while any thread may make other calls; the registries end as [s']. *)
Inductive nested_entries (t : pthread_t)
    : state -> list (nat * jmp_buf) -> state -> Prop :=
| nested_none s : nested_entries t s [] s
| nested_enter s js s1 ctx j s2 :
    nested_entries t s js s1 ->
    try_ t ctx s1 = Ok j s2 ->
    nested_entries t s (js ++ [(j, ctx)]) s2
| nested_other s js s1 c s2 :
    nested_entries t s js s1 ->
    keeps_blocks t c ->
    exec c s1 s2 ->
    nested_entries t s js s2.

(** A call that puts no record in flight. *)
Definition throws_nothing (c : call) : Prop :=
  match c with
  | Throw _ _ _ _ _ | Repeat _ _ => False
  | _ => True
  end.

Inductive quiet_run : state -> state -> Prop :=
| quiet_refl s : quiet_run s s
| quiet_step s c s1 s2 :
    quiet_run s s1 -> throws_nothing c -> exec c s1 s2 -> quiet_run s s2.

(** [exRepeat] applied to a record whose cause bit is set. *)
Definition repeats_a_cause (c : call) (s : state) : Prop :=
  match c with
  | Repeat _ (Some i) =>
    exists x, exceptionList s !! i = Some x /\ ExceptionEntry.cause x = true
  | _ => False
  end.

(** The states reached without ever repeating a cause. *)
Inductive reachable_sparing : state -> Prop :=
| sparing_init s : exInit zeroed = Ok tt s -> reachable_sparing s
| sparing_step s c s' :
    reachable_sparing s -> ~ repeats_a_cause c s -> exec c s s' ->
    reachable_sparing s'.

End Except.

Arguments repeats_a_cause {Template Args} c s.
Arguments reachable_sparing {Template Args} vformat s.
Arguments fill_exception {Template Args} vformat entry code cause msg args.
Arguments exAlloc {Template Args} vformat code cause msg args.
Arguments exThrow {Template Args} vformat thread code cause msg args.
Arguments call : clear implicits.
Arguments Try {Template Args} thread ctx.
Arguments Catch {Template Args} thread e.
Arguments Alloc {Template Args} code cause msg args.
Arguments Throw {Template Args} thread code cause msg args.
Arguments Repeat {Template Args} thread e.
Arguments Free {Template Args} e.
Arguments exec {Template Args} vformat c s s'.
Arguments reachable {Template Args} vformat s.
Arguments keeps_blocks {Template Args} t c.
Arguments nested_entries {Template Args} vformat t s js s'.
Arguments throws_nothing {Template Args} c.
Arguments quiet_run {Template Args} vformat s s'.

(** ** Predicates used by the statements *)

Fixpoint find_index {A} (p : A -> bool) (l : list A) (i : nat) : option nat :=
  match l with
  | [] => None
  | x :: rest => if p x then Some i else find_index p rest (S i)
  end.

Fixpoint count_if {A} (p : A -> bool) (l : list A) : nat :=
  match l with
  | [] => 0
  | x :: rest => (if p x then 1 else 0) + count_if p rest
  end.

(** The array bounds that the C types fix. *)
Definition wf (s : state) : Prop :=
  length (envList s) = ENV_LIST_SIZE /\
  length (exceptionList s) = EXCEPTION_LIST_SIZE /\
  forall i x, exceptionList s !! i = Some x ->
    length (Exception.msg (ExceptionEntry.exception x)) = MAX_MSG_LEN.

(** The entry [pushCallingEnv] writes over [x]. *)
Definition reserve (t : pthread_t) (lvl : Z) (x : EnvEntry.t) : EnvEntry.t :=
  EnvEntry.set_thread t (EnvEntry.set_level lvl (EnvEntry.set_used true x)).

Definition unused_env (x : EnvEntry.t) : bool := negb (EnvEntry.used x).

(** An environment slot in use and owned by [t]. *)
Definition owned (t : pthread_t) (e : EnvEntry.t) : bool :=
  EnvEntry.used e && (EnvEntry.thread e =? t).

(** The number of protected blocks [t] has open. *)
Definition open_blocks (t : pthread_t) (l : list EnvEntry.t) : nat :=
  count_if (owned t) l.

(** One slot per (thread, level), and the levels of a thread's slots are
    exactly 0, 1, ..., (number of its slots) - 1. *)
Definition env_inv (l : list EnvEntry.t) : Prop :=
  forall t,
    (forall i j x y,
        l !! i = Some x -> l !! j = Some y ->
        owned t x = true -> owned t y = true ->
        EnvEntry.level x = EnvEntry.level y -> i = j) /\
    (forall z,
        (0 <= z < Z.of_nat (open_blocks t l))%Z <->
        exists i x, l !! i = Some x /\ owned t x = true /\ EnvEntry.level x = z).

Definition unused_exc (x : ExceptionEntry.t) : bool :=
  negb (ExceptionEntry.used x).

(** What the three assertions of [exAlloc], [exThrow] and [exFree] ask of a
    record: allocated, not a cause, not in flight. *)
Definition at_rest (x : ExceptionEntry.t) : bool :=
  ExceptionEntry.used x && negb (ExceptionEntry.cause x)
  && negb (ExceptionEntry.thrown x).

(** The record [allocExceptionEntry] leaves in the slot of [x]. *)
Definition allocated (x : ExceptionEntry.t) : ExceptionEntry.t :=
  ExceptionEntry.set_used true (ExceptionEntry.set_cause false x).

(** The record the construction code leaves in an allocated slot. *)
Definition filled (code : ExceptionCode) (m : list byte) (cause : ptr)
    (x : ExceptionEntry.t) : ExceptionEntry.t :=
  ExceptionEntry.set_exception (Exception.mk code m cause) x.

(** The record [exThrow] and [exRepeat] put in flight. *)
Definition launched (t : pthread_t) (x : ExceptionEntry.t) : ExceptionEntry.t :=
  ExceptionEntry.set_thread t (ExceptionEntry.set_thrown true x).

(** The pool after [if (cause) getExceptionEntry(cause)->cause = 1]. *)
Definition marked (cause : ptr) (l : list ExceptionEntry.t)
    : list ExceptionEntry.t :=
  match cause with
  | Some c => alter (ExceptionEntry.set_cause true) c l
  | None => l
  end.

(** The pool after the loop of [exFree] has visited [ch]. *)
Definition released (ch : list nat) (l : list ExceptionEntry.t)
    : list ExceptionEntry.t :=
  foldl (fun acc i => alter (ExceptionEntry.set_used false) i acc) l ch.

(** A record in use, in flight and owned by [t]. *)
Definition in_flight (t : pthread_t) (x : ExceptionEntry.t) : bool :=
  ExceptionEntry.used x && ExceptionEntry.thrown x
  && (ExceptionEntry.thread x =? t).

(** The record a deliver on thread [t] would hand over. *)
Definition deliverable (t : pthread_t) (s : state) : option nat :=
  popCallingEnv_loop t (exceptionList s) 0.

(** A record in use whose cause reference is record [c]. *)
Definition points_to (c : nat) (x : ExceptionEntry.t) : bool :=
  ExceptionEntry.used x
  && bool_decide (Exception.cause (ExceptionEntry.exception x) = Some c).

Definition referrers (c : nat) (l : list ExceptionEntry.t) : nat :=
  count_if (points_to c) l.

(** The records visited by following the cause references from [e]. *)
Inductive cause_chain (l : list ExceptionEntry.t) : ptr -> list nat -> Prop :=
| chain_end : cause_chain l None []
| chain_link i x ch :
    l !! i = Some x ->
    cause_chain l (Exception.cause (ExceptionEntry.exception x)) ch ->
    cause_chain l (Some i) (i :: ch).

Definition exc_inv (l : list ExceptionEntry.t) : Prop :=
  (forall i x c,
      l !! i = Some x -> ExceptionEntry.used x = true ->
      Exception.cause (ExceptionEntry.exception x) = Some c ->
      exists y, l !! c = Some y /\ ExceptionEntry.used y = true /\
                ExceptionEntry.cause y = true) /\
  (forall i j x y c,
      l !! i = Some x -> l !! j = Some y ->
      points_to c x = true -> points_to c y = true -> i = j) /\
  (forall i x,
      l !! i = Some x -> ExceptionEntry.used x = true ->
      exists ch, cause_chain l (Some i) ch).

(** A record in use with its cause bit set is the cause of a record in use. *)
Definition cause_inv (l : list ExceptionEntry.t) : Prop :=
  forall i x,
    l !! i = Some x -> ExceptionEntry.used x = true ->
    ExceptionEntry.cause x = true ->
    exists k y, l !! k = Some y /\ points_to i y = true.

(** A record that is free or is a cause is not in flight. *)
Definition grounded (l : list ExceptionEntry.t) : Prop :=
  forall i x,
    l !! i = Some x ->
    ExceptionEntry.used x = false \/ ExceptionEntry.cause x = true ->
    ExceptionEntry.thrown x = false.

(** The invariant of the two registries. *)
Definition inv (s : state) : Prop :=
  wf s /\ env_inv (envList s) /\ exc_inv (exceptionList s).

(** The number of records in use. *)
Definition in_use (l : list ExceptionEntry.t) : nat :=
  count_if ExceptionEntry.used l.

(** What [getLastEnvEntry] holds in [last] once the slots from [n] upwards
    have been examined. *)
Definition last_above (l : list EnvEntry.t) (t : pthread_t) (n : nat)
    (last : option (nat * EnvEntry.t)) : Prop :=
  match last with
  | None => forall k x, n <= k -> l !! k = Some x -> owned t x = false
  | Some (j, e) =>
    l !! j = Some e /\ owned t e = true /\
    (forall k x, n <= k -> l !! k = Some x -> owned t x = true ->
                 (EnvEntry.level x <= EnvEntry.level e)%Z)
  end.


(** The pool [exAlloc] ([lift] is [allocated]) and [exThrow] ([lift] also
    launches the record) leave behind. *)
Definition built (lift : ExceptionEntry.t -> ExceptionEntry.t)
    (code : ExceptionCode) (m : list byte) (cause : ptr) (n : nat)
    (l : list ExceptionEntry.t) : list ExceptionEntry.t :=
  alter (filled code m cause) n (marked cause (alter lift n l)).

Definition construct {Template Args A}
    (vformat : Template -> Args -> list byte)
    (lift : ExceptionEntry.t -> ExceptionEntry.t)
    (code : ExceptionCode) (cause : ptr) (msg : Template) (args : Args)
    (k : nat -> state -> Res A) (s : state) : Res A :=
  match assert_cause cause s with
  | Ok _ _ =>
    match find_index unused_exc (exceptionList s) 0 with
    | Some n =>
      match exceptionList s !! n with
      | Some x =>
        match vsnprintf (Exception.msg (ExceptionEntry.exception x))
                        MAX_MSG_LEN (vformat msg args) with
        | Some m =>
          k n (mkState (envList s)
                       (built lift code m cause n (exceptionList s)))
        | None => Undefined
        end
      | None => Undefined
      end
    | None => Undefined
    end
  | Violation s' => Violation s'
  | Undefined => Undefined
  | OutOfFuel => OutOfFuel
  end.


(** What a call of another thread, or a call that is neither an entry nor an
    exit, does to the table: the slots of [t] stay as they are. *)
Definition same_blocks (t : pthread_t) (l l' : list EnvEntry.t) : Prop :=
  open_blocks t l' = open_blocks t l /\
  forall k x, owned t x = true -> l !! k = Some x <-> l' !! k = Some x.


(** ** Running a sequence of calls *)

Definition ok_state {A} (r : Res A) : option state :=
  match r with
  | Ok _ s => Some s
  | _ => None
  end.

(** The state a call leaves when it returns; [exFree] gets fuel for a chain
    through the whole pool. *)
Definition run_call {Template Args} (vformat : Template -> Args -> list byte)
    (c : call Template Args) (s : state) : option state :=
  match c with
  | Try t ctx => ok_state (try_ t ctx s)
  | Catch t e => ok_state (popCallingEnv t e s)
  | Alloc code cause msg args => ok_state (exAlloc vformat code cause msg args s)
  | Throw t code cause msg args =>
    ok_state (exThrow vformat t code cause msg args s)
  | Repeat t e => ok_state (exRepeat t e s)
  | Free e => ok_state (exFree EXCEPTION_LIST_SIZE e s)
  end.

Fixpoint run_calls {Template Args} (vformat : Template -> Args -> list byte)
    (cs : list (call Template Args)) (s : state) : option state :=
  match cs with
  | [] => Some s
  | c :: rest =>
    match run_call vformat c s with
    | Some s' => run_calls vformat rest s'
    | None => None
    end
  end.

(** Does the call enter or leave a protected block of [t]? *)
Definition moves_blocks {Template Args} (t : pthread_t)
    (c : call Template Args) : bool :=
  match c with
  | Try t' _ | Catch t' _ => t' =? t
  | _ => false
  end.

(** Runs [cs] and collects the entries of [t]; [None] when a call does not
    return or [t] leaves a block. *)
Fixpoint run_nested {Template Args} (vformat : Template -> Args -> list byte)
    (t : pthread_t) (cs : list (call Template Args)) (s : state)
    (js : list (nat * jmp_buf)) : option (list (nat * jmp_buf) * state) :=
  match cs with
  | [] => Some (js, s)
  | c :: rest =>
    if moves_blocks t c then
      match c with
      | Try _ ctx =>
        match try_ t ctx s with
        | Ok j s' => run_nested vformat t rest s' (js ++ [(j, ctx)])
        | _ => None
        end
      | _ => None
      end
    else
      match run_call vformat c s with
      | Some s' => run_nested vformat t rest s' js
      | None => None
      end
  end.

(** ** A concrete program

    Templates without conversion specifications: the formatted output is the
    template itself. *)
Definition verbatim (msg : list byte) (_ : unit) : list byte := msg.

Definition demo_call := call (list byte) unit.

(** Thread 1 enters two nested blocks while thread 2 enters one. *)
Definition demo_enter : list demo_call :=
  [Try 1 100; Try 2 300; Try 1 200].

(** ... then builds record 0, throws record 1 with record 0 as its cause, and
    the handler of the inner block receives it. *)
Definition demo_throw : list demo_call :=
  demo_enter ++ [Alloc exOther None [x61] tt; Throw 1 exOther (Some 0) [x62] tt].

Definition demo_caught : list demo_call :=
  demo_throw ++ [Catch 1 (VarOut None)].

Definition state_after (cs : list demo_call) : state :=
  match run_calls verbatim cs zeroed with
  | Some s => s
  | None => zeroed
  end.

Definition state_of {A} (r : Res A) : state :=
  match r with
  | Ok _ s => s
  | _ => zeroed
  end.

(** Does the call return, with value [a]? *)
Definition result_is {A} `{EqDecision A} (r : Res A) (a : A) : bool :=
  match r with
  | Ok a' _ => bool_decide (a' = a)
  | _ => false
  end.

(** Do all the calls return? *)
Definition completes (cs : list demo_call) : bool :=
  match run_calls verbatim cs zeroed with
  | Some _ => true
  | None => false
  end.

(** The entries of [t] in [cs], and the state after [cs]. *)
Definition nested_slots (t : pthread_t) (cs : list demo_call)
    : option (list (nat * jmp_buf)) :=
  fst <$> run_nested verbatim t cs zeroed [].

Definition nested_state (t : pthread_t) (cs : list demo_call) : state :=
  match run_nested verbatim t cs zeroed [] with
  | Some (_, s) => s
  | None => zeroed
  end.

Definition record_at (s : state) (i : nat) : ExceptionEntry.t :=
  default ExceptionEntry.zero (exceptionList s !! i).

(** A template of [MAX_MSG_LEN + 2] characters. *)
Definition long_text : list byte := replicate (MAX_MSG_LEN + 2) x61.

(** Thread 1 builds record 0, attaches it as the cause of record 1 and repeats
    record 0; before the handler of thread 1 runs, thread 2 frees record 1. *)
Definition demo_stale : list demo_call :=
  [Try 1 100;
   Alloc exOther None [x61] tt;
   Alloc exOther (Some 0) [x62] tt;
   Repeat 1 (Some 0);
   Free (Some 1)].

(** ... then the handler of thread 1 runs, and thread 1 enters a block and
    builds a record in it. *)
Definition demo_stale_reused : list demo_call :=
  demo_stale ++ [Catch 1 (VarOut None); Try 1 200; Alloc exOther None [x63] tt].

(** A call that is not an entry, an exit, a throw or a repeat of thread [t]:
    what the other threads do, and what [exAlloc] and [exFree], which take no
    thread, do for any thread. *)
Definition by_others {Template Args} (t : pthread_t)
    (c : call Template Args) : Prop :=
  match c with
  | Try t' _ | Catch t' _ | Throw t' _ _ _ _ | Repeat t' _ => t' <> t
  | Alloc _ _ _ _ | Free _ => True
  end.

(** [others_run t s s']: from [s] to [s'] through calls not made by [t],
    none of them an [exRepeat] of a record whose cause bit is set. *)
Inductive others_run {Template Args} (vformat : Template -> Args -> list byte)
    (t : pthread_t) : state -> state -> Prop :=
| others_refl s : others_run vformat t s s
| others_step s c s1 s2 :
    others_run vformat t s s1 ->
    by_others t c -> ~ repeats_a_cause c s1 -> exec vformat c s1 s2 ->
    others_run vformat t s s2.


(** ** exInit and the [next] links

    The arrays are also singly linked lists, which every loop of the form
    [for (entry = list; entry; entry = entry->next)] follows; [exInit] writes
    the links.  [Links.t] holds the [next] fields of the two arrays: [None]
    is [NULL], [Some i] the address of entry [i] of the same array. *)
Module Links.

Record t := mk {
  envNext : list ptr;
  excNext : list ptr
}.

(** Static storage is zero-initialised: every link is [NULL]. *)
Definition zero : t :=
  mk (replicate ENV_LIST_SIZE None) (replicate EXCEPTION_LIST_SIZE None).

(** [list[i].next = v]; a store outside the array is reported as [None]. *)
Definition set_next (i : nat) (v : ptr) (l : list ptr) : option (list ptr) :=
  if i <? length l then Some (<[i:=v]> l) else None.

(** [for (; i < size; i++) list[i - 1].next = &list[i];] with [n] iterations
    left. *)
Fixpoint link_loop (n i : nat) (l : list ptr) : option (list ptr) :=
  match n with
  | O => Some l
  | S n' =>
    match set_next (i - 1) (Some i) l with
    | Some l' => link_loop n' (S i) l'
    | None => None
    end
  end.

(** The terminator of the exception pool is written at index
    [ENV_LIST_SIZE - 1], as in the source. *)
Definition exInit (l : t) : option t :=
  match set_next (ENV_LIST_SIZE - 1) None (envNext l) with
  | Some env =>
    match link_loop (ENV_LIST_SIZE - 1) 1 env with
    | Some env' =>
      match set_next (ENV_LIST_SIZE - 1) None (excNext l) with
      | Some exc =>
        match link_loop (EXCEPTION_LIST_SIZE - 1) 1 exc with
        | Some exc' => Some (mk env' exc')
        | None => None
        end
      | None => None
      end
    | None => None
    end
  | None => None
  end.

(** [for (entry = list; entry; entry = entry->next)]: the entries visited,
    in order; [None] when the walk leaves the array or has not ended after
    [fuel] entries. *)
Fixpoint walk (fuel : nat) (next : list ptr) (entry : ptr)
    : option (list nat) :=
  match entry with
  | None => Some []
  | Some i =>
    match fuel with
    | O => None
    | S fuel' =>
      match next !! i with
      | Some n => cons i <$> walk fuel' next n
      | None => None
      end
    end
  end.

End Links.

(** ** exDeinit

    The build with assertions, where [NDEBUG] is not defined.  The value
    returned is what the call writes to the standard output. *)

Definition env_leak_report : list byte :=
  list_byte_of_string
    "A calling environment was not freed. Did you exit a function from a try block?".

(** [printf ("An exception was not freed. The message is: %s.", msg)]: the
    conversion [%s] writes the characters of [msg] before its first NUL. *)
Definition exc_leak_report (msg : list byte) : list byte :=
  list_byte_of_string "An exception was not freed. The message is: "
  ++ c_str msg ++ list_byte_of_string ".".

Definition set_msg_at (i : nat) (b : byte) (x : ExceptionEntry.t)
    : ExceptionEntry.t :=
  ExceptionEntry.set_exception
    (Exception.set_msg (<[i:=b]> (Exception.msg (ExceptionEntry.exception x)))
                       (ExceptionEntry.exception x)) x.

(** [entry->exception.msg[i] = b] *)
Definition store_msg (entry : option nat) (i : nat) (b : byte) : M unit :=
  let* x := readExc entry in
  if i <? length (Exception.msg (ExceptionEntry.exception x))
  then writeExc entry (set_msg_at i b)
  else undefined.

(** The first loop, at index [i] with [n] iterations left; [out] is the
    output so far. *)
Fixpoint exDeinit_env (n i : nat) (out : list byte) : M (list byte) :=
  match n with
  | O => ret out
  | S n' =>
    let* x := readEnv (Some i) in
    if EnvEntry.used x
    then exDeinit_env n' (S i) (out ++ env_leak_report)
    else exDeinit_env n' (S i) out
  end.

(** The second loop. *)
Fixpoint exDeinit_exc (n i : nat) (out : list byte) : M (list byte) :=
  match n with
  | O => ret out
  | S n' =>
    let* x := readExc (Some i) in
    if ExceptionEntry.used x then
      do store_msg (Some i) (MAX_MSG_LEN - 1) x00 then
      let* x := readExc (Some i) in
      exDeinit_exc n' (S i)
        (out ++ exc_leak_report (Exception.msg (ExceptionEntry.exception x)))
    else exDeinit_exc n' (S i) out
  end.

Definition exDeinit : M (list byte) :=
  let* out := exDeinit_env ENV_LIST_SIZE 0 [] in
  exDeinit_exc EXCEPTION_LIST_SIZE 0 out.

(** What [exDeinit] leaves of a record: the last byte of the message of a
    record in use is NUL. *)
Definition shutdown (x : ExceptionEntry.t) : ExceptionEntry.t :=
  if ExceptionEntry.used x then set_msg_at (MAX_MSG_LEN - 1) x00 x else x.

(** The reports on the records of [l] that are in use. *)
Definition exc_leak_reports (l : list ExceptionEntry.t) : list byte :=
  concat ((fun x => if ExceptionEntry.used x
                    then exc_leak_report
                           (Exception.msg (ExceptionEntry.exception x))
                    else []) <$> l).


(** Every message buffer of the pool ends with a NUL. *)
Definition msg_terminated (l : list ExceptionEntry.t) : Prop :=
  forall i x, l !! i = Some x ->
    Exception.msg (ExceptionEntry.exception x) !! (MAX_MSG_LEN - 1) = Some x00.


(** ** More concrete programs *)

(** Thread 2 fills the table of calling environments. *)
Definition demo_full_table : list demo_call :=
  replicate ENV_LIST_SIZE (Try 2 300).

(** Every record of the pool is built. *)
Definition demo_full_pool : list demo_call :=
  replicate EXCEPTION_LIST_SIZE (Alloc exOther None [x61] tt).


(** Thread 1 enters a block and throws; before its handler runs, thread 2
    enters a block and throws as well. *)
Definition demo_entered : state := state_of (try_ 1 100 zeroed).

Definition demo_thrown : state :=
  state_of (exThrow verbatim 1 exOther None [x61] tt demo_entered).

Definition demo_thrown_entered : state := state_of (try_ 2 300 demo_thrown).

Definition demo_thrown_twice : state :=
  state_of (exThrow verbatim 2 exOther None [x62] tt demo_thrown_entered).


(** ** The code between the calls

    [setjmp] and [longjmp] route control through the code that uses the
    interface: a piece of code of a thread either runs to its end or ends in
    a [longjmp] to a saved context. *)
Inductive flow (A : Type) : Type :=
| Done (a : A)
| Jump (ctx : jmp_buf).
Arguments Done {A} a.
Arguments Jump {A} ctx.

Definition Code (A : Type) : Type := M (flow A).

(** Sequencing: what follows a piece of code runs only if it ran to its
    end. *)
Definition and_then {A B} (m : Code A) (k : A -> Code B) : Code B :=
  let* r := m in
  match r with
  | Done a => k a
  | Jump ctx => ret (Jump ctx)
  end.

(** A call that returns to its caller. *)
Definition returns {A} (m : M A) : Code A :=
  let* a := m in ret (Done a).

(** [longjmp ( *env, 1)], where [env] points to the [env] field of slot
    [j]. *)
Definition longjmp {A} (j : nat) : Code A :=
  let* x := readEnv (Some j) in ret (Jump (EnvEntry.env x)).

(** [try BODY catch (e) HANDLER], that is
    [if (!setjmp ( *pushCallingEnv ())) { BODY popCallingEnv (NULL); }
     else if (popCallingEnv (&e), 1) HANDLER].
    [ctx] is the context this [setjmp] saves; a [longjmp] to it resumes at
    the [else], any other one leaves the statement.  [e] is what the variable
    [e] holds when the handler is reached, which shows only if
    [popCallingEnv] delivers nothing. *)
Definition try_catch {A} (t : pthread_t) (ctx : jmp_buf) (e : ptr)
    (body : Code A) (handler : ptr -> Code A) : Code A :=
  do try_ t ctx then
  let* r := body in
  match r with
  | Done a => do catch_normal t then ret (Done a)
  | Jump c =>
    if c =? ctx then
      let* out := catch_resumed t e in
      match out with
      | VarOut e' => handler e'
      | NullOut => undefined
      end
    else ret (Jump c)
  end.

(** ** printf templates

    The conversions the test program uses.  [decimal] is the conversion [%d]
    of the C library; a conversion without a matching argument, undefined in
    C, ends the output. *)
Inductive directive : Type :=
| Lit (b : byte)
| PctD
| PctS.

Inductive arg : Type :=
| ArgInt (n : Z)
| ArgStr (s : list byte).

Definition literal (s : string) : list directive :=
  Lit <$> list_byte_of_string s.

Fixpoint format (decimal : Z -> list byte) (tpl : list directive)
    (args : list arg) : list byte :=
  match tpl with
  | [] => []
  | Lit b :: tpl' => b :: format decimal tpl' args
  | PctD :: tpl' =>
    match args with
    | ArgInt n :: args' => decimal n ++ format decimal tpl' args'
    | _ => []
    end
  | PctS :: tpl' =>
    match args with
    | ArgStr s :: args' => c_str s ++ format decimal tpl' args'
    | _ => []
    end
  end.

(** [snprintf (buf + off, size, ...)]: as [vsnprintf], from offset [off] of
    the array [buf]. *)
Definition snprintf_at (buf : list byte) (off size : nat) (out : list byte)
    : option (list byte) :=
  match size with
  | O => Some buf
  | S n => store_bytes buf off (take n out ++ [x00])
  end.

#[global] Instance byte_eq_decision : EqDecision byte := Byte.byte_eq_dec.

(** ** The test program: the code of one test thread *)

Record TestThread := mkTestThread {
  secret0 : Z;
  secret1 : Z;
  secret2 : Z
}.

Section TestProgram.

Variable decimal : Z -> list byte.

(** The contexts saved by the [setjmp] of the two blocks of [funcA] and of
    the two blocks of [funcB], outer block first. *)
Variables ctxA1 ctxA2 ctxB1 ctxB2 : jmp_buf.

(** A call of [exThrow] as the calling code sees it: it ends in the
    [longjmp] to the context held by the slot [exThrow] found. *)
Definition throw {A} (t : pthread_t) (code : ExceptionCode) (cause : ptr)
    (msg : list directive) (args : list arg) : Code A :=
  let* j := exThrow (format decimal) t code cause msg args in longjmp j.

(** A call of [exRepeat], likewise. *)
Definition repeat_ {A} (t : pthread_t) (e : ptr) : Code A :=
  let* j := exRepeat t e in longjmp j.

(** [e] is the uninitialised local variable of [funcB]. *)
Definition funcB (t : pthread_t) (thread : TestThread) (e : ptr) : Code unit :=
  try_catch t ctxB1 e
    (try_catch t ctxB2 e
       (throw t exOther None (literal "No error.") [])
       (fun e =>
          and_then (returns (exFree EXCEPTION_LIST_SIZE e)) (fun _ =>
          and_then (returns (exAlloc (format decimal) exOther None [PctD]
                               [ArgInt (secret0 thread)])) (fun e =>
          throw t exOther e [PctD] [ArgInt (secret1 thread)]))))
    (fun e => repeat_ t e).

(** [snprintf (e->msg + strlen (e->msg), MAX_MSG_LEN, " %d", n)] *)
Definition append_secret (e : ptr) (n : Z) : M unit :=
  let* x := readExc e in
  let msg := Exception.msg (ExceptionEntry.exception x) in
  match snprintf_at msg (c_strlen msg) MAX_MSG_LEN
          (format decimal [Lit x20; PctD] [ArgInt n]) with
  | Some msg' =>
    writeExc e
      (fun x => ExceptionEntry.set_exception
                  (Exception.set_msg msg' (ExceptionEntry.exception x)) x)
  | None => undefined
  end.

(** [snprintf (msgActual, MAX_MSG_LEN, "%s %s", e->cause->msg, e->msg)];
    returns [msgActual]. *)
Definition join_messages (e : ptr) (msgActual : list byte)
    : M (list byte) :=
  let* x := readExc e in
  let* c := readExc (Exception.cause (ExceptionEntry.exception x)) in
  match vsnprintf msgActual MAX_MSG_LEN
          (format decimal [PctS; Lit x20; PctS]
             [ArgStr (Exception.msg (ExceptionEntry.exception c));
              ArgStr (Exception.msg (ExceptionEntry.exception x))]) with
  | Some m => ret m
  | None => undefined
  end.

(** [!strcmp (a, b)] *)
Definition same_string (a b : list byte) : bool :=
  bool_decide (c_str a = c_str b).

(** [funcA], up to and including its assertion; [e], [msgExpected] and
    [msgActual] are its uninitialised local variables. *)
Definition funcA (t : pthread_t) (thread : TestThread) (e eB : ptr)
    (msgExpected msgActual : list byte) : Code unit :=
  and_then
    (try_catch t ctxA1 e
       (and_then
          (try_catch t ctxA2 e
             (funcB t thread eB)
             (fun e =>
                and_then (returns (append_secret e (secret2 thread))) (fun _ =>
                repeat_ t e)))
          (fun _ => ret (Done msgActual)))
       (fun e =>
          and_then (returns (join_messages e msgActual)) (fun actual =>
          and_then (returns (exFree EXCEPTION_LIST_SIZE e)) (fun _ =>
          ret (Done actual)))))
    (fun actual =>
       match vsnprintf msgExpected MAX_MSG_LEN
               (format decimal [PctD; Lit x20; PctD; Lit x20; PctD]
                  [ArgInt (secret0 thread); ArgInt (secret1 thread);
                   ArgInt (secret2 thread)]) with
       | Some expected => returns (assert_ (same_string expected actual))
       | None => undefined
       end).

End TestProgram.

(** The pool [l] with records [r1] and [r2] in slots [n1] and [n2]. *)
Definition pool2 (l : list ExceptionEntry.t) (n1 : nat) (r1 : ExceptionEntry.t)
    (n2 : nat) (r2 : ExceptionEntry.t) : list ExceptionEntry.t :=
  <[n2:=r2]> (<[n1:=r1]> l).

(** The message [vsnprintf] leaves in [buf]. *)
Definition stored (buf out : list byte) : list byte :=
  (take (MAX_MSG_LEN - 1) out ++ [x00])
  ++ drop (length (take (MAX_MSG_LEN - 1) out) + 1) buf.

(** The conversion [%d] for the values of an [int]: a minus sign for a
    negative number, then the decimal digits, the most significant first. *)
Definition digit (n : Z) : byte :=
  match n with
  | 0 => x30 | 1 => x31 | 2 => x32 | 3 => x33 | 4 => x34
  | 5 => x35 | 6 => x36 | 7 => x37 | 8 => x38 | _ => x39
  end%Z.

Fixpoint digits (fuel : nat) (n : Z) (acc : list byte) : list byte :=
  match fuel with
  | O => acc
  | S fuel' =>
    let acc' := digit (n mod 10) :: acc in
    if (n / 10 =? 0)%Z then acc' else digits fuel' (n / 10) acc'
  end.

Definition decimal_int (n : Z) : list byte :=
  if (n <? 0)%Z then x2d :: digits 10 (- n) [] else digits 10 n [].

(** The check that [decimal] yields, for each of the numbers [ns], a string
    without NUL of at most eleven characters. *)
Definition decimal_checked (decimal : Z -> list byte) (ns : list Z) : bool :=
  forallb (fun n => forallb (fun b => negb (Byte.eqb b x00)) (decimal n)
                    && (length (decimal n) <=? 11)) ns.

(** * Properties *)

(** ** Lists: first match and counting *)

Section Lists.
Context {A : Type}.
Implicit Types (p : A -> bool) (l : list A).

Lemma find_index_Some p l i n :
  find_index p l i = Some n ->
  exists k x, n = i + k /\ l !! k = Some x /\ p x = true /\
    forall j y, j < k -> l !! j = Some y -> p y = false.
Proof.
  revert i. induction l as [|a l IH]; intros i H; simpl in H; [discriminate|].
  destruct (p a) eqn:Hp.
  - inversion H; subst. exists 0, a. repeat split; [lia|done|lia].
  - apply IH in H as (k & x & -> & Hk & Hx & Hlt).
    exists (S k), x. repeat split; [lia|done|done|].
    intros [|j] y Hj Hy; simpl in Hy; [congruence|].
    apply (Hlt j); [lia|done].
Qed.

Lemma find_index_None p l i :
  find_index p l i = None -> forall j y, l !! j = Some y -> p y = false.
Proof.
  revert i. induction l as [|a l IH]; intros i H j y Hy; [done|].
  simpl in H. destruct (p a) eqn:Hp; [discriminate|].
  destruct j as [|j]; simpl in Hy; [congruence|]. eauto.
Qed.

Lemma find_index_first p l i k x :
  l !! k = Some x -> p x = true ->
  (forall j y, j < k -> l !! j = Some y -> p y = false) ->
  find_index p l i = Some (i + k).
Proof.
  revert i k. induction l as [|a l IH]; intros i k Hk Hx Hlt; [done|].
  destruct k as [|k]; simpl in *.
  - inversion Hk; subst. rewrite Hx. f_equal. lia.
  - rewrite (Hlt 0 a) by (done || lia).
    rewrite (IH (S i) k); [f_equal; lia|done|done|].
    intros j y Hj Hy. apply (Hlt (S j)); [lia|done].
Qed.

Lemma find_index_None_iff p l i :
  (forall j y, l !! j = Some y -> p y = false) -> find_index p l i = None.
Proof.
  intros H. destruct (find_index p l i) eqn:E; [|done].
  apply find_index_Some in E as (k & x & _ & Hk & Hx & _).
  rewrite (H _ _ Hk) in Hx. discriminate.
Qed.

Lemma count_if_alter p (f : A -> A) l j x :
  l !! j = Some x ->
  count_if p (alter f j l) + (if p x then 1 else 0)
  = count_if p l + (if p (f x) then 1 else 0).
Proof.
  revert j. induction l as [|a l IH]; intros j Hj; [done|].
  destruct j as [|j]; simpl in *.
  - inversion Hj; subst. lia.
  - specialize (IH _ Hj). unfold alter in IH. lia.
Qed.

Lemma count_if_zero p l :
  (forall j y, l !! j = Some y -> p y = false) -> count_if p l = 0.
Proof.
  induction l as [|a l IH]; intros H; [done|]. simpl.
  rewrite (H 0 a) by done. rewrite IH; [done|].
  intros j y Hy. apply (H (S j)). done.
Qed.

Lemma count_if_pos p l j x :
  l !! j = Some x -> p x = true -> 0 < count_if p l.
Proof.
  revert j. induction l as [|a l IH]; intros j Hj Hx; [done|].
  destruct j as [|j]; simpl in *.
  - inversion Hj; subst. rewrite Hx. lia.
  - specialize (IH _ Hj Hx). lia.
Qed.

Lemma count_if_le_1 p l :
  (forall i j x y, l !! i = Some x -> l !! j = Some y ->
                   p x = true -> p y = true -> i = j) ->
  count_if p l <= 1.
Proof.
  induction l as [|a l IH]; intros H; simpl; [lia|].
  destruct (p a) eqn:Hp.
  - rewrite count_if_zero; [lia|].
    intros j y Hy. destruct (p y) eqn:Hpy; [|done].
    specialize (H 0 (S j) a y eq_refl Hy Hp Hpy). discriminate.
  - simpl. apply IH. intros i j x y Hi Hj Hx Hy.
    specialize (H (S i) (S j) x y Hi Hj Hx Hy). lia.
Qed.

End Lists.

(** ** The loops, as first match and count *)

Lemma allocExceptionEntry_loop_find l i :
  allocExceptionEntry_loop l i
  = find_index (fun x => negb (ExceptionEntry.used x)) l i.
Proof.
  revert i. induction l as [|a l IH]; intros i; simpl; [done|].
  by rewrite IH.
Qed.

Lemma popCallingEnv_loop_find t l i :
  popCallingEnv_loop t l i = find_index (in_flight t) l i.
Proof.
  revert i. induction l as [|a l IH]; intros i; simpl; [done|].
  by rewrite IH.
Qed.

Lemma getExceptionEntry_loop_spec l i e :
  getExceptionEntry_loop l i e
  = match e with
    | Some k => if bool_decide (i <= k < i + length l) then Some k else None
    | None => None
    end.
Proof.
  revert i. induction l as [|a l IH]; intros i; simpl.
  - destruct e as [k|]; [|done]. rewrite bool_decide_eq_false_2; [done|lia].
  - rewrite IH. destruct e as [k|].
    + destruct (decide (k = i)) as [->|Hne].
      * rewrite bool_decide_eq_true_2 by done.
        rewrite bool_decide_eq_true_2 by lia. done.
      * rewrite bool_decide_eq_false_2 by congruence.
        apply option_eq. intros y.
        repeat case_bool_decide; try done; lia.
    + by rewrite bool_decide_eq_false_2.
Qed.

Lemma getExceptionEntry_loop_pool l k x :
  l !! k = Some x -> getExceptionEntry_loop l 0 (Some k) = Some k.
Proof.
  intros H. rewrite getExceptionEntry_loop_spec.
  apply lookup_lt_Some in H. rewrite bool_decide_eq_true_2; [done|lia].
Qed.

Lemma getExceptionEntry_loop_Some l e k :
  getExceptionEntry_loop l 0 e = Some k -> e = Some k /\ k < length l.
Proof.
  rewrite getExceptionEntry_loop_spec. destruct e as [k'|]; [|done].
  case_bool_decide; [|done]. intros [= ->]. split; [done|lia].
Qed.

Lemma pushCallingEnv_loop_spec t l i unused level :
  pushCallingEnv_loop t l i unused level
  = (match unused with
     | Some u => Some u
     | None => find_index (fun x => negb (EnvEntry.used x)) l i
     end,
     (level + Z.of_nat (open_blocks t l))%Z).
Proof.
  unfold open_blocks. revert i unused level.
  induction l as [|a l IH]; intros i unused level; simpl.
  - destruct unused; f_equal; lia.
  - unfold owned at 1. destruct unused as [u|]; simpl.
    + destruct (EnvEntry.used a && (EnvEntry.thread a =? t)) eqn:E;
        rewrite IH; f_equal; lia.
    + destruct (EnvEntry.used a) eqn:Hu; simpl.
      * destruct (EnvEntry.thread a =? t) eqn:E; rewrite IH; f_equal; lia.
      * rewrite IH; f_equal; lia.
Qed.

Lemma getLastEnvEntry_loop_spec l t n last :
  last_above l t n last ->
  last_above l t 0 (getLastEnvEntry_loop l t n last).
Proof.
  revert last. induction n as [|n IH]; intros last H; simpl; [done|].
  destruct (l !! n) as [entry|] eqn:Hn.
  - fold (owned t entry). destruct (owned t entry) eqn:Ho.
    + destruct last as [[j e]|]; simpl in *.
      * destruct H as (Hj & He & Hmax).
        pose proof (Zgt_cases (EnvEntry.level entry) (EnvEntry.level e)) as Hc.
        destruct (EnvEntry.level entry >? EnvEntry.level e)%Z; apply IH; simpl.
        -- repeat split; auto. intros k x Hk Hx Hox.
           destruct (decide (k = n)) as [->|Hne]; [simplify_eq; lia|].
           specialize (Hmax k x ltac:(lia) Hx Hox). lia.
        -- repeat split; auto. intros k x Hk Hx Hox.
           destruct (decide (k = n)) as [->|Hne]; [simplify_eq; lia|].
           apply (Hmax k x); [lia|done|done].
      * apply IH; simpl. repeat split; auto. intros k x Hk Hx Hox.
        destruct (decide (k = n)) as [->|Hne]; [simplify_eq; lia|].
        rewrite (H k x) in Hox; [done|lia|done].
    + apply IH. destruct last as [[j e]|]; simpl in *.
      * destruct H as (Hj & He & Hmax). repeat split; auto.
        intros k x Hk Hx Hox.
        destruct (decide (k = n)) as [->|Hne]; [simplify_eq; congruence|].
        apply (Hmax k x); [lia|done|done].
      * intros k x Hk Hx.
        destruct (decide (k = n)) as [->|Hne]; [by simplify_eq|].
        apply (H k x); [lia|done].
  - apply IH. destruct last as [[j e]|]; simpl in *.
    + destruct H as (Hj & He & Hmax). repeat split; auto.
      intros k x Hk Hx Hox.
      destruct (decide (k = n)) as [->|Hne]; [simplify_eq; congruence|].
      apply (Hmax k x); [lia|done|done].
    + intros k x Hk Hx.
      destruct (decide (k = n)) as [->|Hne]; [by simplify_eq|].
      apply (H k x); [lia|done].
Qed.

(** ** Running the monad *)

Lemma bind_Ok {A B} (m : M A) (k : A -> M B) s b s2 :
  bind m k s = Ok b s2 <-> exists a s1, m s = Ok a s1 /\ k a s1 = Ok b s2.
Proof.
  unfold bind. split.
  - destruct (m s) as [a s1| | |]; try discriminate. eauto.
  - intros (a & s1 & -> & H). done.
Qed.

Lemma bind_run {A B} (m : M A) (k : A -> M B) s a s1 :
  m s = Ok a s1 -> bind m k s = k a s1.
Proof. unfold bind. by intros ->. Qed.

Lemma writeEnv_run j f s x :
  envList s !! j = Some x ->
  writeEnv (Some j) f s = Ok tt (mkState (alter f j (envList s)) (exceptionList s)).
Proof. unfold writeEnv. by intros ->. Qed.

Lemma writeExc_run i f s x :
  exceptionList s !! i = Some x ->
  writeExc (Some i) f s = Ok tt (mkState (envList s) (alter f i (exceptionList s))).
Proof. unfold writeExc. by intros ->. Qed.

Lemma readExc_run i s x :
  exceptionList s !! i = Some x -> readExc (Some i) s = Ok x s.
Proof. unfold readExc. by intros ->. Qed.

Lemma lookup_alter_Some {A} (f : A -> A) (l : list A) i x :
  l !! i = Some x -> alter f i l !! i = Some (f x).
Proof. intros H. by rewrite list_lookup_alter_eq, H. Qed.

(** ** The environment table *)

Lemma getLastEnvEntry_run t s :
  getLastEnvEntry t s = Ok (last_slot t (envList s)) s.
Proof. reflexivity. Qed.

Lemma getLastEnvEntry_loop_lookup l t n last :
  (forall j e, last = Some (j, e) -> l !! j = Some e) ->
  forall j e, getLastEnvEntry_loop l t n last = Some (j, e) -> l !! j = Some e.
Proof.
  revert last. induction n as [|n IH]; intros last H j e; simpl; [auto|].
  destruct (l !! n) as [entry|] eqn:Hn; [|by apply IH].
  destruct (EnvEntry.used entry && (EnvEntry.thread entry =? t));
    [|by apply IH].
  assert (Hnew : forall j' e', Some (n, entry) = Some (j', e') ->
                               l !! j' = Some e')
    by (by intros j' e' [= <- <-]).
  destruct last as [[j0 e0]|]; [|by apply IH].
  destruct (EnvEntry.level entry >? EnvEntry.level e0)%Z; by apply IH.
Qed.

Lemma last_slot_lookup t l j :
  last_slot t l = Some j -> exists e, l !! j = Some e.
Proof.
  unfold last_slot. intros H.
  destruct (getLastEnvEntry_loop l t ENV_LIST_SIZE None) as [[j' e]|] eqn:E;
    [|done].
  simpl in H. inversion H; subst. exists e.
  eapply getLastEnvEntry_loop_lookup; [|exact E]. done.
Qed.

Lemma last_slot_Some t l j :
  length l = ENV_LIST_SIZE ->
  last_slot t l = Some j ->
  exists e, l !! j = Some e /\ owned t e = true /\
    forall k x, l !! k = Some x -> owned t x = true ->
                (EnvEntry.level x <= EnvEntry.level e)%Z.
Proof.
  unfold last_slot. intros Hlen H.
  pose proof (getLastEnvEntry_loop_spec l t ENV_LIST_SIZE None) as Hs.
  destruct (getLastEnvEntry_loop l t ENV_LIST_SIZE None) as [[j' e]|]; [|done].
  simpl in H. inversion H; subst. simpl in Hs.
  destruct Hs as (Hj & Ho & Hmax).
  - intros k x Hk Hx. apply lookup_lt_Some in Hx. lia.
  - exists e. repeat split; [done|done|]. intros k x Hx Hox.
    apply (Hmax k x); [lia|done|done].
Qed.

Lemma last_slot_None t l :
  length l = ENV_LIST_SIZE ->
  last_slot t l = None ->
  forall k x, l !! k = Some x -> owned t x = false.
Proof.
  unfold last_slot. intros Hlen H.
  pose proof (getLastEnvEntry_loop_spec l t ENV_LIST_SIZE None) as Hs.
  destruct (getLastEnvEntry_loop l t ENV_LIST_SIZE None) as [[j' e]|]; [done|].
  simpl in Hs. intros k x Hx. eapply Hs; [|apply Nat.le_0_l|exact Hx].
  intros k' x' Hk Hx'. apply lookup_lt_Some in Hx'. lia.
Qed.

Lemma pushCallingEnv_run t s :
  pushCallingEnv t s
  = match find_index unused_env (envList s) 0 with
    | Some j =>
      Ok j (mkState
              (alter (reserve t (Z.of_nat (open_blocks t (envList s)))) j
                     (envList s))
              (exceptionList s))
    | None => Undefined
    end.
Proof.
  unfold pushCallingEnv. rewrite pushCallingEnv_loop_spec.
  fold unused_env. rewrite Z.add_0_l.
  destruct (find_index unused_env (envList s) 0) as [j|] eqn:E; [|done].
  apply find_index_Some in E as (k & x & -> & Hk & _).
  simpl. erewrite bind_run by (by eapply writeEnv_run).
  erewrite bind_run by (eapply writeEnv_run; simpl; by eapply lookup_alter_Some).
  erewrite bind_run
    by (eapply writeEnv_run; simpl;
        eapply lookup_alter_Some; by eapply lookup_alter_Some).
  simpl. unfold ret. f_equal. f_equal.
  rewrite !list_alter_alter_eq. done.
Qed.

Lemma try_run t ctx s :
  try_ t ctx s
  = match find_index unused_env (envList s) 0 with
    | Some j =>
      Ok j (mkState
              (alter (fun x => EnvEntry.set_env ctx
                        (reserve t (Z.of_nat (open_blocks t (envList s))) x))
                     j (envList s))
              (exceptionList s))
    | None => Undefined
    end.
Proof.
  unfold try_, bind. rewrite pushCallingEnv_run.
  destruct (find_index unused_env (envList s) 0) as [j|] eqn:E; [|done].
  apply find_index_Some in E as (k & x & -> & Hk & _).
  erewrite writeEnv_run by (simpl; by eapply lookup_alter_Some).
  simpl. unfold ret. f_equal. f_equal. by rewrite list_alter_alter_eq.
Qed.

Lemma popCallingEnv_run t e s :
  popCallingEnv t e s
  = match last_slot t (envList s) with
    | None => Undefined
    | Some j =>
      let env' := alter (EnvEntry.set_used false) j (envList s) in
      match find_index (in_flight t) (exceptionList s) 0 with
      | Some i =>
        match e with
        | NullOut => Undefined
        | VarOut _ =>
          Ok (VarOut (Some i))
             (mkState env' (alter (ExceptionEntry.set_thrown false) i
                                  (exceptionList s)))
        end
      | None => Ok e (mkState env' (exceptionList s))
      end
    end.
Proof.
  unfold popCallingEnv.
  rewrite (bind_run _ _ _ _ _ (getLastEnvEntry_run t s)).
  destruct (last_slot t (envList s)) as [j|] eqn:E; [|done].
  apply last_slot_lookup in E as [x Hx].
  erewrite bind_run by (by eapply writeEnv_run).
  simpl. rewrite popCallingEnv_loop_find.
  destruct (find_index (in_flight t) (exceptionList s) 0) as [i|] eqn:F; [|done].
  apply find_index_Some in F as (k & y & -> & Hk & _).
  erewrite bind_run by (by eapply writeExc_run).
  by destruct e.
Qed.

Lemma lookup_alter_inv {A} (f : A -> A) (l : list A) j x i a :
  l !! j = Some x -> alter f j l !! i = Some a ->
  (i = j /\ a = f x) \/ (i <> j /\ l !! i = Some a).
Proof.
  intros Hj Hi. destruct (decide (i = j)) as [->|Hne].
  - rewrite (lookup_alter_Some f l j x Hj) in Hi. left. split; congruence.
  - rewrite list_lookup_alter_ne in Hi by done. by right.
Qed.

Lemma owned_reserve t t' lvl x :
  owned t' (reserve t lvl x) = (t =? t').
Proof. done. Qed.

Lemma owned_unused t x : EnvEntry.used x = false -> owned t x = false.
Proof. unfold owned. by intros ->. Qed.

Lemma owned_true t x :
  owned t x = true -> EnvEntry.used x = true /\ EnvEntry.thread x = t.
Proof.
  unfold owned. intros [H1 H2]%andb_true_iff. split; [done|].
  by apply Nat.eqb_eq.
Qed.

Lemma open_blocks_reserve t t' lvl j x l :
  l !! j = Some x -> EnvEntry.used x = false ->
  open_blocks t' (alter (reserve t lvl) j l)
  = open_blocks t' l + (if t =? t' then 1 else 0).
Proof.
  intros Hj Hu. unfold open_blocks.
  pose proof (count_if_alter (owned t') (reserve t lvl) l j x Hj) as H.
  rewrite owned_reserve, (owned_unused t' x Hu) in H. lia.
Qed.

Lemma open_blocks_release t t' j x l :
  l !! j = Some x -> owned t x = true ->
  open_blocks t' (alter (EnvEntry.set_used false) j l)
  + (if t =? t' then 1 else 0) = open_blocks t' l.
Proof.
  intros Hj Ho. unfold open_blocks.
  pose proof (count_if_alter (owned t') (EnvEntry.set_used false) l j x Hj) as H.
  change (owned t' (EnvEntry.set_used false x)) with false in H.
  destruct (owned_true _ _ Ho) as [Hu Ht].
  assert (E : owned t' x = (t =? t')) by (unfold owned; by rewrite Hu, Ht).
  rewrite E in H. lia.
Qed.

(** Reserving an unused slot at the next level keeps the invariant. *)
Lemma env_inv_reserve t j x l :
  env_inv l -> l !! j = Some x -> EnvEntry.used x = false ->
  env_inv (alter (reserve t (Z.of_nat (open_blocks t l))) j l).
Proof.
  intros Hinv Hj Hu t'. destruct (Hinv t') as [Hinj Hrange].
  set (lvl := Z.of_nat (open_blocks t l)).
  assert (Hfresh : forall i a, l !! i = Some a -> owned t' a = true -> i <> j).
  { intros i a Hi Ha ->. rewrite Hj in Hi. inversion Hi; subst.
    rewrite (owned_unused t' a Hu) in Ha. done. }
  assert (Hbelow : forall i a, l !! i = Some a -> owned t a = true ->
                     (EnvEntry.level a < lvl)%Z).
  { intros i a Hi Ha. destruct (Hinv t) as [_ Hr].
    apply (Hr (EnvEntry.level a)). eauto. }
  split.
  - intros i k a b Hi Hk Ha Hb Hlev.
    destruct (lookup_alter_inv _ _ _ _ _ _ Hj Hi) as [[-> ->]|[Hij Hi']];
    destruct (lookup_alter_inv _ _ _ _ _ _ Hj Hk) as [[-> ->]|[Hkj Hk']];
      [done| | |by eapply Hinj].
    + rewrite owned_reserve in Ha. apply Nat.eqb_eq in Ha. subst t'.
      specialize (Hbelow _ _ Hk' Hb). simpl in Hlev. lia.
    + rewrite owned_reserve in Hb. apply Nat.eqb_eq in Hb. subst t'.
      specialize (Hbelow _ _ Hi' Ha). simpl in Hlev. lia.
  - intros z. rewrite (open_blocks_reserve t t' lvl j x l Hj Hu).
    destruct (t =? t') eqn:Ett.
    + apply Nat.eqb_eq in Ett. subst t'. split.
      * intros Hz. destruct (decide (z = lvl)) as [->|Hne].
        -- exists j, (reserve t lvl x). split; [by apply lookup_alter_Some|].
           split; [|done]. rewrite owned_reserve. apply Nat.eqb_refl.
        -- destruct (proj1 (Hrange z)) as (i & a & Hi & Ha & Hl); [lia|].
           exists i, a. split; [|done].
           rewrite list_lookup_alter_ne; [done|].
           intros ->. by eapply Hfresh.
      * intros (i & a & Hi & Ha & Hl).
        destruct (lookup_alter_inv _ _ _ _ _ _ Hj Hi) as [[-> ->]|[Hij Hi']].
        -- simpl in Hl. lia.
        -- assert (0 <= z < Z.of_nat (open_blocks t l))%Z; [|lia].
           apply Hrange. eauto.
    + rewrite Nat.add_0_r. rewrite Hrange. split.
      * intros (i & a & Hi & Ha & Hl). exists i, a. split; [|done].
        rewrite list_lookup_alter_ne; [done|].
        intros ->. by eapply Hfresh.
      * intros (i & a & Hi & Ha & Hl).
        destruct (lookup_alter_inv _ _ _ _ _ _ Hj Hi) as [[-> ->]|[Hij Hi']].
        -- rewrite owned_reserve in Ha. congruence.
        -- eauto.
Qed.

(** The slot with the highest level of a thread holds level (count - 1). *)
Lemma env_inv_top t j x l :
  env_inv l -> l !! j = Some x -> owned t x = true ->
  (forall k y, l !! k = Some y -> owned t y = true ->
               (EnvEntry.level y <= EnvEntry.level x)%Z) ->
  EnvEntry.level x = (Z.of_nat (open_blocks t l) - 1)%Z.
Proof.
  intros Hinv Hj Ho Hmax. destruct (Hinv t) as [_ Hrange].
  assert (0 < open_blocks t l) by (by eapply count_if_pos).
  assert (0 <= EnvEntry.level x < Z.of_nat (open_blocks t l))%Z
    by (apply Hrange; eauto).
  destruct (proj1 (Hrange (Z.of_nat (open_blocks t l) - 1)%Z))
    as (k & y & Hk & Hy & Hl); [lia|].
  specialize (Hmax _ _ Hk Hy). lia.
Qed.

(** Releasing the slot with the highest level of a thread keeps the
    invariant. *)
Lemma env_inv_release t j x l :
  env_inv l -> l !! j = Some x -> owned t x = true ->
  (forall k y, l !! k = Some y -> owned t y = true ->
               (EnvEntry.level y <= EnvEntry.level x)%Z) ->
  env_inv (alter (EnvEntry.set_used false) j l).
Proof.
  intros Hinv Hj Ho Hmax t'. destruct (Hinv t') as [Hinj Hrange].
  pose proof (env_inv_top t j x l Hinv Hj Ho Hmax) as Htop.
  pose proof (open_blocks_release t t' j x l Hj Ho) as Hcount.
  assert (Hkeep : forall i a,
             alter (EnvEntry.set_used false) j l !! i = Some a ->
             owned t' a = true -> i <> j /\ l !! i = Some a).
  { intros i a Hi Ha.
    destruct (lookup_alter_inv _ _ _ _ _ _ Hj Hi) as [[-> ->]|[Hij Hi']];
      [done|by split]. }
  split.
  - intros i k a b Hi Hk Ha Hb Hlev.
    destruct (Hkeep _ _ Hi Ha) as [_ Hi'], (Hkeep _ _ Hk Hb) as [_ Hk'].
    by eapply Hinj.
  - intros z. split.
    + intros Hz. destruct (proj1 (Hrange z)) as (i & a & Hi & Ha & Hl).
      { destruct (t =? t'); lia. }
      exists i, a. split; [|done]. rewrite list_lookup_alter_ne; [done|].
      intros ->. rewrite Hj in Hi. inversion Hi; subst a.
      destruct (owned_true _ _ Ho) as [_ Ht], (owned_true _ _ Ha) as [_ Ht'].
      destruct (Nat.eqb_spec t t') as [E|E]; [|congruence].
      rewrite <- E in *. lia.
    + intros (i & a & Hi & Ha & Hl).
      destruct (Hkeep _ _ Hi Ha) as [Hij Hi'].
      assert (Hz : (0 <= z < Z.of_nat (open_blocks t' l))%Z)
        by (apply Hrange; eauto).
      destruct (t =? t') eqn:Ett; [|lia].
      apply Nat.eqb_eq in Ett. subst t'.
      assert (z <> EnvEntry.level x); [|lia].
      intros ->. apply Hij. by eapply Hinj.
Qed.

Lemma env_inv_set_env ctx j l :
  env_inv l -> env_inv (alter (EnvEntry.set_env ctx) j l).
Proof.
  intros Hinv. destruct (l !! j) as [x|] eqn:Hj.
  2:{ replace (alter (EnvEntry.set_env ctx) j l) with l; [done|].
      apply list_eq. intros i. rewrite list_lookup_alter.
      case_decide; [subst; by rewrite Hj|done]. }
  set (l' := alter (EnvEntry.set_env ctx) j l).
  intros t'. destruct (Hinv t') as [Hinj Hrange].
  assert (Hsame : forall i a, l' !! i = Some a ->
            exists b, l !! i = Some b /\ owned t' b = owned t' a /\
                      EnvEntry.level b = EnvEntry.level a).
  { intros i a Hi.
    destruct (lookup_alter_inv _ _ _ _ _ _ Hj Hi) as [[-> ->]|[Hij Hi']];
      eauto. }
  assert (Hsame' : forall i b, l !! i = Some b ->
            exists a, l' !! i = Some a /\ owned t' b = owned t' a /\
                      EnvEntry.level b = EnvEntry.level a).
  { intros i b Hi. destruct (decide (i = j)) as [->|Hne].
    - exists (EnvEntry.set_env ctx b). split; [by apply lookup_alter_Some|done].
    - exists b. unfold l'. by rewrite list_lookup_alter_ne. }
  assert (Hc : open_blocks t' l' = open_blocks t' l).
  { unfold open_blocks, l'.
    pose proof (count_if_alter (owned t') (EnvEntry.set_env ctx) l j x Hj) as H.
    change (owned t' (EnvEntry.set_env ctx x)) with (owned t' x) in H. lia. }
  split.
  - intros i k a b Hi Hk Ha Hb Hlev.
    destruct (Hsame _ _ Hi) as (a' & Hi' & Hoa & Hla).
    destruct (Hsame _ _ Hk) as (b' & Hk' & Hob & Hlb).
    eapply Hinj; eauto; congruence.
  - intros z. rewrite Hc, Hrange. split.
    + intros (i & b & Hi & Hb & Hl).
      destruct (Hsame' _ _ Hi) as (a & Hi' & Hoa & Hla).
      exists i, a. repeat split; congruence.
    + intros (i & a & Hi & Ha & Hl).
      destruct (Hsame _ _ Hi) as (b & Hi' & Hob & Hlb).
      exists i, b. repeat split; congruence.
Qed.

(** ** The exception pool: what each function computes *)

Lemma getExceptionEntry_run e s :
  getExceptionEntry e s = Ok (getExceptionEntry_loop (exceptionList s) 0 e) s.
Proof. reflexivity. Qed.

Lemma getExceptionEntry_pool i x s :
  exceptionList s !! i = Some x -> getExceptionEntry (Some i) s = Ok (Some i) s.
Proof.
  intros H. rewrite getExceptionEntry_run.
  by rewrite (getExceptionEntry_loop_pool _ _ _ H).
Qed.

Lemma getExceptionEntry_outside i s :
  exceptionList s !! i = None -> getExceptionEntry (Some i) s = Ok None s.
Proof.
  intros H. rewrite getExceptionEntry_run, getExceptionEntry_loop_spec.
  apply lookup_ge_None in H. rewrite bool_decide_eq_false_2; [done|lia].
Qed.

Lemma getExceptionEntry_null s : getExceptionEntry None s = Ok None s.
Proof. by rewrite getExceptionEntry_run, getExceptionEntry_loop_spec. Qed.

Lemma assert_cause_run cause s :
  assert_cause cause s
  = match cause with
    | None => Ok tt s
    | Some c =>
      match exceptionList s !! c with
      | Some x => if at_rest x then Ok tt s else Violation s
      | None => Undefined
      end
    end.
Proof.
  destruct cause as [c|]; [|done]. unfold assert_cause.
  destruct (exceptionList s !! c) as [x|] eqn:Hc.
  - unfold at_rest.
    rewrite (bind_run _ _ _ _ _ (getExceptionEntry_pool _ _ _ Hc)).
    rewrite (bind_run _ _ _ _ _ (readExc_run _ _ _ Hc)).
    destruct (ExceptionEntry.used x); [|done]. unfold bind at 1. simpl.
    rewrite (bind_run _ _ _ _ _ (getExceptionEntry_pool _ _ _ Hc)).
    rewrite (bind_run _ _ _ _ _ (readExc_run _ _ _ Hc)).
    destruct (ExceptionEntry.cause x); [done|]. unfold bind at 1. simpl.
    rewrite (bind_run _ _ _ _ _ (getExceptionEntry_pool _ _ _ Hc)).
    rewrite (bind_run _ _ _ _ _ (readExc_run _ _ _ Hc)).
    by destruct (ExceptionEntry.thrown x).
  - by rewrite (bind_run _ _ _ _ _ (getExceptionEntry_outside _ _ Hc)).
Qed.

Lemma allocExceptionEntry_run s :
  allocExceptionEntry s
  = match find_index unused_exc (exceptionList s) 0 with
    | Some n =>
      Ok (Some n) (mkState (envList s) (alter allocated n (exceptionList s)))
    | None => Ok None s
    end.
Proof.
  unfold allocExceptionEntry. rewrite allocExceptionEntry_loop_find.
  fold unused_exc.
  destruct (find_index unused_exc (exceptionList s) 0) as [n|] eqn:E; [|done].
  apply find_index_Some in E as (k & x & -> & Hk & _). simpl.
  erewrite bind_run by (by eapply writeExc_run).
  erewrite bind_run by (eapply writeExc_run; simpl; by eapply lookup_alter_Some).
  simpl. unfold ret. by rewrite list_alter_alter_eq.
Qed.

Lemma mark_cause_run cause s :
  mark_cause cause s
  = match cause with
    | None => Ok tt s
    | Some c =>
      match exceptionList s !! c with
      | Some _ => Ok tt (mkState (envList s) (marked cause (exceptionList s)))
      | None => Undefined
      end
    end.
Proof.
  destruct cause as [c|]; [|done]. unfold mark_cause.
  destruct (exceptionList s !! c) as [x|] eqn:Hc.
  - rewrite (bind_run _ _ _ _ _ (getExceptionEntry_pool _ _ _ Hc)).
    by rewrite (writeExc_run _ _ _ _ Hc).
  - by rewrite (bind_run _ _ _ _ _ (getExceptionEntry_outside _ _ Hc)).
Qed.

Section Fill.
Context {Template Args : Type} (vformat : Template -> Args -> list byte).

Lemma fill_exception_run entry code cause msg args s :
  fill_exception vformat entry code cause msg args s
  = match entry with
    | None => Undefined
    | Some n =>
      match exceptionList s !! n with
      | None => Undefined
      | Some x =>
        match vsnprintf (Exception.msg (ExceptionEntry.exception x))
                        MAX_MSG_LEN (vformat msg args) with
        | Some m =>
          Ok tt (mkState (envList s)
                         (alter (filled code m cause) n (exceptionList s)))
        | None => Undefined
        end
      end
    end.
Proof.
  unfold fill_exception. destruct entry as [n|]; [|done].
  destruct (exceptionList s !! n) as [x|] eqn:Hn; [|unfold bind, writeExc; by rewrite Hn].
  erewrite bind_run by (by eapply writeExc_run).
  erewrite bind_run by (eapply writeExc_run; simpl; by eapply lookup_alter_Some).
  erewrite bind_run
    by (eapply readExc_run; simpl;
        eapply lookup_alter_Some; by eapply lookup_alter_Some).
  cbn [ExceptionEntry.exception ExceptionEntry.set_exception Exception.msg
       Exception.set_cause Exception.set_code].
  destruct (vsnprintf _ _ _) as [m|]; [|done].
  erewrite writeExc_run
    by (simpl; eapply lookup_alter_Some; by eapply lookup_alter_Some).
  cbn [envList exceptionList]. rewrite !list_alter_alter_eq.
  reflexivity.
Qed.

End Fill.

Lemma at_rest_used x : at_rest x = true -> ExceptionEntry.used x = true.
Proof. unfold at_rest. by intros [[H _]%andb_true_iff _]%andb_true_iff. Qed.

Lemma at_rest_true x :
  at_rest x = true <->
  ExceptionEntry.used x = true /\ ExceptionEntry.cause x = false /\
  ExceptionEntry.thrown x = false.
Proof.
  unfold at_rest.
  destruct (ExceptionEntry.used x), (ExceptionEntry.cause x),
    (ExceptionEntry.thrown x); simpl; intuition congruence.
Qed.

Lemma unused_exc_true x : unused_exc x = true <-> ExceptionEntry.used x = false.
Proof. unfold unused_exc. by destruct (ExceptionEntry.used x). Qed.

Lemma lookup_marked_ne cause l k :
  cause <> Some k -> marked cause l !! k = l !! k.
Proof.
  destruct cause as [c|]; [|done]. intros H. simpl.
  apply list_lookup_alter_ne. congruence.
Qed.

Lemma lookup_marked_eq l c :
  marked (Some c) l !! c = ExceptionEntry.set_cause true <$> l !! c.
Proof. apply list_lookup_alter_eq. Qed.

Lemma length_marked cause l : length (marked cause l) = length l.
Proof. destruct cause; [apply length_alter|done]. Qed.

Section Construct.
Context {Template Args : Type} (vformat : Template -> Args -> list byte).

Lemma mark_fill_run {B} lift code cause msg args s n x (K : M B) :
  (forall y, ExceptionEntry.exception (lift y) = ExceptionEntry.exception y) ->
  assert_cause cause s = Ok tt s ->
  exceptionList s !! n = Some x -> unused_exc x = true ->
  (do mark_cause cause then
   do fill_exception vformat (Some n) code cause msg args then K)
    (mkState (envList s) (alter lift n (exceptionList s)))
  = match vsnprintf (Exception.msg (ExceptionEntry.exception x))
                    MAX_MSG_LEN (vformat msg args) with
    | Some m =>
      K (mkState (envList s) (built lift code m cause n (exceptionList s)))
    | None => Undefined
    end.
Proof.
  intros Hlift Hassert Hn Hx. rewrite assert_cause_run in Hassert.
  assert (Hne : cause <> Some n).
  { intros ->. rewrite Hn in Hassert.
    destruct (at_rest x) eqn:E; [|done].
    apply at_rest_used in E. apply unused_exc_true in Hx. congruence. }
  assert (Hm : mark_cause cause
                 (mkState (envList s) (alter lift n (exceptionList s)))
               = Ok tt (mkState (envList s)
                          (marked cause (alter lift n (exceptionList s))))).
  { rewrite mark_cause_run. destruct cause as [c|]; [|done]. simpl.
    rewrite list_lookup_alter_ne by congruence.
    destruct (exceptionList s !! c); [done|done]. }
  rewrite (bind_run _ _ _ _ _ Hm). unfold bind at 1.
  rewrite fill_exception_run. cbn [envList exceptionList].
  rewrite lookup_marked_ne by done.
  rewrite (lookup_alter_Some lift _ _ _ Hn), Hlift.
  by destruct (vsnprintf _ _ _).
Qed.

Lemma exAlloc_run code cause msg args s :
  exAlloc vformat code cause msg args s
  = construct vformat allocated code cause msg args
      (fun n s' => Ok (Some n) s') s.
Proof.
  unfold exAlloc, construct. unfold bind at 1.
  destruct (assert_cause cause s) as [[] s0| | |] eqn:Ha; try done.
  assert (s0 = s) as ->.
  { rewrite assert_cause_run in Ha. destruct cause as [c|]; [|congruence].
    destruct (exceptionList s !! c) as [x|]; [|done].
    destruct (at_rest x); congruence. }
  unfold bind at 1. rewrite allocExceptionEntry_run.
  destruct (find_index unused_exc (exceptionList s) 0) as [n|] eqn:E.
  - apply find_index_Some in E as (k & x & -> & Hk & Hx & _).
    rewrite Nat.add_0_l, Hk.
    by rewrite (mark_fill_run allocated code cause msg args s k x).
  - unfold bind. rewrite mark_cause_run. destruct cause as [c|]; [|done].
    destruct (exceptionList s !! c); done.
Qed.

Lemma exThrow_run t code cause msg args s :
  exThrow vformat t code cause msg args s
  = construct vformat (fun x => launched t (allocated x)) code cause msg args
      (fun n s' =>
         match last_slot t (envList s) with
         | Some j => Ok j s'
         | None => Undefined
         end) s.
Proof.
  unfold exThrow, construct. unfold bind at 1.
  destruct (assert_cause cause s) as [[] s0| | |] eqn:Ha; try done.
  assert (s0 = s) as ->.
  { rewrite assert_cause_run in Ha. destruct cause as [c|]; [|congruence].
    destruct (exceptionList s !! c) as [x|]; [|done].
    destruct (at_rest x); congruence. }
  unfold bind at 1. rewrite allocExceptionEntry_run.
  destruct (find_index unused_exc (exceptionList s) 0) as [n|] eqn:E; [|done].
  apply find_index_Some in E as (k & x & -> & Hk & Hx & _).
  rewrite Nat.add_0_l, Hk.
  erewrite bind_run
    by (eapply writeExc_run; cbn [exceptionList]; by eapply lookup_alter_Some).
  erewrite bind_run
    by (eapply writeExc_run; cbn [exceptionList];
        eapply lookup_alter_Some; by eapply lookup_alter_Some).
  erewrite bind_run by apply getLastEnvEntry_run.
  cbn [envList exceptionList]. rewrite !list_alter_alter_eq.
  change (ExceptionEntry.set_thread t ∘ ExceptionEntry.set_thrown true
          ∘ allocated) with (fun x => launched t (allocated x)).
  rewrite (mark_fill_run (fun x => launched t (allocated x))
             code cause msg args s k x); try done.
  destruct (vsnprintf _ _ _); [|done].
  by destruct (last_slot t (envList s)).
Qed.

End Construct.

Lemma exRepeat_run t e s :
  exRepeat t e s
  = match e with
    | None => Undefined
    | Some i =>
      match exceptionList s !! i with
      | None => Undefined
      | Some x =>
        if ExceptionEntry.used x && negb (ExceptionEntry.thrown x) then
          match last_slot t (envList s) with
          | Some j =>
            Ok j (mkState (envList s) (alter (launched t) i (exceptionList s)))
          | None => Undefined
          end
        else Violation s
      end
    end.
Proof.
  unfold exRepeat.
  destruct e as [i|]; [|by rewrite (bind_run _ _ _ _ _ (getExceptionEntry_null s))].
  destruct (exceptionList s !! i) as [x|] eqn:Hi.
  - rewrite (bind_run _ _ _ _ _ (getExceptionEntry_pool _ _ _ Hi)).
    rewrite (bind_run _ _ _ _ _ (readExc_run _ _ _ Hi)).
    destruct (ExceptionEntry.used x); [|done].
    unfold bind at 1. cbv beta iota delta [assert_ negb andb].
    rewrite (bind_run _ _ _ _ _ (readExc_run _ _ _ Hi)).
    destruct (ExceptionEntry.thrown x); [done|].
    unfold bind at 1. cbv beta iota delta [assert_ negb andb].
    erewrite bind_run by (by eapply writeExc_run).
    erewrite bind_run
      by (eapply writeExc_run; cbn [exceptionList]; by eapply lookup_alter_Some).
    erewrite bind_run by apply getLastEnvEntry_run.
    cbn [envList exceptionList]. rewrite list_alter_alter_eq.
    by destruct (last_slot t (envList s)).
  - by rewrite (bind_run _ _ _ _ _ (getExceptionEntry_outside _ _ Hi)).
Qed.

Lemma exFree_run fuel e s :
  exFree fuel e s
  = match e with
    | None => Undefined
    | Some i =>
      match exceptionList s !! i with
      | None => Undefined
      | Some x => if at_rest x then exFree_loop fuel e s else Violation s
      end
    end.
Proof.
  unfold exFree.
  destruct e as [i|]; [|by rewrite (bind_run _ _ _ _ _ (getExceptionEntry_null s))].
  destruct (exceptionList s !! i) as [x|] eqn:Hi.
  - unfold at_rest.
    rewrite (bind_run _ _ _ _ _ (getExceptionEntry_pool _ _ _ Hi)).
    rewrite (bind_run _ _ _ _ _ (readExc_run _ _ _ Hi)).
    destruct (ExceptionEntry.used x); [|done]. unfold bind at 1. simpl.
    rewrite (bind_run _ _ _ _ _ (getExceptionEntry_pool _ _ _ Hi)).
    rewrite (bind_run _ _ _ _ _ (readExc_run _ _ _ Hi)).
    destruct (ExceptionEntry.cause x); [done|]. unfold bind at 1. simpl.
    rewrite (bind_run _ _ _ _ _ (getExceptionEntry_pool _ _ _ Hi)).
    rewrite (bind_run _ _ _ _ _ (readExc_run _ _ _ Hi)).
    by destruct (ExceptionEntry.thrown x).
  - by rewrite (bind_run _ _ _ _ _ (getExceptionEntry_outside _ _ Hi)).
Qed.

(** ** Cause chains *)

Lemma cause_chain_det l e ch1 ch2 :
  cause_chain l e ch1 -> cause_chain l e ch2 -> ch1 = ch2.
Proof.
  intros H. revert ch2. induction H as [|i x ch Hi _ IH]; intros ch2 H2.
  - by inversion H2.
  - inversion H2 as [|i' x' ch' Hi' Hch']; subst.
    rewrite Hi in Hi'. inversion Hi'; subst. f_equal. by apply IH.
Qed.

(** A chain only reads the cause references of the records on it. *)
Lemma cause_chain_agree l l' e ch :
  (forall k x, k ∈ ch -> l !! k = Some x ->
     exists x', l' !! k = Some x' /\
       Exception.cause (ExceptionEntry.exception x')
       = Exception.cause (ExceptionEntry.exception x)) ->
  cause_chain l e ch -> cause_chain l' e ch.
Proof.
  intros Hag H. induction H as [|i x ch Hi _ IH]; [constructor|].
  destruct (Hag i x) as (x' & Hi' & Hc); [left|done|].
  econstructor; [exact Hi'|]. rewrite Hc. apply IH.
  intros k y Hk. apply Hag. by right.
Qed.

Lemma cause_chain_suffix l e ch k :
  cause_chain l e ch -> k ∈ ch ->
  exists ch', cause_chain l (Some k) ch' /\ ch' `suffix_of` ch.
Proof.
  intros H. induction H as [|i x ch Hi Hch IH]; intros Hk.
  - by apply elem_of_nil in Hk.
  - apply elem_of_cons in Hk as [->|Hk].
    + exists (i :: ch). split; [by econstructor|done].
    + destruct (IH Hk) as (ch' & Hc & Hs). exists ch'. split; [done|].
      by apply suffix_cons_r.
Qed.

Lemma cause_chain_NoDup l e ch : cause_chain l e ch -> NoDup ch.
Proof.
  intros H. induction H as [|i x ch Hi Hch IH]; [constructor|].
  apply NoDup_cons. split; [|done]. intros Hin.
  destruct (cause_chain_suffix _ _ _ _ Hch Hin) as (ch' & Hc & Hs).
  assert (ch' = i :: ch)
    by (eapply cause_chain_det; [exact Hc|by econstructor]).
  subst ch'. by apply suffix_cons_not in Hs.
Qed.

(** Every record on a chain but the first is the cause of the one before. *)
Lemma cause_chain_pred l i ch d :
  cause_chain l (Some i) ch -> d ∈ ch ->
  d = i \/ exists p y, p ∈ ch /\ l !! p = Some y /\
                     Exception.cause (ExceptionEntry.exception y) = Some d.
Proof.
  intros H. remember (Some i) as e eqn:He. revert i He.
  induction H as [|i x ch Hi Hch IH]; intros i0 He Hd; [done|].
  inversion He; subst i0. apply elem_of_cons in Hd as [->|Hd]; [by left|].
  right. destruct (Exception.cause (ExceptionEntry.exception x)) as [c|] eqn:Hc.
  - destruct (IH c eq_refl Hd) as [->|(p & y & Hp & Hy & Hpd)].
    + exists i, x. split; [left|done].
    + exists p, y. split; [by right|done].
  - inversion Hch; subst. by apply elem_of_nil in Hd.
Qed.

Lemma lookup_released ch l k :
  released ch l !! k
  = if bool_decide (k ∈ ch) then ExceptionEntry.set_used false <$> l !! k
    else l !! k.
Proof.
  unfold released. revert l. induction ch as [|i ch IH]; intros l; cbn [foldl].
  - rewrite bool_decide_eq_false_2; [done|]. apply not_elem_of_nil.
  - rewrite IH. rewrite list_lookup_alter.
    destruct (decide (i = k)) as [->|Hne].
    + rewrite (bool_decide_eq_true_2 (k ∈ k :: ch)) by left.
      case_bool_decide; [|done].
      by destruct (l !! k).
    + case_bool_decide as Hin.
      * rewrite bool_decide_eq_true_2; [done|by right].
      * rewrite bool_decide_eq_false_2; [done|].
        intros [?|?]%elem_of_cons; congruence.
Qed.

Lemma length_released ch l : length (released ch l) = length l.
Proof.
  unfold released. revert l. induction ch as [|i ch IH]; intros l; simpl;
    [done|]. by rewrite IH, length_alter.
Qed.

(** With enough fuel the loop of [exFree] visits the whole chain. *)
Lemma exFree_loop_run ch fuel e s :
  cause_chain (exceptionList s) e ch -> length ch <= fuel ->
  exFree_loop fuel e s
  = Ok tt (mkState (envList s) (released ch (exceptionList s))).
Proof.
  revert fuel e s. induction ch as [|i ch IH]; intros fuel e s Hch Hfuel.
  - inversion Hch; subst. destruct fuel; by destruct s.
  - inversion Hch as [|i' x ch' Hi Hrest]; subst.
    destruct fuel as [|fuel]; [simpl in Hfuel; lia|].
    cbn [exFree_loop].
    rewrite (bind_run _ _ _ _ _ (getExceptionEntry_pool _ _ _ Hi)).
    erewrite bind_run by (by eapply writeExc_run).
    erewrite bind_run
      by (eapply readExc_run; cbn [exceptionList]; by eapply lookup_alter_Some).
    cbn [ExceptionEntry.exception ExceptionEntry.set_used].
    rewrite (IH fuel); [done| |simpl in Hfuel; lia].
    cbn [exceptionList]. eapply cause_chain_agree; [|exact Hrest].
    intros k y _ Hk. destruct (decide (k = i)) as [->|Hne].
    + rewrite (lookup_alter_Some _ _ _ _ Hk). eauto.
    + rewrite list_lookup_alter_ne by done. eauto.
Qed.

(** Without enough fuel it does not return. *)
Lemma exFree_loop_short ch fuel e s :
  cause_chain (exceptionList s) e ch -> fuel < length ch ->
  exFree_loop fuel e s = OutOfFuel.
Proof.
  revert fuel e s. induction ch as [|i ch IH]; intros fuel e s Hch Hfuel.
  - simpl in Hfuel. lia.
  - inversion Hch as [|i' x ch' Hi Hrest]; subst.
    destruct fuel as [|fuel]; [done|].
    cbn [exFree_loop].
    rewrite (bind_run _ _ _ _ _ (getExceptionEntry_pool _ _ _ Hi)).
    erewrite bind_run by (by eapply writeExc_run).
    erewrite bind_run
      by (eapply readExc_run; cbn [exceptionList]; by eapply lookup_alter_Some).
    cbn [ExceptionEntry.exception ExceptionEntry.set_used].
    apply IH; [|simpl in Hfuel; lia].
    cbn [exceptionList]. eapply cause_chain_agree; [|exact Hrest].
    intros k y _ Hk. destruct (decide (k = i)) as [->|Hne].
    + rewrite (lookup_alter_Some _ _ _ _ Hk). eauto.
    + rewrite list_lookup_alter_ne by done. eauto.
Qed.

(** ** The invariant of the exception pool *)

Lemma points_to_true c x :
  points_to c x = true <->
  ExceptionEntry.used x = true /\
  Exception.cause (ExceptionEntry.exception x) = Some c.
Proof.
  unfold points_to. rewrite andb_true_iff, bool_decide_eq_true. done.
Qed.

Lemma cause_chain_used l e ch :
  (forall i x c, l !! i = Some x -> ExceptionEntry.used x = true ->
     Exception.cause (ExceptionEntry.exception x) = Some c ->
     exists y, l !! c = Some y /\ ExceptionEntry.used y = true /\
               ExceptionEntry.cause y = true) ->
  cause_chain l e ch ->
  (forall i, e = Some i ->
     exists x, l !! i = Some x /\ ExceptionEntry.used x = true) ->
  forall k, k ∈ ch -> exists y, l !! k = Some y /\ ExceptionEntry.used y = true.
Proof.
  intros Ha H. induction H as [|i x ch Hi Hch IH]; intros He k Hk.
  - by apply elem_of_nil in Hk.
  - destruct (He i eq_refl) as (x' & Hi' & Hu).
    rewrite Hi in Hi'. inversion Hi'; subst x'.
    apply elem_of_cons in Hk as [->|Hk]; [eauto|].
    apply IH; [|done]. intros c Hc.
    destruct (Ha i x c Hi Hu Hc) as (y & Hy & Hyu & _). eauto.
Qed.

(** Changes that leave [used], the record and the [cause] bit of every slot
    as they are keep the invariant. *)
Lemma exc_inv_transfer l l' :
  (forall k y, l' !! k = Some y ->
     exists x, l !! k = Some x /\
       ExceptionEntry.used x = ExceptionEntry.used y /\
       ExceptionEntry.exception x = ExceptionEntry.exception y /\
       ExceptionEntry.cause x = ExceptionEntry.cause y) ->
  (forall k x, l !! k = Some x ->
     exists y, l' !! k = Some y /\
       ExceptionEntry.used x = ExceptionEntry.used y /\
       ExceptionEntry.exception x = ExceptionEntry.exception y /\
       ExceptionEntry.cause x = ExceptionEntry.cause y) ->
  exc_inv l -> exc_inv l'.
Proof.
  intros Hback Hfwd (Ha & Hb & Hc). split; [|split].
  - intros i y c Hi Hu Hp.
    destruct (Hback _ _ Hi) as (x & Hx & Eu & Ee & Ec).
    destruct (Ha i x c Hx) as (z & Hz & Hzu & Hzc); [congruence|congruence|].
    destruct (Hfwd _ _ Hz) as (z' & Hz' & Eu' & Ee' & Ec').
    exists z'. repeat split; congruence.
  - intros i j y1 y2 c Hi Hj H1 H2.
    destruct (Hback _ _ Hi) as (x1 & Hx1 & Eu1 & Ee1 & _).
    destruct (Hback _ _ Hj) as (x2 & Hx2 & Eu2 & Ee2 & _).
    apply (Hb i j x1 x2 c Hx1 Hx2).
    + apply points_to_true. apply points_to_true in H1. by rewrite Eu1, Ee1.
    + apply points_to_true. apply points_to_true in H2. by rewrite Eu2, Ee2.
  - intros i y Hi Hu.
    destruct (Hback _ _ Hi) as (x & Hx & Eu & _).
    destruct (Hc i x Hx) as [ch Hch]; [congruence|].
    exists ch. eapply cause_chain_agree; [|exact Hch].
    intros k z _ Hz. destruct (Hfwd _ _ Hz) as (z' & Hz' & _ & Ee & _).
    exists z'. by rewrite Ee.
Qed.

Lemma exc_inv_alter_flags f i l :
  (forall x, ExceptionEntry.used (f x) = ExceptionEntry.used x /\
             ExceptionEntry.exception (f x) = ExceptionEntry.exception x /\
             ExceptionEntry.cause (f x) = ExceptionEntry.cause x) ->
  exc_inv l -> exc_inv (alter f i l).
Proof.
  intros Hf. apply exc_inv_transfer.
  - intros k y Hk. destruct (l !! i) as [x|] eqn:Hi.
    + destruct (lookup_alter_inv _ _ _ _ _ _ Hi Hk) as [[-> ->]|[Hne Hk']].
      * exists x. destruct (Hf x) as (? & ? & ?). by repeat split.
      * eauto.
    + rewrite list_lookup_alter in Hk. case_decide.
      * subst. rewrite Hi in Hk. done.
      * eauto.
  - intros k x Hk. destruct (decide (k = i)) as [->|Hne].
    + exists (f x). rewrite (lookup_alter_Some _ _ _ _ Hk).
      destruct (Hf x) as (? & ? & ?). by repeat split.
    + exists x. by rewrite list_lookup_alter_ne.
Qed.

(** Construction of a record in an unused slot keeps the invariant. *)
Lemma exc_inv_built lift code m cause n x l :
  (forall y, ExceptionEntry.used (lift y) = true) ->
  exc_inv l ->
  l !! n = Some x -> ExceptionEntry.used x = false ->
  (forall c, cause = Some c ->
     exists y, l !! c = Some y /\ at_rest y = true) ->
  exc_inv (alter (filled code m cause) n (marked cause (alter lift n l))).
Proof.
  intros Hlift (Ha & Hb & Hc) Hn Hu Hcause.
  set (l' := alter (filled code m cause) n (marked cause (alter lift n l))).
  assert (Hne : cause <> Some n).
  { intros E. destruct (Hcause n E) as (y & Hy & Hr).
    apply at_rest_used in Hr. congruence. }
  assert (Hnew : l' !! n = Some (filled code m cause (lift x))).
  { unfold l'. apply lookup_alter_Some. rewrite lookup_marked_ne by done.
    by apply lookup_alter_Some. }
  assert (Hold : forall k, k <> n -> l' !! k = marked cause l !! k).
  { intros k Hk. unfold l'. rewrite list_lookup_alter_ne by done.
    destruct cause as [c|]; simpl.
    - destruct (decide (c = k)) as [->|Hck].
      + rewrite !list_lookup_alter_eq. by rewrite list_lookup_alter_ne.
      + rewrite !(list_lookup_alter_ne _ _ c k) by done.
        by rewrite list_lookup_alter_ne.
    - by rewrite list_lookup_alter_ne. }
  assert (Hback : forall k y, k <> n -> l' !! k = Some y ->
            exists z, l !! k = Some z /\
              ExceptionEntry.used z = ExceptionEntry.used y /\
              ExceptionEntry.exception z = ExceptionEntry.exception y /\
              (ExceptionEntry.cause z = true -> ExceptionEntry.cause y = true)).
  { intros k y Hk Hy. rewrite (Hold k Hk) in Hy.
    destruct (decide (cause = Some k)) as [->|Hck].
    - rewrite lookup_marked_eq in Hy.
      destruct (l !! k) as [z|]; [|done]. inversion Hy; subst. eauto.
    - rewrite lookup_marked_ne in Hy by done. eauto. }
  assert (Hfwd : forall k z, k <> n -> l !! k = Some z ->
            exists y, l' !! k = Some y /\
              ExceptionEntry.used z = ExceptionEntry.used y /\
              ExceptionEntry.exception z = ExceptionEntry.exception y /\
              (ExceptionEntry.cause z = true \/ cause = Some k ->
               ExceptionEntry.cause y = true)).
  { intros k z Hk Hz. rewrite (Hold k Hk).
    destruct (decide (cause = Some k)) as [->|Hck].
    - rewrite lookup_marked_eq, Hz. eexists. split; [done|]. simpl. tauto.
    - rewrite lookup_marked_ne by done. exists z. split; [done|]. tauto. }
  assert (Hfresh : forall k z, l !! k = Some z ->
            ExceptionEntry.used z = true -> k <> n).
  { intros k z Hz Hzu ->. congruence. }
  split; [|split].
  - intros i y c Hi Hyu Hp. destruct (decide (i = n)) as [->|Hin].
    + rewrite Hnew in Hi. inversion Hi; subst y. simpl in Hp.
      destruct (Hcause c Hp) as (z & Hz & Hr).
      pose proof (at_rest_used _ Hr) as Hzu.
      destruct (Hfwd c z (Hfresh _ _ Hz Hzu) Hz) as (y & Hy & Eu & _ & Ec).
      exists y. repeat split; [done|congruence|]. apply Ec. by right.
    + destruct (Hback i y Hin Hi) as (z & Hz & Eu & Ee & _).
      destruct (Ha i z c Hz) as (w & Hw & Hwu & Hwc); [congruence|congruence|].
      destruct (Hfwd c w (Hfresh _ _ Hw Hwu) Hw) as (y' & Hy' & Eu' & _ & Ec').
      exists y'. repeat split; [done|congruence|]. apply Ec'. by left.
  - assert (Hclash : forall j y c, j <> n -> l' !! j = Some y ->
              points_to c y = true -> cause = Some c -> False).
    { intros j y c Hjn Hj Hp Hcc.
      destruct (Hback j y Hjn Hj) as (z & Hz & Eu & Ee & _).
      apply points_to_true in Hp as [Hyu Hyc].
      destruct (Ha j z c Hz) as (w & Hw & _ & Hwc); [congruence|congruence|].
      destruct (Hcause c Hcc) as (w' & Hw' & Hr).
      rewrite Hw in Hw'. inversion Hw'; subst w'.
      apply at_rest_true in Hr. destruct Hr as (_ & Hr & _). congruence. }
    intros i j y1 y2 c Hi Hj H1 H2.
    destruct (decide (i = n)) as [->|Hin], (decide (j = n)) as [->|Hjn];
      [done| | |].
    + exfalso. rewrite Hnew in Hi. inversion Hi; subst y1.
      apply points_to_true in H1 as [_ H1]. simpl in H1. by eapply Hclash.
    + exfalso. rewrite Hnew in Hj. inversion Hj; subst y2.
      apply points_to_true in H2 as [_ H2]. simpl in H2. by eapply Hclash.
    + destruct (Hback i y1 Hin Hi) as (z1 & Hz1 & Eu1 & Ee1 & _).
      destruct (Hback j y2 Hjn Hj) as (z2 & Hz2 & Eu2 & Ee2 & _).
      apply (Hb i j z1 z2 c Hz1 Hz2).
      * apply points_to_true. apply points_to_true in H1. by rewrite Eu1, Ee1.
      * apply points_to_true. apply points_to_true in H2. by rewrite Eu2, Ee2.
  - assert (Hkeep : forall e ch, cause_chain l e ch ->
              (forall i, e = Some i ->
                 exists z, l !! i = Some z /\ ExceptionEntry.used z = true) ->
              cause_chain l' e ch).
    { intros e ch Hch He. eapply cause_chain_agree; [|exact Hch].
      intros k z Hk Hz.
      destruct (cause_chain_used l e ch Ha Hch He k Hk) as (z' & Hz' & Hzu).
      destruct (Hfwd k z (Hfresh _ _ Hz' Hzu) Hz) as (y & Hy & _ & Ee & _).
      exists y. by rewrite Ee. }
    intros i y Hi Hyu. destruct (decide (i = n)) as [->|Hin].
    + destruct cause as [c|] eqn:Ecause.
      * destruct (Hcause c eq_refl) as (z & Hz & Hr).
        pose proof (at_rest_used _ Hr) as Hzu.
        destruct (Hc c z Hz Hzu) as [ch Hch].
        exists (n :: ch). econstructor; [exact Hnew|]. simpl.
        apply Hkeep; [done|]. intros ? [= <-]. eauto.
      * exists [n]. econstructor; [exact Hnew|]. simpl. constructor.
    + destruct (Hback i y Hin Hi) as (z & Hz & Eu & _).
      destruct (Hc i z Hz) as [ch Hch]; [congruence|].
      exists ch. apply Hkeep; [done|]. intros ? [= <-].
      exists z. split; [done|congruence].
Qed.

(** Freeing the chain of a record at rest keeps the invariant. *)
Lemma exc_inv_released l i x ch :
  exc_inv l -> l !! i = Some x -> at_rest x = true ->
  cause_chain l (Some i) ch ->
  exc_inv (released ch l).
Proof.
  intros (Ha & Hb & Hc) Hi Hr Hch.
  apply at_rest_true in Hr as (Hxu & Hxc & _).
  assert (Hused : forall k, k ∈ ch ->
            exists y, l !! k = Some y /\ ExceptionEntry.used y = true).
  { apply (cause_chain_used l (Some i) ch Ha Hch). intros ? [= <-]. eauto. }
  assert (Hback : forall k y, released ch l !! k = Some y ->
            ExceptionEntry.used y = true ->
            (k ∉ ch) /\ l !! k = Some y).
  { intros k y Hk Hyu. rewrite lookup_released in Hk.
    case_bool_decide; [|done].
    destruct (l !! k); inversion Hk; subst. done. }
  assert (Hout : forall k y c, k ∉ ch -> l !! k = Some y ->
            ExceptionEntry.used y = true ->
            Exception.cause (ExceptionEntry.exception y) = Some c -> c ∉ ch).
  { intros k y c Hk Hy Hyu Hyc Hin.
    destruct (cause_chain_pred l i ch c Hch Hin) as [->|(p & z & Hp & Hz & Hzc)].
    - destruct (Ha k y i Hy Hyu Hyc) as (w & Hw & _ & Hwc). congruence.
    - destruct (Hused p Hp) as (z' & Hz' & Hzu). rewrite Hz in Hz'.
      inversion Hz'; subst z'.
      assert (k = p); [|congruence].
      apply (Hb k p y z c Hy Hz); by apply points_to_true. }
  split; [|split].
  - intros k y c Hk Hyu Hyc. destruct (Hback k y Hk Hyu) as [Hnin Hk'].
    destruct (Ha k y c Hk' Hyu Hyc) as (w & Hw & Hwu & Hwc).
    exists w. rewrite lookup_released.
    rewrite bool_decide_eq_false_2 by (by eapply Hout). done.
  - intros k1 k2 y1 y2 c H1 H2 P1 P2.
    pose proof P1 as [U1 _]%points_to_true.
    pose proof P2 as [U2 _]%points_to_true.
    destruct (Hback _ _ H1 U1) as [_ H1'], (Hback _ _ H2 U2) as [_ H2'].
    by apply (Hb k1 k2 y1 y2 c).
  - intros k y Hk Hyu. destruct (Hback k y Hk Hyu) as [Hnin Hk'].
    destruct (Hc k y Hk' Hyu) as [ch' Hch']. exists ch'.
    eapply cause_chain_agree; [|exact Hch'].
    intros j z _ Hz. rewrite lookup_released, Hz.
    case_bool_decide; eexists; (split; [done|done]).
Qed.

(** ** Array bounds *)

Lemma store_bytes_length buf i bs m :
  store_bytes buf i bs = Some m -> length m = length buf.
Proof.
  revert buf i. induction bs as [|b bs IH]; intros buf i H; simpl in H.
  - by inversion H.
  - destruct (i <? length buf); [|done]. apply IH in H.
    by rewrite length_insert in H.
Qed.

Lemma vsnprintf_length buf size out m :
  vsnprintf buf size out = Some m -> length m = length buf.
Proof.
  unfold vsnprintf. destruct size; [by intros [= ->]|].
  apply store_bytes_length.
Qed.

(** Stores that stay inside the array succeed and overwrite a segment. *)
Lemma store_bytes_inside buf i bs :
  i + length bs <= length buf ->
  store_bytes buf i bs = Some (take i buf ++ bs ++ drop (i + length bs) buf).
Proof.
  revert buf i. induction bs as [|b bs IH]; intros buf i H; simpl in *.
  - rewrite Nat.add_0_r, take_drop. done.
  - destruct (Nat.ltb_spec i (length buf)) as [Hlt|]; [|lia].
    rewrite IH by (rewrite length_insert; lia). f_equal.
    rewrite (take_S_r _ _ b) by (by apply list_lookup_insert_eq).
    rewrite take_insert_ge by lia. rewrite drop_insert_lt by lia.
    rewrite <- app_assoc. simpl.
    by replace (S (i + length bs)) with (i + S (length bs)) by lia.
Qed.

Lemma wf_alter_env f j env exc :
  wf (mkState env exc) -> wf (mkState (alter f j env) exc).
Proof.
  intros (H1 & H2 & H3). split; [|done]. cbn [envList] in *.
  by rewrite length_alter.
Qed.

Lemma wf_alter_exc f i env exc :
  (forall x, length (Exception.msg (ExceptionEntry.exception x)) = MAX_MSG_LEN ->
             length (Exception.msg (ExceptionEntry.exception (f x))) = MAX_MSG_LEN) ->
  wf (mkState env exc) -> wf (mkState env (alter f i exc)).
Proof.
  intros Hf (H1 & H2 & H3). split; [done|]. cbn [exceptionList] in *. split.
  - by rewrite length_alter.
  - intros k y Hk. destruct (exc !! i) as [x|] eqn:Hi.
    + destruct (lookup_alter_inv _ _ _ _ _ _ Hi Hk) as [[-> ->]|[Hne Hk']];
        eauto.
    + rewrite list_lookup_alter in Hk.
      case_decide; [subst; rewrite Hi in Hk; done|eauto].
Qed.

Lemma wf_released ch env exc :
  wf (mkState env exc) -> wf (mkState env (released ch exc)).
Proof.
  intros (H1 & H2 & H3). split; [done|]. cbn [exceptionList] in *. split.
  - by rewrite length_released.
  - intros k y Hk. rewrite lookup_released in Hk.
    case_bool_decide; [|eauto].
    destruct (exc !! k) as [x|] eqn:Hx; inversion Hk; subst.
    cbn [ExceptionEntry.exception ExceptionEntry.set_used]. eauto.
Qed.

(** ** Every call keeps the invariant *)

Lemma zeroed_env i x : envList zeroed !! i = Some x -> x = EnvEntry.zero.
Proof. unfold zeroed. cbn [envList exceptionList]. by intros [-> _]%lookup_replicate. Qed.

Lemma zeroed_exc i x :
  exceptionList zeroed !! i = Some x -> x = ExceptionEntry.zero.
Proof. unfold zeroed. cbn [envList exceptionList]. by intros [-> _]%lookup_replicate. Qed.

Lemma inv_zeroed : inv zeroed.
Proof.
  split; [|split].
  - split; [apply length_replicate|]. split; [apply length_replicate|].
    intros i x ->%zeroed_exc. apply length_replicate.
  - intros t.
    assert (Hnone : forall i x, envList zeroed !! i = Some x -> owned t x = false)
      by (by intros i x ->%zeroed_env).
    split.
    + intros i j x y Hi _ Hx. by rewrite (Hnone _ _ Hi) in Hx.
    + intros z. unfold open_blocks. rewrite (count_if_zero _ _ Hnone).
      split; [lia|]. intros (i & x & Hi & Hx & _).
      by rewrite (Hnone _ _ Hi) in Hx.
  - assert (Hnone : forall i x, exceptionList zeroed !! i = Some x ->
                      ExceptionEntry.used x = false)
      by (by intros i x ->%zeroed_exc).
    split; [|split].
    + intros i x c Hi Hx. by rewrite (Hnone _ _ Hi) in Hx.
    + intros i j x y c Hi _ [Hx _]%points_to_true.
      by rewrite (Hnone _ _ Hi) in Hx.
    + intros i x Hi Hx. by rewrite (Hnone _ _ Hi) in Hx.
Qed.

Section Steps.
Context {Template Args : Type} (vformat : Template -> Args -> list byte).

Lemma construct_Ok {A} lift code cause msg args
    (k : nat -> state -> Res A) s r s' :
  construct vformat lift code cause msg args k s = Ok r s' ->
  exists n x m,
    find_index unused_exc (exceptionList s) 0 = Some n /\
    exceptionList s !! n = Some x /\
    ExceptionEntry.used x = false /\
    (forall c, cause = Some c ->
       exists y, exceptionList s !! c = Some y /\ at_rest y = true) /\
    vsnprintf (Exception.msg (ExceptionEntry.exception x)) MAX_MSG_LEN
              (vformat msg args) = Some m /\
    k n (mkState (envList s) (built lift code m cause n (exceptionList s)))
    = Ok r s'.
Proof.
  unfold construct. rewrite assert_cause_run. intros H.
  assert (Hcause : forall c, cause = Some c ->
            exists y, exceptionList s !! c = Some y /\ at_rest y = true).
  { intros c ->. destruct (exceptionList s !! c) as [y|]; [|done].
    destruct (at_rest y) eqn:E; [eauto|done]. }
  assert (H' : match find_index unused_exc (exceptionList s) 0 with
               | Some n =>
                 match exceptionList s !! n with
                 | Some x =>
                   match vsnprintf (Exception.msg (ExceptionEntry.exception x))
                           MAX_MSG_LEN (vformat msg args) with
                   | Some m =>
                     k n (mkState (envList s)
                            (built lift code m cause n (exceptionList s)))
                   | None => Undefined
                   end
                 | None => Undefined
                 end
               | None => Undefined
               end = Ok r s').
  { destruct cause as [c|]; [|done].
    destruct (exceptionList s !! c) as [y|]; [|done].
    by destruct (at_rest y). }
  clear H. destruct (find_index unused_exc (exceptionList s) 0) as [n|] eqn:E;
    [|done].
  destruct (exceptionList s !! n) as [x|] eqn:Hn; [|done].
  destruct (vsnprintf _ _ _) as [m|] eqn:Hm; [|done].
  exists n, x, m. repeat split; try done.
  apply find_index_Some in E as (k' & x' & -> & Hk & Hx & _).
  rewrite Nat.add_0_l in Hn. rewrite Hn in Hk. inversion Hk; subst x'.
  by apply unused_exc_true.
Qed.

Lemma wf_built lift code m cause n x s out :
  (forall y, ExceptionEntry.exception (lift y) = ExceptionEntry.exception y) ->
  wf s ->
  exceptionList s !! n = Some x ->
  vsnprintf (Exception.msg (ExceptionEntry.exception x)) MAX_MSG_LEN out
  = Some m ->
  wf (mkState (envList s) (built lift code m cause n (exceptionList s))).
Proof.
  destruct s as [env exc]. cbn [envList exceptionList].
  intros Hle Hwf Hn Hm. unfold built. apply wf_alter_exc.
  - intros y _. cbn [filled ExceptionEntry.exception
                     ExceptionEntry.set_exception Exception.msg].
    rewrite (vsnprintf_length _ _ _ _ Hm).
    destruct Hwf as (_ & _ & Hmsg). eauto.
  - destruct cause as [c|]; cbn [marked].
    + apply wf_alter_exc; [done|].
      apply wf_alter_exc; [|done]. intros y. by rewrite Hle.
    + apply wf_alter_exc; [|done]. intros y. by rewrite Hle.
Qed.

Lemma inv_built lift code m cause n x s out :
  (forall y, ExceptionEntry.used (lift y) = true) ->
  (forall y, ExceptionEntry.exception (lift y) = ExceptionEntry.exception y) ->
  inv s ->
  exceptionList s !! n = Some x -> ExceptionEntry.used x = false ->
  (forall c, cause = Some c ->
     exists y, exceptionList s !! c = Some y /\ at_rest y = true) ->
  vsnprintf (Exception.msg (ExceptionEntry.exception x)) MAX_MSG_LEN out
  = Some m ->
  inv (mkState (envList s) (built lift code m cause n (exceptionList s))).
Proof.
  intros Hlu Hle (Hwf & Henv & Hexc) Hn Hu Hcause Hm. split; [|split].
  - by eapply wf_built.
  - done.
  - by eapply exc_inv_built.
Qed.

Lemma exAlloc_Ok code cause msg args s p s' :
  exAlloc vformat code cause msg args s = Ok p s' ->
  exists n x m,
    p = Some n /\
    find_index unused_exc (exceptionList s) 0 = Some n /\
    exceptionList s !! n = Some x /\
    ExceptionEntry.used x = false /\
    (forall c, cause = Some c ->
       exists y, exceptionList s !! c = Some y /\ at_rest y = true) /\
    vsnprintf (Exception.msg (ExceptionEntry.exception x)) MAX_MSG_LEN
              (vformat msg args) = Some m /\
    s' = mkState (envList s)
                 (built allocated code m cause n (exceptionList s)).
Proof.
  rewrite exAlloc_run. intros H.
  apply construct_Ok in H as (n & x & m & Hf & Hn & Hu & Hc & Hm & [= <- <-]).
  exists n, x, m. by repeat split.
Qed.

Lemma exThrow_Ok t code cause msg args s j s' :
  exThrow vformat t code cause msg args s = Ok j s' ->
  exists n x m,
    last_slot t (envList s) = Some j /\
    find_index unused_exc (exceptionList s) 0 = Some n /\
    exceptionList s !! n = Some x /\
    ExceptionEntry.used x = false /\
    (forall c, cause = Some c ->
       exists y, exceptionList s !! c = Some y /\ at_rest y = true) /\
    vsnprintf (Exception.msg (ExceptionEntry.exception x)) MAX_MSG_LEN
              (vformat msg args) = Some m /\
    s' = mkState (envList s)
           (built (fun y => launched t (allocated y)) code m cause n
                  (exceptionList s)).
Proof.
  rewrite exThrow_run. intros H.
  apply construct_Ok in H as (n & x & m & Hf & Hn & Hu & Hc & Hm & H).
  destruct (last_slot t (envList s)) as [j'|]; [|done].
  inversion H; subst. exists n, x, m. by repeat split.
Qed.

Lemma exRepeat_Ok t e s j s' :
  exRepeat t e s = Ok j s' ->
  exists i x,
    e = Some i /\ exceptionList s !! i = Some x /\
    ExceptionEntry.used x = true /\ ExceptionEntry.thrown x = false /\
    last_slot t (envList s) = Some j /\
    s' = mkState (envList s) (alter (launched t) i (exceptionList s)).
Proof.
  rewrite exRepeat_run. destruct e as [i|]; [|discriminate].
  destruct (exceptionList s !! i) as [x|] eqn:Hi; [|discriminate].
  destruct (ExceptionEntry.used x) eqn:Hu; [|discriminate].
  destruct (ExceptionEntry.thrown x) eqn:Ht; [discriminate|].
  cbn [andb negb].
  destruct (last_slot t (envList s)) as [j'|]; [|discriminate].
  intros [= <- <-]. exists i, x. by repeat split.
Qed.

Lemma popCallingEnv_Ok t e s e' s' :
  popCallingEnv t e s = Ok e' s' ->
  exists j,
    last_slot t (envList s) = Some j /\
    envList s' = alter (EnvEntry.set_used false) j (envList s) /\
    ((exists i v, find_index (in_flight t) (exceptionList s) 0 = Some i /\
        e = VarOut v /\ e' = VarOut (Some i) /\
        exceptionList s'
        = alter (ExceptionEntry.set_thrown false) i (exceptionList s)) \/
     (find_index (in_flight t) (exceptionList s) 0 = None /\
      e' = e /\ exceptionList s' = exceptionList s)).
Proof.
  rewrite popCallingEnv_run.
  destruct (last_slot t (envList s)) as [j|]; [|done].
  cbv zeta. intros H. exists j. split; [done|].
  destruct (find_index (in_flight t) (exceptionList s) 0) as [i|].
  - destruct e as [|v]; [done|]. inversion H; subst. simpl.
    split; [done|]. left. by exists i, v.
  - inversion H; subst. simpl. split; [done|]. by right.
Qed.

Lemma try_Ok t ctx s j s' :
  try_ t ctx s = Ok j s' ->
  exists x,
    find_index unused_env (envList s) 0 = Some j /\
    envList s !! j = Some x /\ EnvEntry.used x = false /\
    s' = mkState
           (alter (EnvEntry.set_env ctx)
              j (alter (reserve t (Z.of_nat (open_blocks t (envList s)))) j
                       (envList s)))
           (exceptionList s).
Proof.
  rewrite try_run.
  destruct (find_index unused_env (envList s) 0) as [j'|] eqn:E; [|done].
  intros [= <- <-].
  apply find_index_Some in E as (k & x & -> & Hk & Hx & _).
  exists x. repeat split; [done|..].
  - unfold unused_env in Hx. by destruct (EnvEntry.used x).
  - by rewrite list_alter_alter_eq.
Qed.

Lemma exFree_Ok fuel e s s' :
  inv s ->
  exFree fuel e s = Ok tt s' ->
  exists i x ch,
    e = Some i /\ exceptionList s !! i = Some x /\ at_rest x = true /\
    cause_chain (exceptionList s) (Some i) ch /\ length ch <= fuel /\
    s' = mkState (envList s) (released ch (exceptionList s)).
Proof.
  intros (_ & _ & Hexc). rewrite exFree_run. destruct e as [i|]; [|done].
  destruct (exceptionList s !! i) as [x|] eqn:Hi; [|done].
  destruct (at_rest x) eqn:Hr; [|done]. intros H.
  destruct Hexc as (_ & _ & Hc).
  destruct (Hc i x Hi (at_rest_used _ Hr)) as [ch Hch].
  destruct (le_lt_dec (length ch) fuel) as [Hle|Hlt].
  - rewrite (exFree_loop_run ch fuel _ s Hch Hle) in H. inversion H; subst.
    exists i, x, ch. by repeat split.
  - rewrite (exFree_loop_short ch fuel _ s Hch Hlt) in H. done.
Qed.

Lemma exec_inv c s s' : inv s -> exec vformat c s s' -> inv s'.
Proof.
  intros Hinv Hex. pose proof Hinv as (Hwf & Henv & Hexc).
  destruct c as [t ctx|t e|code cause msg args|t code cause msg args|t e|e];
    cbn [exec] in Hex.
  - destruct Hex as [j (x & _ & Hj & Hu & ->)%try_Ok].
    destruct s as [env exc]; cbn [envList exceptionList] in *.
    split; [|split].
    + by do 2 apply wf_alter_env.
    + apply env_inv_set_env. by eapply env_inv_reserve.
    + done.
  - destruct Hex as [e' (j & Hlast & Henv' & Hexc')%popCallingEnv_Ok].
    pose proof Hwf as (Hl1 & Hl2 & Hl3).
    destruct (last_slot_Some t _ j Hl1 Hlast) as (x & Hj & Ho & Hmax).
    assert (Henv2 : env_inv (envList s'))
      by (rewrite Henv'; by eapply env_inv_release).
    destruct s' as [env' exc'], s as [env exc].
    cbn [envList exceptionList] in *. subst env'.
    destruct Hexc' as [(i & v & _ & _ & _ & ->)|(_ & _ & ->)].
    + split; [|split]; [|done|].
      * apply wf_alter_exc; [done|]. by apply wf_alter_env.
      * by apply exc_inv_alter_flags.
    + split; [|split]; [|done|done]. by apply wf_alter_env.
  - destruct Hex as [p (n & x & m & _ & _ & Hn & Hu & Hc & Hm & ->)%exAlloc_Ok].
    by eapply inv_built.
  - destruct Hex as [j (n & x & m & _ & _ & Hn & Hu & Hc & Hm & ->)%exThrow_Ok].
    by eapply inv_built.
  - destruct Hex as [j (i & x & _ & Hi & _ & _ & _ & ->)%exRepeat_Ok].
    destruct s as [env exc]; cbn [envList exceptionList] in *.
    split; [|split]; [|done|].
    + by apply wf_alter_exc.
    + by apply exc_inv_alter_flags.
  - destruct Hex as [fuel H]. apply (exFree_Ok _ _ _ _ Hinv) in H
      as (i & x & ch & _ & Hi & Hr & Hch & _ & ->).
    destruct s as [env exc]; cbn [envList exceptionList] in *.
    split; [|split]; [|done|].
    + by apply wf_released.
    + by eapply exc_inv_released.
Qed.

Lemma reachable_inv s : reachable vformat s -> inv s.
Proof.
  induction 1 as [s H|s c s' _ IH Hex].
  - inversion H; subst. apply inv_zeroed.
  - by eapply exec_inv.
Qed.

End Steps.

(** ** Entering and leaving protected blocks *)

Lemma pushCallingEnv_Ok t s j s' :
  pushCallingEnv t s = Ok j s' ->
  exists x,
    find_index unused_env (envList s) 0 = Some j /\
    envList s !! j = Some x /\ EnvEntry.used x = false /\
    s' = mkState
           (alter (reserve t (Z.of_nat (open_blocks t (envList s)))) j
                  (envList s))
           (exceptionList s).
Proof.
  rewrite pushCallingEnv_run.
  destruct (find_index unused_env (envList s) 0) as [j'|] eqn:E; [|done].
  intros [= <- <-].
  apply find_index_Some in E as (k & x & -> & Hk & Hx & _).
  exists x. repeat split; [done|].
  unfold unused_env in Hx. by destruct (EnvEntry.used x).
Qed.

(** C5 (as the code has it).  [pushCallingEnv] takes the first unused slot
    and writes into it: used, the calling thread, and as nesting level the
    number of slots in use and owned by the calling thread, so that the
    outermost block of a thread has level 0.  The saved context, the other
    slots and the exception pool are left as they are. *)
Theorem pushCallingEnv_level t s j s' :
  pushCallingEnv t s = Ok j s' ->
  exists x,
    envList s !! j = Some x /\ EnvEntry.used x = false /\
    (forall k y, k < j -> envList s !! k = Some y -> EnvEntry.used y = true) /\
    envList s' !! j
    = Some (EnvEntry.mk (EnvEntry.env x) true
                        (Z.of_nat (open_blocks t (envList s))) t) /\
    (forall k, k <> j -> envList s' !! k = envList s !! k) /\
    exceptionList s' = exceptionList s.
Proof.
  intros H. pose proof H as (x & Hf & Hj & Hu & ->)%pushCallingEnv_Ok.
  exists x. split; [done|]. split; [done|]. split; [|split; [|split]].
  - apply find_index_Some in Hf as (k' & x' & Hk' & _ & _ & Hlt).
    intros k y Hk Hy. specialize (Hlt k y ltac:(lia) Hy).
    unfold unused_env in Hlt. by destruct (EnvEntry.used y).
  - cbn [envList]. by rewrite (lookup_alter_Some _ _ _ _ Hj).
  - intros k Hk. cbn [envList]. by rewrite list_lookup_alter_ne.
  - done.
Qed.

Lemma list_alter_None {A} (f : A -> A) (l : list A) j :
  l !! j = None -> alter f j l = l.
Proof.
  intros H. apply list_eq. intros i. rewrite list_lookup_alter.
  case_decide; [subst; by rewrite H|done].
Qed.

Lemma open_blocks_set_env t ctx j l :
  open_blocks t (alter (EnvEntry.set_env ctx) j l) = open_blocks t l.
Proof.
  destruct (l !! j) as [x|] eqn:Hj; [|by rewrite list_alter_None].
  unfold open_blocks.
  pose proof (count_if_alter (owned t) (EnvEntry.set_env ctx) l j x Hj) as H.
  change (owned t (EnvEntry.set_env ctx x)) with (owned t x) in H. lia.
Qed.

Lemma exFree_loop_env fuel e s s' :
  exFree_loop fuel e s = Ok tt s' -> envList s' = envList s.
Proof.
  revert e s. induction fuel as [|fuel IH]; intros [i|] s H;
    cbn [exFree_loop] in H; try (by inversion H).
  apply bind_Ok in H as (c & s1 & Hg & H).
  rewrite getExceptionEntry_run in Hg. inversion Hg; subst c s1. clear Hg.
  apply bind_Ok in H as ([] & s2 & H1 & H).
  apply bind_Ok in H as (y & s3 & H2 & H).
  apply IH in H. rewrite H.
  unfold writeExc in H1. unfold readExc in H2.
  destruct (getExceptionEntry_loop (exceptionList s) 0 (Some i)) as [k|];
    [|done].
  destruct (exceptionList s !! k); [|done]. inversion H1; subst s2.
  cbn [exceptionList] in H2.
  destruct (alter _ _ _ !! k); [|done]. by inversion H2.
Qed.

Section Nesting.
Context {Template Args : Type} (vformat : Template -> Args -> list byte).

Lemma same_blocks_refl t l : same_blocks t l l.
Proof. by split. Qed.

Lemma keeps_blocks_frame c t s s' :
  length (envList s) = ENV_LIST_SIZE ->
  exec vformat c s s' -> keeps_blocks t c ->
  same_blocks t (envList s) (envList s').
Proof.
  intros Hlen Hex Hk.
  destruct c as [t' ctx|t' e|code cause msg args|t' code cause msg args|t' e|e];
    cbn [exec keeps_blocks] in *.
  - destruct Hex as [j (x & _ & Hj & Hu & ->)%try_Ok]. cbn [envList].
    assert (Ett : (t' =? t) = false) by (by apply Nat.eqb_neq).
    split.
    + rewrite open_blocks_set_env, (open_blocks_reserve _ _ _ _ x) by done.
      rewrite Ett. lia.
    + intros k y Hy. destruct (decide (k = j)) as [->|Hne].
      * rewrite (lookup_alter_Some _ _ _ _ (lookup_alter_Some _ _ _ _ Hj)), Hj.
        split; intros [= <-].
        -- by rewrite (owned_unused t x Hu) in Hy.
        -- change (owned t (EnvEntry.set_env ctx (reserve t' _ x)))
             with (t' =? t) in Hy. congruence.
      * by rewrite !list_lookup_alter_ne.
  - destruct Hex as [e' (j & Hlast & -> & _)%popCallingEnv_Ok].
    destruct (last_slot_Some t' _ j Hlen Hlast) as (x & Hj & Ho & _).
    assert (Ett : (t' =? t) = false) by (by apply Nat.eqb_neq).
    split.
    + pose proof (open_blocks_release t' t j x _ Hj Ho) as H.
      rewrite Ett in H. lia.
    + intros k y Hy. destruct (decide (k = j)) as [->|Hne].
      * rewrite (lookup_alter_Some _ _ _ _ Hj), Hj. split; intros [= <-].
        -- destruct (owned_true _ _ Ho) as [_ E1], (owned_true _ _ Hy) as [_ E2].
           congruence.
        -- done.
      * by rewrite list_lookup_alter_ne.
  - destruct Hex as [p (n & x & m & _ & _ & _ & _ & _ & _ & ->)%exAlloc_Ok].
    apply same_blocks_refl.
  - destruct Hex as [j (n & x & m & _ & _ & _ & _ & _ & _ & ->)%exThrow_Ok].
    apply same_blocks_refl.
  - destruct Hex as [j (i & x & _ & _ & _ & _ & _ & ->)%exRepeat_Ok].
    apply same_blocks_refl.
  - destruct Hex as [fuel H]. rewrite exFree_run in H.
    destruct e as [i|]; [|done].
    destruct (exceptionList s !! i) as [x|]; [|done].
    destruct (at_rest x); [|done].
    rewrite (exFree_loop_env _ _ _ _ H). apply same_blocks_refl.
Qed.

Lemma nested_entries_spec t s js s' :
  inv s -> nested_entries vformat t s js s' ->
  inv s' /\
  open_blocks t (envList s') = open_blocks t (envList s) + length js /\
  (forall j ctx, last js = Some (j, ctx) ->
     exists x, envList s' !! j = Some x /\ owned t x = true /\
               EnvEntry.env x = ctx /\
               EnvEntry.level x
               = (Z.of_nat (open_blocks t (envList s')) - 1)%Z).
Proof.
  intros Hinv H.
  induction H as [s|s js s1 ctx j s2 _ IH Htry|s js s1 c s2 _ IH Hk Hex].
  - split; [done|]. split; [simpl; lia|]. done.
  - destruct (IH Hinv) as (Hinv1 & Hcount & _).
    assert (Hinv2 : inv s2)
      by (apply (exec_inv vformat (Try t ctx) s1 s2 Hinv1); by exists j).
    pose proof Htry as (x & _ & Hj & Hu & ->)%try_Ok. cbn [envList] in *.
    assert (Hc2 : open_blocks t
              (alter (EnvEntry.set_env ctx) j
                 (alter (reserve t (Z.of_nat (open_blocks t (envList s1)))) j
                    (envList s1)))
            = open_blocks t (envList s1) + 1).
    { rewrite open_blocks_set_env, (open_blocks_reserve _ _ _ _ x) by done.
      by rewrite Nat.eqb_refl. }
    split; [done|]. split.
    + rewrite Hc2, length_app. simpl. lia.
    + intros j' ctx' Hl. rewrite last_snoc in Hl. inversion Hl; subst j' ctx'.
      eexists. split.
      { apply lookup_alter_Some. by apply lookup_alter_Some. }
      split; [|split; [done|]].
      * change (owned t (EnvEntry.set_env ctx (reserve t _ x))) with (t =? t).
        apply Nat.eqb_refl.
      * rewrite Hc2. cbn. lia.
  - destruct (IH Hinv) as (Hinv1 & Hcount & Hlast).
    assert (Hinv2 : inv s2) by (by eapply exec_inv).
    pose proof Hinv1 as ((Hlen & _) & _).
    destruct (keeps_blocks_frame c t s1 s2 Hlen Hex Hk) as [Hc Hsame].
    split; [done|]. split; [lia|].
    intros j ctx Hl. destruct (Hlast j ctx Hl) as (x & Hj & Ho & He & Hlev).
    exists x. rewrite Hc. split; [by apply Hsame|done].
Qed.

End Nesting.

Lemma last_slot_innermost t l j x :
  length l = ENV_LIST_SIZE -> env_inv l ->
  l !! j = Some x -> owned t x = true ->
  EnvEntry.level x = (Z.of_nat (open_blocks t l) - 1)%Z ->
  last_slot t l = Some j.
Proof.
  intros Hlen Hinv Hj Ho Hlev. destruct (last_slot t l) as [j'|] eqn:E.
  - destruct (last_slot_Some t l j' Hlen E) as (y & Hj' & Hoy & Hmax).
    pose proof (env_inv_top t j' y l Hinv Hj' Hoy Hmax) as Htop.
    destruct (Hinv t) as [Hinj _]. f_equal.
    apply (Hinj j' j y x); [done|done|done|done|congruence].
  - by rewrite (last_slot_None t l Hlen E j x Hj) in Ho.
Qed.

(** The store of [vsnprintf] into a buffer of [MAX_MSG_LEN] bytes stays
    inside the buffer, whatever the length of the formatted output. *)
Lemma vsnprintf_fits buf out :
  length buf = MAX_MSG_LEN ->
  vsnprintf buf MAX_MSG_LEN out
  = Some ((take (MAX_MSG_LEN - 1) out ++ [x00])
          ++ drop (length (take (MAX_MSG_LEN - 1) out) + 1) buf).
Proof.
  intros Hlen.
  change (vsnprintf buf MAX_MSG_LEN out)
    with (store_bytes buf 0 (take (MAX_MSG_LEN - 1) out ++ [x00])).
  rewrite store_bytes_inside.
  - rewrite take_0, length_app. cbn [length app]. by rewrite Nat.add_0_l.
  - rewrite length_app, length_take, Hlen. cbn [length].
    unfold MAX_MSG_LEN. lia.
Qed.

Lemma vsnprintf_truncates buf out :
  length buf = MAX_MSG_LEN -> MAX_MSG_LEN <= length out ->
  vsnprintf buf MAX_MSG_LEN out = Some (take (MAX_MSG_LEN - 1) out ++ [x00]).
Proof.
  intros Hlen Hout. rewrite (vsnprintf_fits buf out Hlen).
  rewrite drop_ge, app_nil_r; [done|].
  rewrite length_take, Hlen. unfold MAX_MSG_LEN in *. lia.
Qed.

Section Progress.
Context {Template Args : Type} (vformat : Template -> Args -> list byte).

(** With a record free and the cause acceptable, construction succeeds. *)
Lemma construct_progress {A} lift code cause msg args
    (k : nat -> state -> Res A) s :
  wf s ->
  (forall c, cause = Some c ->
     exists y, exceptionList s !! c = Some y /\ at_rest y = true) ->
  (exists n x, exceptionList s !! n = Some x /\ ExceptionEntry.used x = false) ->
  exists n x m,
    find_index unused_exc (exceptionList s) 0 = Some n /\
    exceptionList s !! n = Some x /\
    vsnprintf (Exception.msg (ExceptionEntry.exception x)) MAX_MSG_LEN
              (vformat msg args) = Some m /\
    construct vformat lift code cause msg args k s
    = k n (mkState (envList s) (built lift code m cause n (exceptionList s))).
Proof.
  intros (_ & _ & Hmsg) Hcause (n0 & x0 & Hn0 & Hu0).
  destruct (find_index unused_exc (exceptionList s) 0) as [n|] eqn:E.
  2:{ pose proof (find_index_None _ _ _ E n0 x0 Hn0) as H.
      unfold unused_exc in H. rewrite Hu0 in H. done. }
  pose proof E as (k' & x & Hk' & Hn & _)%find_index_Some.
  rewrite Nat.add_0_l in Hk'. subst k'.
  pose proof (vsnprintf_fits _ (vformat msg args) (Hmsg n x Hn)) as Hv.
  eexists n, x, _. split; [done|]. split; [done|]. split; [exact Hv|].
  unfold construct. rewrite assert_cause_run.
  assert (Ha : match cause with
               | Some c =>
                 match exceptionList s !! c with
                 | Some x => if at_rest x then Ok tt s else Violation s
                 | None => Undefined
                 end
               | None => Ok tt s
               end = Ok tt s).
  { destruct cause as [c|]; [|done].
    destruct (Hcause c eq_refl) as (y & -> & ->). done. }
  rewrite Ha, E, Hn, Hv. done.
Qed.

End Progress.

(** ** Delivery *)

Lemma in_flight_true t x :
  in_flight t x = true <->
  ExceptionEntry.used x = true /\ ExceptionEntry.thrown x = true /\
  ExceptionEntry.thread x = t.
Proof.
  unfold in_flight. rewrite !andb_true_iff, Nat.eqb_eq. tauto.
Qed.

Lemma deliverable_find t s :
  deliverable t s = find_index (in_flight t) (exceptionList s) 0.
Proof. apply popCallingEnv_loop_find. Qed.

Lemma lookup_built_eq lift code m cause n l x :
  l !! n = Some x -> cause <> Some n ->
  built lift code m cause n l !! n = Some (filled code m cause (lift x)).
Proof.
  intros Hn Hne. unfold built. apply lookup_alter_Some.
  rewrite lookup_marked_ne by done. by apply lookup_alter_Some.
Qed.

Lemma lookup_built_ne lift code m cause n l k :
  k <> n -> built lift code m cause n l !! k = marked cause l !! k.
Proof.
  intros Hk. unfold built. rewrite list_lookup_alter_ne by done.
  destruct cause as [c|]; simpl.
  - destruct (decide (c = k)) as [->|Hck].
    + rewrite !list_lookup_alter_eq. by rewrite list_lookup_alter_ne.
    + rewrite !(list_lookup_alter_ne _ _ c k) by done.
      by rewrite list_lookup_alter_ne.
  - by rewrite list_lookup_alter_ne.
Qed.

Lemma lookup_marked_inv cause l k y :
  marked cause l !! k = Some y ->
  exists x, l !! k = Some x /\
    (y = x \/ y = ExceptionEntry.set_cause true x).
Proof.
  destruct (decide (cause = Some k)) as [->|Hne].
  - rewrite lookup_marked_eq. destruct (l !! k) as [x|]; [|done].
    intros [= <-]. eauto.
  - rewrite lookup_marked_ne by done. eauto.
Qed.

(** The loop of [exFree] only clears [used] flags. *)
Lemma exFree_loop_frame fuel e s s' :
  exFree_loop fuel e s = Ok tt s' ->
  envList s' = envList s /\
  forall k y', exceptionList s' !! k = Some y' ->
    exists y, exceptionList s !! k = Some y /\
      (y' = y \/ y' = ExceptionEntry.set_used false y).
Proof.
  revert e s. induction fuel as [|fuel IH]; intros [i|] s H;
    cbn [exFree_loop] in H; try (by inversion H);
    try (inversion H; subst; split; [done|]; by eauto).
  apply bind_Ok in H as (c & s1 & Hg & H).
  rewrite getExceptionEntry_run in Hg. inversion Hg; subst c s1. clear Hg.
  apply bind_Ok in H as ([] & s2 & H1 & H).
  apply bind_Ok in H as (y & s3 & H2 & H).
  apply IH in H as [Henv Hexc].
  unfold writeExc in H1. unfold readExc in H2.
  destruct (getExceptionEntry_loop (exceptionList s) 0 (Some i)) as [k|];
    [|done].
  destruct (exceptionList s !! k) as [x|] eqn:Hk; [|done].
  inversion H1; subst s2. cbn [exceptionList] in H2.
  destruct (alter _ _ _ !! k); [|done]. inversion H2; subst s3 y.
  split; [by rewrite Henv|].
  intros k' y' Hy'. destruct (Hexc k' y' Hy') as (z & Hz & Hyz).
  cbn [exceptionList] in Hz.
  destruct (lookup_alter_inv _ _ _ _ _ _ Hk Hz) as [[-> ->]|[Hne Hz']].
  - exists x. split; [done|]. right. by destruct Hyz as [->| ->].
  - eauto.
Qed.

Section Quiet.
Context {Template Args : Type} (vformat : Template -> Args -> list byte).

(** A call that throws nothing leaves a record that is not in flight not in
    flight. *)
Lemma throws_nothing_thrown c s s' i :
  exec vformat c s s' -> throws_nothing c ->
  (forall y, exceptionList s !! i = Some y -> ExceptionEntry.thrown y = false) ->
  forall y, exceptionList s' !! i = Some y -> ExceptionEntry.thrown y = false.
Proof.
  intros Hex Hq Hi y Hy.
  destruct c as [t' ctx|t' e|code cause msg args|t' code cause msg args|t' e|e];
    cbn [exec throws_nothing] in *; try done.
  - destruct Hex as [j (x & _ & _ & _ & ->)%try_Ok]. eauto.
  - destruct Hex as [e' (j & _ & _ & Hexc)%popCallingEnv_Ok].
    destruct Hexc as [(k & v & Hf & _ & _ & Hexc)|(_ & _ & Hexc)];
      rewrite Hexc in Hy; [|eauto].
    apply find_index_Some in Hf as (k' & x & -> & Hk & _).
    destruct (lookup_alter_inv _ _ _ _ _ _ Hk Hy) as [[-> ->]|[Hne Hy']];
      [done|eauto].
  - destruct Hex as [p (n & x & m & _ & _ & Hn & Hu & Hc & _ & ->)%exAlloc_Ok].
    cbn [exceptionList] in Hy.
    assert (Hne : cause <> Some n).
    { intros E. destruct (Hc n E) as (z & Hz & Hr%at_rest_used). congruence. }
    destruct (decide (i = n)) as [->|Hin].
    + rewrite (lookup_built_eq _ _ _ _ _ _ x Hn Hne) in Hy.
      inversion Hy; subst y. simpl. eauto.
    + rewrite lookup_built_ne in Hy by done.
      destruct (lookup_marked_inv _ _ _ _ Hy) as (z & Hz & [->| ->]);
        simpl; eauto.
  - destruct Hex as [fuel H]. rewrite exFree_run in H.
    destruct e as [k|]; [|done].
    destruct (exceptionList s !! k) as [x|]; [|done].
    destruct (at_rest x); [|done].
    apply exFree_loop_frame in H as [_ H].
    destruct (H i y Hy) as (z & Hz & [->| ->]); simpl; eauto.
Qed.

Lemma quiet_run_thrown s s' i :
  quiet_run vformat s s' ->
  (forall y, exceptionList s !! i = Some y -> ExceptionEntry.thrown y = false) ->
  forall y, exceptionList s' !! i = Some y -> ExceptionEntry.thrown y = false.
Proof.
  induction 1 as [s|s c s1 s2 _ IH Hq Hex]; [done|].
  intros Hi. eapply throws_nothing_thrown; eauto.
Qed.

End Quiet.

(** ** The cause bit stands for a reference *)

Lemma cause_chain_closed l e ch k y c :
  cause_chain l e ch -> k ∈ ch -> l !! k = Some y ->
  Exception.cause (ExceptionEntry.exception y) = Some c -> c ∈ ch.
Proof.
  intros Hch Hk Hy Hc.
  destruct (cause_chain_suffix _ _ _ _ Hch Hk) as (ch' & Hch' & Hs).
  inversion Hch' as [|k' y' rest Hy' Hrest]; subst.
  rewrite Hy in Hy'. inversion Hy'; subst y'. rewrite Hc in Hrest.
  inversion Hrest as [|c' z rest' Hz _]; subst.
  destruct Hs as [pre ->]. rewrite !elem_of_app, !elem_of_cons. tauto.
Qed.

Lemma cause_inv_transfer l l' :
  (forall k y, l' !! k = Some y ->
     exists x, l !! k = Some x /\
       ExceptionEntry.used x = ExceptionEntry.used y /\
       ExceptionEntry.exception x = ExceptionEntry.exception y /\
       ExceptionEntry.cause x = ExceptionEntry.cause y) ->
  (forall k x, l !! k = Some x ->
     exists y, l' !! k = Some y /\
       ExceptionEntry.used x = ExceptionEntry.used y /\
       ExceptionEntry.exception x = ExceptionEntry.exception y /\
       ExceptionEntry.cause x = ExceptionEntry.cause y) ->
  cause_inv l -> cause_inv l'.
Proof.
  intros Hback Hfwd Hinv i y Hi Hu Hc.
  destruct (Hback _ _ Hi) as (x & Hx & Eu & _ & Ec).
  destruct (Hinv i x Hx) as (k & z & Hz & Hp); [congruence|congruence|].
  destruct (Hfwd _ _ Hz) as (z' & Hz' & Eu' & Ee' & _).
  exists k, z'. split; [done|]. apply points_to_true.
  apply points_to_true in Hp. by rewrite <- Eu', <- Ee'.
Qed.

Lemma cause_inv_alter_flags f i l :
  (forall x, ExceptionEntry.used (f x) = ExceptionEntry.used x /\
             ExceptionEntry.exception (f x) = ExceptionEntry.exception x /\
             ExceptionEntry.cause (f x) = ExceptionEntry.cause x) ->
  cause_inv l -> cause_inv (alter f i l).
Proof.
  intros Hf. apply cause_inv_transfer.
  - intros k y Hk. destruct (l !! i) as [x|] eqn:Hi.
    + destruct (lookup_alter_inv _ _ _ _ _ _ Hi Hk) as [[-> ->]|[Hne Hk']].
      * exists x. destruct (Hf x) as (? & ? & ?). by repeat split.
      * eauto.
    + rewrite list_lookup_alter in Hk. case_decide.
      * subst. rewrite Hi in Hk. done.
      * eauto.
  - intros k x Hk. destruct (decide (k = i)) as [->|Hne].
    + exists (f x). rewrite (lookup_alter_Some _ _ _ _ Hk).
      destruct (Hf x) as (? & ? & ?). by repeat split.
    + exists x. by rewrite list_lookup_alter_ne.
Qed.

Lemma cause_inv_built lift code m cause n x l :
  (forall y, ExceptionEntry.used (lift y) = true) ->
  (forall y, ExceptionEntry.cause (lift y) = false) ->
  cause_inv l ->
  l !! n = Some x -> ExceptionEntry.used x = false ->
  (forall c, cause = Some c ->
     exists y, l !! c = Some y /\ at_rest y = true) ->
  cause_inv (built lift code m cause n l).
Proof.
  intros Hlu Hlc Hinv Hn Hu Hcause i y Hi Hyu Hyc.
  assert (Hne : cause <> Some n).
  { intros E. destruct (Hcause n E) as (z & Hz & Hr%at_rest_used).
    congruence. }
  pose proof (lookup_built_eq lift code m cause n l x Hn Hne) as Hnew.
  destruct (decide (i = n)) as [->|Hin].
  { rewrite Hnew in Hi. inversion Hi; subst y. cbn in Hyc.
    by rewrite Hlc in Hyc. }
  rewrite lookup_built_ne in Hi by done.
  destruct (decide (cause = Some i)) as [->|Hci].
  { exists n, (filled code m (Some i) (lift x)). split; [done|].
    apply points_to_true. cbn. by rewrite Hlu. }
  rewrite lookup_marked_ne in Hi by done.
  destruct (Hinv i y Hi Hyu Hyc) as (k & z & Hz & Hp).
  pose proof Hp as [Hzu Hzc]%points_to_true.
  assert (Hkn : k <> n) by (intros ->; congruence).
  destruct (decide (cause = Some k)) as [->|Hck].
  - exists k, (ExceptionEntry.set_cause true z). split.
    + by rewrite lookup_built_ne, lookup_marked_eq, Hz.
    + by apply points_to_true.
  - exists k, z. split; [|done].
    by rewrite lookup_built_ne, lookup_marked_ne.
Qed.

Lemma cause_inv_released l e ch :
  cause_inv l -> cause_chain l e ch -> cause_inv (released ch l).
Proof.
  intros Hinv Hch i y Hi Hyu Hyc. rewrite lookup_released in Hi.
  case_bool_decide as Hin.
  { destruct (l !! i); inversion Hi; subst. done. }
  destruct (Hinv i y Hi Hyu Hyc) as (k & z & Hz & Hp).
  exists k, z. split; [|done]. rewrite lookup_released, Hz.
  rewrite bool_decide_eq_false_2; [done|]. intros Hk.
  apply points_to_true in Hp as [_ Hzc].
  apply Hin. by eapply cause_chain_closed.
Qed.

Section CauseBit.
Context {Template Args : Type} (vformat : Template -> Args -> list byte).

Lemma exec_cause_inv c s s' :
  inv s -> cause_inv (exceptionList s) -> exec vformat c s s' ->
  cause_inv (exceptionList s').
Proof.
  intros Hinv Hci Hex.
  destruct c as [t ctx|t e|code cause msg args|t code cause msg args|t e|e];
    cbn [exec] in Hex.
  - by destruct Hex as [j (x & _ & _ & _ & ->)%try_Ok].
  - destruct Hex as [e' (j & _ & _ & Hexc)%popCallingEnv_Ok].
    destruct Hexc as [(i & v & _ & _ & _ & ->)|(_ & _ & ->)]; [|done].
    by apply cause_inv_alter_flags.
  - destruct Hex as [p (n & x & m & _ & _ & Hn & Hu & Hc & _ & ->)%exAlloc_Ok].
    by eapply cause_inv_built.
  - destruct Hex as [j (n & x & m & _ & _ & Hn & Hu & Hc & _ & ->)%exThrow_Ok].
    by eapply cause_inv_built.
  - destruct Hex as [j (i & x & _ & _ & _ & _ & _ & ->)%exRepeat_Ok].
    by apply cause_inv_alter_flags.
  - destruct Hex as [fuel H]. apply (exFree_Ok _ _ _ _ Hinv) in H
      as (i & x & ch & _ & _ & _ & Hch & _ & ->).
    by eapply cause_inv_released.
Qed.

Lemma reachable_cause_inv s :
  reachable vformat s -> cause_inv (exceptionList s).
Proof.
  induction 1 as [s H|s c s' Hr IH Hex].
  - inversion H; subst. intros i x ->%zeroed_exc. done.
  - eapply exec_cause_inv; [|exact IH|exact Hex].
    by apply (reachable_inv vformat).
Qed.

End CauseBit.

(** ** Freeing *)

Lemma in_use_released ch l :
  NoDup ch ->
  (forall k, k ∈ ch ->
     exists y, l !! k = Some y /\ ExceptionEntry.used y = true) ->
  in_use (released ch l) + length ch = in_use l.
Proof.
  unfold released, in_use. revert l.
  induction ch as [|i ch IH]; intros l Hnd Hused; cbn [foldl length]; [lia|].
  apply NoDup_cons in Hnd as [Hi Hnd].
  destruct (Hused i) as (x & Hx & Hxu); [left|].
  pose proof (count_if_alter ExceptionEntry.used
                (ExceptionEntry.set_used false) l i x Hx) as H.
  rewrite Hxu in H. cbn [ExceptionEntry.used ExceptionEntry.set_used] in H.
  specialize (IH (alter (ExceptionEntry.set_used false) i l) Hnd).
  cut (forall k : nat, k ∈ ch ->
         exists y, alter (ExceptionEntry.set_used false) i l !! k = Some y /\
                   ExceptionEntry.used y = true).
  { intros Hu'. specialize (IH Hu'). lia. }
  intros k Hk. destruct (Hused k) as (y & Hy & Hyu); [by right|].
  exists y. split; [|done]. rewrite list_lookup_alter_ne; [done|].
  intros ->. done.
Qed.

(** ** Messages *)

Lemma c_str_terminated bs rest :
  Forall (fun b => b <> x00) bs -> c_str (bs ++ x00 :: rest) = bs.
Proof.
  induction 1 as [|b bs Hb _ IH]; [done|]. cbn [app c_str].
  destruct (Byte.eqb b x00) eqn:E; [by apply Byte.byte_dec_bl in E|].
  by rewrite IH.
Qed.

Lemma built_others lift code m cause n l k y' :
  k <> n -> built lift code m cause n l !! k = Some y' ->
  exists y, l !! k = Some y /\
    ExceptionEntry.exception y' = ExceptionEntry.exception y.
Proof.
  intros Hk H. rewrite lookup_built_ne in H by done.
  destruct (lookup_marked_inv _ _ _ _ H) as (y & Hy & [->| ->]); eauto.
Qed.

Section Claims.
Context {Template Args : Type} (vformat : Template -> Args -> list byte).

(** C6.  In every reachable state at most one slot per (thread, level) is in
    use and the levels of the slots in use of a thread are exactly
    0, 1, ..., count - 1; every [pushCallingEnv] and every [popCallingEnv]
    keeps it so, the latter releasing the slot with the highest level of the
    calling thread. *)
Theorem env_levels_contiguous :
  (forall s, reachable vformat s -> env_inv (envList s)) /\
  (forall s t j s',
      env_inv (envList s) ->
      pushCallingEnv t s = Ok j s' -> env_inv (envList s')) /\
  (forall s t e e' s',
      length (envList s) = ENV_LIST_SIZE ->
      env_inv (envList s) ->
      popCallingEnv t e s = Ok e' s' ->
      env_inv (envList s') /\
      exists j x,
        envList s !! j = Some x /\ owned t x = true /\
        EnvEntry.level x = (Z.of_nat (open_blocks t (envList s)) - 1)%Z /\
        envList s' = alter (EnvEntry.set_used false) j (envList s)).
Proof.
  split; [|split].
  - intros s Hr. by pose proof (reachable_inv vformat s Hr) as (_ & Henv & _).
  - intros s t j s' Henv (x & _ & Hj & Hu & ->)%pushCallingEnv_Ok.
    cbn [envList]. by eapply env_inv_reserve.
  - intros s t e e' s' Hlen Henv (j & Hlast & Henv' & _)%popCallingEnv_Ok.
    destruct (last_slot_Some t _ j Hlen Hlast) as (x & Hj & Ho & Hmax).
    split.
    + rewrite Henv'. by eapply env_inv_release.
    + exists j, x. repeat split; [done|done| |done].
      by eapply env_inv_top.
Qed.

(** C1.  When thread [t] has entered the protected blocks [js] (at least
    one) without leaving any, whatever other calls were made meanwhile, the
    slot of the last entry is owned by [t] and has the highest level among
    the slots of [t]; [getLastEnvEntry] returns it, every [exThrow] of [t]
    that jumps jumps to it, where the context saved by that entry is found,
    and [exThrow] does jump when a record is free and no cause is given. *)
Theorem exThrow_innermost t s js s' j ctx :
  reachable vformat s ->
  nested_entries vformat t s js s' ->
  last js = Some (j, ctx) ->
  (exists x,
      envList s' !! j = Some x /\ owned t x = true /\ EnvEntry.env x = ctx /\
      EnvEntry.level x
      = (Z.of_nat (open_blocks t (envList s) + length js) - 1)%Z /\
      forall k y, envList s' !! k = Some y -> owned t y = true -> k <> j ->
                  (EnvEntry.level y < EnvEntry.level x)%Z) /\
  getLastEnvEntry t s' = Ok (Some j) s' /\
  (forall code cause msg args target s'',
      exThrow vformat t code cause msg args s' = Ok target s'' ->
      target = j /\ envList s'' = envList s') /\
  (forall code msg args,
      (exists n y, exceptionList s' !! n = Some y /\
                   ExceptionEntry.used y = false) ->
      exists s'', exThrow vformat t code None msg args s' = Ok j s'').
Proof.
  intros Hr Hn Hl. pose proof (reachable_inv vformat s Hr) as Hinv.
  destruct (nested_entries_spec vformat t s js s' Hinv Hn)
    as (Hinv' & Hcount & Hlast).
  destruct (Hlast j ctx Hl) as (x & Hj & Ho & He & Hlev).
  pose proof Hinv' as ((Hlen & Hwf) & Henv & _).
  assert (Hls : last_slot t (envList s') = Some j)
    by (by eapply last_slot_innermost).
  split; [|split; [|split]].
  - exists x. split; [done|]. split; [done|]. split; [done|].
    split; [by rewrite <- Hcount|].
    intros k y Hk Hy Hne. destruct (Henv t) as [Hinj Hrange].
    assert (0 <= EnvEntry.level y < Z.of_nat (open_blocks t (envList s')))%Z
      by (apply Hrange; eauto).
    assert (EnvEntry.level y <> EnvEntry.level x); [|lia].
    intros E. apply Hne. by apply (Hinj k j y x).
  - rewrite getLastEnvEntry_run. by rewrite Hls.
  - intros code cause msg args target s'' H.
    apply exThrow_Ok in H as (n & y & m & Hls' & _ & _ & _ & _ & _ & ->).
    split; [congruence|done].
  - intros code msg args Hfree. rewrite exThrow_run.
    destruct (construct_progress vformat
                (fun y => launched t (allocated y)) code None msg args
                (fun n s0 => match last_slot t (envList s') with
                             | Some j => Ok j s0
                             | None => Undefined
                             end) s')
      as (n & y & m & _ & _ & _ & ->); [done|done|done|].
    rewrite Hls. eauto.
Qed.

(** C2.  A [popCallingEnv] that returns has released the slot that
    [getLastEnvEntry] finds for the calling thread, a slot of that thread
    with the highest level.  If a record in use, in
    flight and owned by the calling thread exists, the first one is handed
    over through the out-parameter and only its in-flight bit is cleared;
    from then on no deliver on any thread hands it over again, as long as
    nothing is thrown or repeated.  Otherwise the out-parameter and the pool
    are untouched.  A record in flight on another thread is never handed
    over. *)
Theorem popCallingEnv_delivers_once t e s e' s' :
  popCallingEnv t e s = Ok e' s' ->
  (exists j,
      getLastEnvEntry t s = Ok (Some j) s /\
      envList s' = alter (EnvEntry.set_used false) j (envList s) /\
      (length (envList s) = ENV_LIST_SIZE ->
       exists x,
         envList s !! j = Some x /\ owned t x = true /\
         forall k y, envList s !! k = Some y -> owned t y = true ->
                     (EnvEntry.level y <= EnvEntry.level x)%Z)) /\
  match deliverable t s with
  | Some i =>
    exists x,
      exceptionList s !! i = Some x /\
      ExceptionEntry.used x = true /\ ExceptionEntry.thrown x = true /\
      ExceptionEntry.thread x = t /\
      (forall k y, k < i -> exceptionList s !! k = Some y ->
                   in_flight t y = false) /\
      e' = VarOut (Some i) /\
      exceptionList s'
      = alter (ExceptionEntry.set_thrown false) i (exceptionList s) /\
      (forall s'', quiet_run vformat s' s'' ->
                   forall t', deliverable t' s'' <> Some i)
  | None =>
    (forall k y, exceptionList s !! k = Some y -> in_flight t y = false) /\
    e' = e /\ exceptionList s' = exceptionList s
  end.
Proof.
  intros (j & Hlast & Henv & Hexc)%popCallingEnv_Ok. split.
  - exists j. split; [|split; [done|]].
    + rewrite getLastEnvEntry_run. by rewrite Hlast.
    + intros Hlen. by apply last_slot_Some.
  - rewrite deliverable_find.
    destruct Hexc as [(i & v & Hf & _ & -> & Hexc)|(Hf & -> & Hexc)];
      rewrite Hf.
    + apply find_index_Some in Hf as (k & x & -> & Hk & Hx & Hlt).
      apply in_flight_true in Hx as (Hu & Ht & Hth).
      exists x. repeat split; try done.
      intros s'' Hq t' Hd. rewrite deliverable_find in Hd.
      apply find_index_Some in Hd as (k' & y & Hk' & Hy & Hfl & _).
      cbn [Nat.add] in Hk'. subst k'.
      apply in_flight_true in Hfl as (_ & Hty & _).
      rewrite (quiet_run_thrown vformat s' s'' k Hq) in Hty; [done| |done].
      intros z Hz. rewrite Hexc, (lookup_alter_Some _ _ _ _ Hk) in Hz.
      by inversion Hz.
    + repeat split; [|done]. by eapply find_index_None.
Qed.

(** C10.  When no record is in use, in flight and owned by the calling
    thread, [popCallingEnv] leaves the out-parameter and the pool as they
    are.  The normal exit of the [catch] macro, which passes [NULL], then
    returns; it depends on this, since with such a record present the store
    through [NULL] is undefined. *)
Theorem popCallingEnv_normal_exit t s :
  (forall k y, exceptionList s !! k = Some y -> in_flight t y = false) ->
  (forall e e' s',
      popCallingEnv t e s = Ok e' s' ->
      e' = e /\ exceptionList s' = exceptionList s) /\
  (forall j,
      last_slot t (envList s) = Some j ->
      catch_normal t s
      = Ok NullOut
           (mkState (alter (EnvEntry.set_used false) j (envList s))
                    (exceptionList s))) /\
  (forall s2 i, deliverable t s2 = Some i -> catch_normal t s2 = Undefined).
Proof.
  intros Hnone.
  assert (Hf : find_index (in_flight t) (exceptionList s) 0 = None)
    by (by apply find_index_None_iff).
  split; [|split].
  - intros e e' s' (j & _ & _ & Hexc)%popCallingEnv_Ok.
    destruct Hexc as [(i & v & Hf' & _)|(_ & -> & ->)]; [congruence|done].
  - intros j Hj. unfold catch_normal. rewrite popCallingEnv_run, Hj.
    cbv zeta. by rewrite Hf.
  - intros s2 i Hd. unfold catch_normal. rewrite popCallingEnv_run.
    rewrite deliverable_find in Hd.
    destruct (last_slot t (envList s2)); [|done]. cbv zeta. by rewrite Hd.
Qed.

(** C3.  In every reachable state a record is the cause of at most one
    record in use.  [exAlloc] and [exThrow] abort, with the registries
    untouched, when the supplied cause is not allocated, is already a cause
    or is in flight; when they return, the cause passed the three checks, its
    cause bit is set and the new record refers to it. *)
Theorem cause_of_at_most_one :
  (forall s r, reachable vformat s -> referrers r (exceptionList s) <= 1) /\
  (forall s c x code msg args t,
      exceptionList s !! c = Some x -> at_rest x = false ->
      exAlloc vformat code (Some c) msg args s = Violation s /\
      exThrow vformat t code (Some c) msg args s = Violation s) /\
  (forall s c code msg args p s',
      exAlloc vformat code (Some c) msg args s = Ok p s' ->
      exists x y n z,
        exceptionList s !! c = Some x /\ at_rest x = true /\
        exceptionList s' !! c = Some y /\ ExceptionEntry.cause y = true /\
        p = Some n /\ exceptionList s' !! n = Some z /\
        ExceptionEntry.used z = true /\
        Exception.cause (ExceptionEntry.exception z) = Some c) /\
  (forall s c code msg args t j s',
      exThrow vformat t code (Some c) msg args s = Ok j s' ->
      exists x y n z,
        exceptionList s !! c = Some x /\ at_rest x = true /\
        exceptionList s' !! c = Some y /\ ExceptionEntry.cause y = true /\
        deliverable t s' <> None /\ exceptionList s' !! n = Some z /\
        in_flight t z = true /\
        Exception.cause (ExceptionEntry.exception z) = Some c).
Proof.
  assert (Hattach : forall lift code m c n (l : list ExceptionEntry.t) x0,
            (forall y, ExceptionEntry.used (lift y) = true) ->
            l !! n = Some x0 -> ExceptionEntry.used x0 = false ->
            (exists x, l !! c = Some x /\ at_rest x = true) ->
            exists x y,
              l !! c = Some x /\ at_rest x = true /\
              built lift code m (Some c) n l !! c = Some y /\
              ExceptionEntry.cause y = true /\
              built lift code m (Some c) n l !! n
              = Some (filled code m (Some c) (lift x0))).
  { intros lift code m c n l x0 Hlift Hn Hu (x & Hc & Hr).
    assert (Hne : c <> n).
    { intros ->. apply at_rest_used in Hr. congruence. }
    exists x, (ExceptionEntry.set_cause true x).
    split; [done|]. split; [done|]. split; [|split; [done|]].
    - rewrite lookup_built_ne by done. by rewrite lookup_marked_eq, Hc.
    - apply lookup_built_eq; [done|congruence]. }
  split; [|split; [|split]].
  - intros s r Hr.
    destruct (reachable_inv vformat s Hr) as (_ & _ & _ & Hb & _).
    apply count_if_le_1. intros i j x y. apply Hb.
  - intros s c x code msg args t Hc Hr. split.
    + rewrite exAlloc_run. unfold construct.
      by rewrite assert_cause_run, Hc, Hr.
    + rewrite exThrow_run. unfold construct.
      by rewrite assert_cause_run, Hc, Hr.
  - intros s c code msg args p s' H.
    apply exAlloc_Ok in H as (n & x0 & m & -> & _ & Hn & Hu & Hc & _ & ->).
    destruct (Hattach allocated code m c n (exceptionList s) x0)
      as (x & y & H1 & H2 & H3 & H4 & H5); [done|done|done|eauto|].
    exists x, y, n, (filled code m (Some c) (allocated x0)).
    by repeat split.
  - intros s c code msg args t j s' H.
    apply exThrow_Ok in H as (n & x0 & m & _ & _ & Hn & Hu & Hc & _ & ->).
    destruct (Hattach (fun y => launched t (allocated y)) code m c n
                (exceptionList s) x0)
      as (x & y & H1 & H2 & H3 & H4 & H5); [done|done|done|eauto|].
    exists x, y, n, (filled code m (Some c) (launched t (allocated x0))).
    repeat split; try done.
    + rewrite deliverable_find. intros Hnone.
      cbn [exceptionList] in Hnone.
      pose proof (find_index_None _ _ _ Hnone n _ H5) as Hf.
      cbn in Hf. by rewrite Nat.eqb_refl in Hf.
    + cbn. apply Nat.eqb_refl.
Qed.

(** C4.  In a reachable state, [exFree] of a record that is in use, not in
    flight and not the cause of a record in use returns, given fuel for the
    length of its cause chain, and has then cleared the in-use flag of every
    record of the chain, [k] distinct records that were in use, and touched
    nothing else.  On a record that is in flight, or has its cause bit set,
    or is the cause of a record in use, [exFree] aborts with the registries
    untouched. *)
Theorem exFree_whole_chain s i x :
  reachable vformat s ->
  exceptionList s !! i = Some x ->
  (ExceptionEntry.used x = true -> ExceptionEntry.thrown x = false ->
   (forall k y, exceptionList s !! k = Some y -> points_to i y = false) ->
   exists ch,
     cause_chain (exceptionList s) (Some i) ch /\ NoDup ch /\
     (forall k, k ∈ ch ->
        exists y, exceptionList s !! k = Some y /\
                  ExceptionEntry.used y = true) /\
     forall fuel, length ch <= fuel ->
       exists s',
         exFree fuel (Some i) s = Ok tt s' /\
         envList s' = envList s /\
         (forall k, k ∈ ch ->
            exists y, exceptionList s' !! k = Some y /\
                      ExceptionEntry.used y = false) /\
         (forall k, k ∉ ch -> exceptionList s' !! k = exceptionList s !! k) /\
         in_use (exceptionList s') + length ch = in_use (exceptionList s)) /\
  (ExceptionEntry.thrown x = true \/ ExceptionEntry.cause x = true \/
   (exists k y, exceptionList s !! k = Some y /\ points_to i y = true) ->
   forall fuel, exFree fuel (Some i) s = Violation s).
Proof.
  intros Hr Hi. destruct (reachable_inv vformat s Hr) as (_ & _ & Hexc).
  pose proof (reachable_cause_inv vformat s Hr) as Hci.
  pose proof Hexc as (Ha & Hb & Hc). split.
  - intros Hxu Hxt Hfree.
    assert (Hrest : at_rest x = true).
    { apply at_rest_true. split; [done|]. split; [|done].
      destruct (ExceptionEntry.cause x) eqn:Hxc; [|done].
      destruct (Hci i x Hi Hxu Hxc) as (k & y & Hk & Hp).
      by rewrite (Hfree k y Hk) in Hp. }
    destruct (Hc i x Hi Hxu) as [ch Hch].
    assert (Hused : forall k, k ∈ ch ->
              exists y, exceptionList s !! k = Some y /\
                        ExceptionEntry.used y = true).
    { apply (cause_chain_used _ (Some i) ch Ha Hch). intros ? [= <-].
      by exists x. }
    pose proof (cause_chain_NoDup _ _ _ Hch) as Hnd.
    exists ch. split; [done|]. split; [done|]. split; [done|].
    intros fuel Hfuel. eexists. split.
    { rewrite exFree_run, Hi, Hrest. by apply exFree_loop_run. }
    cbn [envList exceptionList]. split; [done|]. split; [|split].
    + intros k Hk. destruct (Hused k Hk) as (y & Hy & _).
      exists (ExceptionEntry.set_used false y). split; [|done].
      rewrite lookup_released, Hy. by rewrite bool_decide_eq_true_2.
    + intros k Hk. rewrite lookup_released. by rewrite bool_decide_eq_false_2.
    + by apply in_use_released.
  - intros Hbad fuel. rewrite exFree_run, Hi.
    assert (at_rest x = false) as ->; [|done].
    destruct (at_rest x) eqn:Hrest; [|done].
    apply at_rest_true in Hrest as (Hu & Hcb & Ht).
    destruct Hbad as [?|[?|(k & y & Hk & [Hyu Hyc]%points_to_true)]];
      [congruence|congruence|].
    destruct (Ha k y i Hk Hyu Hyc) as (x' & Hx' & _ & Hcx). congruence.
Qed.

(** C7.  When the formatted output has [MAX_MSG_LEN] characters or more,
    the [vsnprintf] call of [exAlloc] and [exThrow] stores, inside the
    buffer, its first [MAX_MSG_LEN - 1] characters and a NUL after them; the
    record they return or throw holds exactly that in [msg], a buffer of
    [MAX_MSG_LEN] bytes still, and the records of the other slots are as
    before.  The string it holds is that prefix, of length
    [MAX_MSG_LEN - 1], when the prefix has no NUL of its own. *)
Theorem message_truncated code cause msg args s :
  wf s ->
  MAX_MSG_LEN <= length (vformat msg args) ->
  let text := take (MAX_MSG_LEN - 1) (vformat msg args) in
  length text = MAX_MSG_LEN - 1 /\
  length (text ++ [x00]) = MAX_MSG_LEN /\
  (text ++ [x00]) !! (MAX_MSG_LEN - 1) = Some x00 /\
  (Forall (fun b => b <> x00) text ->
   c_str (text ++ [x00]) = text /\ c_strlen (text ++ [x00]) = MAX_MSG_LEN - 1) /\
  (forall buf, length buf = MAX_MSG_LEN ->
     vsnprintf buf MAX_MSG_LEN (vformat msg args) = Some (text ++ [x00])) /\
  (forall p s',
      exAlloc vformat code cause msg args s = Ok p s' ->
      wf s' /\
      exists n x,
        p = Some n /\ exceptionList s' !! n = Some x /\
        Exception.msg (ExceptionEntry.exception x) = text ++ [x00] /\
        forall k y', k <> n -> exceptionList s' !! k = Some y' ->
          exists y, exceptionList s !! k = Some y /\
            ExceptionEntry.exception y' = ExceptionEntry.exception y) /\
  (forall t j s',
      exThrow vformat t code cause msg args s = Ok j s' ->
      wf s' /\
      exists n x,
        deliverable t s' <> None /\ exceptionList s' !! n = Some x /\
        in_flight t x = true /\
        Exception.msg (ExceptionEntry.exception x) = text ++ [x00] /\
        forall k y', k <> n -> exceptionList s' !! k = Some y' ->
          exists y, exceptionList s !! k = Some y /\
            ExceptionEntry.exception y' = ExceptionEntry.exception y).
Proof.
  intros Hwf Hlen text.
  assert (Htext : length text = MAX_MSG_LEN - 1).
  { unfold text. rewrite length_take. unfold MAX_MSG_LEN in *. lia. }
  assert (Hrecord : forall lift n x0 m,
            exceptionList s !! n = Some x0 ->
            ExceptionEntry.used x0 = false ->
            (forall c, cause = Some c ->
               exists y, exceptionList s !! c = Some y /\ at_rest y = true) ->
            vsnprintf (Exception.msg (ExceptionEntry.exception x0)) MAX_MSG_LEN
              (vformat msg args) = Some m ->
            built lift code m cause n (exceptionList s) !! n
            = Some (filled code m cause (lift x0)) /\ m = text ++ [x00]).
  { intros lift n x0 m Hn Hu Hc Hm. split.
    - apply lookup_built_eq; [done|]. intros E.
      destruct (Hc n E) as (z & Hz & Hr%at_rest_used). congruence.
    - destruct Hwf as (_ & _ & Hmsg).
      rewrite (vsnprintf_truncates _ _ (Hmsg n x0 Hn) Hlen) in Hm.
      by inversion Hm. }
  split; [done|]. split; [|split; [|split; [|split; [|split]]]].
  - rewrite length_app, Htext. cbn [length]. unfold MAX_MSG_LEN. lia.
  - rewrite lookup_app_r by lia. rewrite Htext, Nat.sub_diag. done.
  - intros Hnul. unfold c_strlen. rewrite c_str_terminated by done.
    by split.
  - intros buf Hbuf. by apply vsnprintf_truncates.
  - intros p s' H.
    apply exAlloc_Ok in H as (n & x0 & m & -> & _ & Hn & Hu & Hc & Hm & ->).
    split; [by eapply wf_built|].
    destruct (Hrecord allocated n x0 m Hn Hu Hc Hm) as [Hnew ->].
    exists n, (filled code (text ++ [x00]) cause (allocated x0)).
    split; [done|]. split; [done|]. split; [done|].
    intros k y' Hk Hy'. by eapply built_others.
  - intros t j s' H.
    apply exThrow_Ok in H as (n & x0 & m & _ & _ & Hn & Hu & Hc & Hm & ->).
    split; [by eapply wf_built|].
    destruct (Hrecord (fun y => launched t (allocated y)) n x0 m Hn Hu Hc Hm)
      as [Hnew ->].
    exists n, (filled code (text ++ [x00]) cause (launched t (allocated x0))).
    split; [|split; [done|]; split; [|split; [done|]]].
    + rewrite deliverable_find. intros Hnone. cbn [exceptionList] in Hnone.
      pose proof (find_index_None _ _ _ Hnone n _ Hnew) as Hf.
      cbn in Hf. by rewrite Nat.eqb_refl in Hf.
    + cbn. apply Nat.eqb_refl.
    + intros k y' Hk Hy'. by eapply built_others.
Qed.

(** C8.  Let [exRepeat] of record [i] on thread [t] jump, and let the
    deliver that follows on [t] return.  The record was allocated and not in
    flight, and [exRepeat] changed its in-flight bit and owning thread only.
    When the deliver hands over record [i] - which it does unless a record
    before it in the pool is in flight on [t] too - the pool differs from the
    one before the repeat in the owning-thread field of record [i] only:
    code, message and cause reference of every record, hence the cause chain
    of [i] and the records on it, are as they were.  The slot released is the
    one [exRepeat] jumped to. *)
Theorem exRepeat_preserves_record t i s j s1 v out s2 :
  exRepeat t (Some i) s = Ok j s1 ->
  popCallingEnv t (VarOut v) s1 = Ok out s2 ->
  exists x,
    exceptionList s !! i = Some x /\
    ExceptionEntry.used x = true /\ ExceptionEntry.thrown x = false /\
    exceptionList s1 = alter (launched t) i (exceptionList s) /\
    last_slot t (envList s) = Some j /\
    envList s1 = envList s /\
    envList s2 = alter (EnvEntry.set_used false) j (envList s) /\
    ((forall k y, k < i -> exceptionList s !! k = Some y ->
                  in_flight t y = false) ->
     out = VarOut (Some i)) /\
    (out = VarOut (Some i) ->
     exceptionList s2 = alter (ExceptionEntry.set_thread t) i (exceptionList s) /\
     exceptionList s2 !! i = Some (ExceptionEntry.set_thread t x) /\
     (forall k, k <> i -> exceptionList s2 !! k = exceptionList s !! k) /\
     (forall e ch,
         cause_chain (exceptionList s) e ch ->
         cause_chain (exceptionList s2) e ch /\
         forall k, k ∈ ch ->
           exists y y2,
             exceptionList s !! k = Some y /\
             exceptionList s2 !! k = Some y2 /\
             ExceptionEntry.exception y2 = ExceptionEntry.exception y)).
Proof.
  intros (i' & x & [= <-] & Hi & Hu & Ht & Hj & ->)%exRepeat_Ok Hpop.
  apply popCallingEnv_Ok in Hpop as (j' & Hj' & Henv & Hexc).
  cbn [envList exceptionList] in *.
  assert (j' = j) by congruence. subst j'.
  assert (Hlaunched : alter (launched t) i (exceptionList s) !! i
                      = Some (launched t x)) by (by apply lookup_alter_Some).
  assert (Hflight : in_flight t (launched t x) = true)
    by (apply in_flight_true; by repeat split).
  exists x. do 7 (split; [done|]). split.
  - intros Hbefore.
    assert (Hf : find_index (in_flight t)
                   (alter (launched t) i (exceptionList s)) 0 = Some i).
    { apply (find_index_first (in_flight t) _ 0 i (launched t x));
        [done|done|].
      intros k y Hk Hy. rewrite list_lookup_alter_ne in Hy by lia. eauto. }
    destruct Hexc as [(i' & v' & Hf' & _ & -> & _)|(Hf' & _)]; congruence.
  - intros ->.
    destruct Hexc as [(i' & v' & Hf' & _ & [= <-] & Hexc)|(Hf' & _)].
    2:{ by rewrite (find_index_None _ _ _ Hf' i _ Hlaunched) in Hflight. }
    assert (Hs2 : exceptionList s2
                  = alter (ExceptionEntry.set_thread t) i (exceptionList s)).
    { rewrite Hexc, list_alter_alter_eq. apply list_alter_ext; [|done].
      intros y Hy. rewrite Hi in Hy. inversion Hy; subst y.
      destruct x as [ex u th c thr]. cbn in *. by subst th. }
    assert (Hsame : forall k y, exceptionList s !! k = Some y ->
              exists y2, exceptionList s2 !! k = Some y2 /\
                ExceptionEntry.exception y2 = ExceptionEntry.exception y).
    { intros k y Hy. rewrite Hs2. destruct (decide (k = i)) as [->|Hne].
      - rewrite (lookup_alter_Some _ _ _ _ Hy). eauto.
      - rewrite list_lookup_alter_ne by done. eauto. }
    split; [done|]. split; [|split].
    + rewrite Hs2. by apply lookup_alter_Some.
    + intros k Hk. rewrite Hs2. by apply list_lookup_alter_ne.
    + intros e ch Hch. split.
      * eapply cause_chain_agree; [|exact Hch]. intros k y _ Hy.
        destruct (Hsame k y Hy) as (y2 & Hy2 & E). exists y2. by rewrite E.
      * intros k Hk.
        destruct (cause_chain_suffix _ _ _ k Hch Hk) as (ch' & Hch' & _).
        inversion Hch' as [|k' y ch'' Hy _]; subst.
        destruct (Hsame k y Hy) as (y2 & Hy2 & E). eauto.
Qed.

End Claims.

(** ** Free records and the in-flight bit *)

Section Sparing.
Context {Template Args : Type} (vformat : Template -> Args -> list byte).

Lemma reachable_sparing_reachable s :
  reachable_sparing vformat s -> reachable vformat s.
Proof.
  induction 1 as [s H|s c s' _ IH _ Hex]; [by constructor|].
  by eapply reachable_step.
Qed.

Lemma grounded_built lift code m cause n x l :
  (forall y, ExceptionEntry.used (lift y) = true) ->
  (forall y, ExceptionEntry.cause (lift y) = false) ->
  grounded l ->
  l !! n = Some x -> ExceptionEntry.used x = false ->
  (forall c, cause = Some c ->
     exists y, l !! c = Some y /\ at_rest y = true) ->
  grounded (built lift code m cause n l).
Proof.
  intros Hlu Hlc Hg Hn Hu Hcause i y Hi Hy.
  assert (Hne : cause <> Some n).
  { intros E. destruct (Hcause n E) as (z & Hz & Hr%at_rest_used).
    congruence. }
  destruct (decide (i = n)) as [->|Hin].
  { rewrite (lookup_built_eq lift code m cause n l x Hn Hne) in Hi.
    inversion Hi; subst y. cbn in Hy. rewrite Hlu, Hlc in Hy.
    by destruct Hy. }
  rewrite lookup_built_ne in Hi by done.
  destruct (decide (cause = Some i)) as [->|Hci].
  - rewrite lookup_marked_eq in Hi.
    destruct (Hcause i eq_refl) as (z & Hz & Hr). rewrite Hz in Hi.
    inversion Hi; subst y. cbn. by apply at_rest_true in Hr as (_ & _ & ?).
  - rewrite lookup_marked_ne in Hi by done. eauto.
Qed.

Lemma exec_grounded c s s' :
  inv s -> grounded (exceptionList s) ->
  ~ repeats_a_cause c s -> exec vformat c s s' ->
  grounded (exceptionList s').
Proof.
  intros Hinv Hg Hnr Hex.
  destruct c as [t ctx|t e|code cause msg args|t code cause msg args|t e|e];
    cbn [exec] in Hex.
  - by destruct Hex as [j (x & _ & _ & _ & ->)%try_Ok].
  - destruct Hex as [e' (j & _ & _ & Hexc)%popCallingEnv_Ok].
    destruct Hexc as [(i & v & Hf & _ & _ & ->)|(_ & _ & ->)]; [|done].
    apply find_index_Some in Hf as (k & x & -> & Hk & _).
    intros i y Hi Hy.
    destruct (lookup_alter_inv _ _ _ _ _ _ Hk Hi) as [[-> ->]|[Hne Hi']];
      [done|eauto].
  - destruct Hex as [p (n & x & m & _ & _ & Hn & Hu & Hc & _ & ->)%exAlloc_Ok].
    by eapply grounded_built.
  - destruct Hex as [j (n & x & m & _ & _ & Hn & Hu & Hc & _ & ->)%exThrow_Ok].
    by eapply grounded_built.
  - destruct Hex as [j (i & x & -> & Hi & Hu & _ & _ & ->)%exRepeat_Ok].
    cbn [exceptionList]. intros k y Hk Hy.
    destruct (lookup_alter_inv _ _ _ _ _ _ Hi Hk) as [[-> ->]|[Hne Hk']];
      [|eauto].
    cbn in Hy. destruct Hy as [Hy|Hy]; [congruence|].
    exfalso. apply Hnr. cbn. eauto.
  - destruct Hex as [fuel H]. apply (exFree_Ok _ _ _ _ Hinv) in H
      as (i & x & ch & _ & Hi & Hr & Hch & _ & ->).
    cbn [exceptionList]. destruct Hinv as (_ & _ & Ha & Hb & _).
    intros k y Hk Hy. rewrite lookup_released in Hk.
    case_bool_decide as Hin; [|eauto].
    destruct (exceptionList s !! k) as [z|] eqn:Hz; inversion Hk; subst y.
    cbn. destruct (cause_chain_pred _ _ _ _ Hch Hin)
      as [->|(p & w & Hp & Hw & Hwc)].
    + rewrite Hi in Hz. inversion Hz; subst z.
      by apply at_rest_true in Hr as (_ & _ & ?).
    + destruct (cause_chain_used _ _ _ Ha Hch) with (k := p)
        as (w' & Hw' & Hwu); [intros ? [= <-]; eauto using at_rest_used|done|].
      rewrite Hw in Hw'. inversion Hw'; subst w'.
      destruct (Ha p w k Hw Hwu Hwc) as (z' & Hz' & _ & Hzc).
      rewrite Hz in Hz'. inversion Hz'; subst z'. apply (Hg k z Hz). by right.
Qed.

(** As long as [exRepeat] is never applied to a record whose cause bit is
    set, a record whose in-use flag is clear has its in-flight bit clear. *)
Lemma free_records_not_thrown s :
  reachable_sparing vformat s ->
  forall i x, exceptionList s !! i = Some x ->
    ExceptionEntry.used x = false -> ExceptionEntry.thrown x = false.
Proof.
  intros Hr. assert (Hg : grounded (exceptionList s)).
  { induction Hr as [s H|s c s' Hr IH Hnr Hex].
    - inversion H; subst. by intros i x ->%zeroed_exc.
    - eapply exec_grounded; [|exact IH|exact Hnr|exact Hex].
      by apply (reachable_inv vformat), reachable_sparing_reachable. }
  intros i x Hi Hu. apply (Hg i x Hi). by left.
Qed.

End Sparing.

(** ** Running sequences of calls *)

Section Runs.
Context {Template Args : Type} (vformat : Template -> Args -> list byte).

Lemma ok_state_Some {A} (r : Res A) s' :
  ok_state r = Some s' -> exists a, r = Ok a s'.
Proof. destruct r as [a s| | |]; [|done..]. intros [= <-]. by exists a. Qed.

Lemma run_call_exec c s s' :
  run_call vformat c s = Some s' -> exec vformat c s s'.
Proof.
  destruct c; cbn [run_call exec]; intros H%ok_state_Some; try done.
  destruct H as [[] H]. by exists EXCEPTION_LIST_SIZE.
Qed.

Lemma run_calls_reachable cs s s' :
  reachable vformat s -> run_calls vformat cs s = Some s' ->
  reachable vformat s'.
Proof.
  revert s. induction cs as [|c cs IH]; intros s Hr H; cbn [run_calls] in H.
  - by inversion H; subst.
  - destruct (run_call vformat c s) as [s1|] eqn:E; [|done].
    apply (IH s1); [|done]. eapply reachable_step; [exact Hr|].
    by apply run_call_exec.
Qed.

Lemma moves_blocks_false t (c : call Template Args) :
  moves_blocks t c = false -> keeps_blocks t c.
Proof. destruct c; cbn; try done; by intros ?%Nat.eqb_neq. Qed.

Lemma run_nested_entries t cs s0 s js js' s' :
  nested_entries vformat t s0 js s ->
  run_nested vformat t cs s js = Some (js', s') ->
  nested_entries vformat t s0 js' s'.
Proof.
  revert s js. induction cs as [|c cs IH]; intros s js Hn H;
    cbn [run_nested] in H.
  - by inversion H; subst.
  - destruct (moves_blocks t c) eqn:Em.
    + destruct c as [t' ctx| | | | |]; try done.
      destruct (try_ t ctx s) as [j s1| | |] eqn:Et; try done.
      apply (IH s1 (js ++ [(j, ctx)])); [|done]. by econstructor.
    + destruct (run_call vformat c s) as [s1|] eqn:E; [|done].
      apply (IH s1 js); [|done].
      eapply nested_other; [exact Hn|by apply moves_blocks_false|].
      by apply run_call_exec.
Qed.

Lemma reachable_zeroed : reachable vformat zeroed.
Proof. by apply reachable_init. Qed.

End Runs.

(** ** The concrete program *)

(** Closes an equation between closed terms by evaluation. *)
Ltac by_evaluation :=
  lazymatch goal with
  | |- ?l = ?r => exact (@eq_refl _ r <: l = r)
  end.

Lemma result_is_Ok {A} `{EqDecision A} (r : Res A) (a : A) :
  result_is r a = true -> r = Ok a (state_of r).
Proof.
  destruct r as [a' s| | |]; cbn; [|done..].
  by intros ->%bool_decide_eq_true.
Qed.

Lemma record_at_lookup s i :
  (i <? length (exceptionList s)) = true ->
  exceptionList s !! i = Some (record_at s i).
Proof.
  intros H%Nat.ltb_lt. unfold record_at.
  destruct (lookup_lt_is_Some_2 _ _ H) as [x ->]. done.
Qed.

Lemma state_after_reachable cs :
  completes cs = true -> reachable verbatim (state_after cs).
Proof.
  unfold completes, state_after.
  destruct (run_calls verbatim cs zeroed) as [s|] eqn:E; [|done].
  intros _. eapply run_calls_reachable; [apply reachable_zeroed|exact E].
Qed.

Lemma nested_state_entries t cs js :
  nested_slots t cs = Some js ->
  nested_entries verbatim t zeroed js (nested_state t cs).
Proof.
  unfold nested_slots, nested_state.
  destruct (run_nested verbatim t cs zeroed []) as [[js' s]|] eqn:E; [|done].
  intros [= <-].
  apply (run_nested_entries verbatim t cs zeroed zeroed [] js' s);
    [constructor|exact E].
Qed.

Lemma demo_enter_reachable : reachable verbatim (state_after demo_enter).
Proof. apply state_after_reachable. by_evaluation. Qed.

Lemma demo_throw_reachable : reachable verbatim (state_after demo_throw).
Proof. apply state_after_reachable. by_evaluation. Qed.

Lemma demo_caught_reachable : reachable verbatim (state_after demo_caught).
Proof. apply state_after_reachable. by_evaluation. Qed.

(** C1 at the concrete program: thread 1 has entered slots 0 and 2, thread 2
    slot 1 in between; a throw of thread 1 goes to slot 2. *)
Lemma exThrow_innermost_witness :
  getLastEnvEntry 1 (nested_state 1 demo_enter)
  = Ok (Some 2) (nested_state 1 demo_enter) /\
  exists s'',
    exThrow verbatim 1 exOther None [x61] tt (nested_state 1 demo_enter)
    = Ok 2 s''.
Proof.
  assert (Hn : nested_entries verbatim 1 zeroed [(0, 100); (2, 200)]
                 (nested_state 1 demo_enter)).
  { apply nested_state_entries. by_evaluation. }
  destruct (exThrow_innermost verbatim 1 zeroed [(0, 100); (2, 200)]
              (nested_state 1 demo_enter) 2 200
              (reachable_zeroed verbatim) Hn eq_refl)
    as (_ & Hlast & _ & Hjump).
  split; [exact Hlast|]. apply Hjump.
  exists 0, (record_at (nested_state 1 demo_enter) 0).
  split; [apply record_at_lookup|]; by_evaluation.
Defined.

(** C2 at the concrete program: the handler of thread 1 receives record 1,
    thrown by thread 1, and only its in-flight bit has changed. *)
Lemma popCallingEnv_delivers_once_witness :
  exists x,
    exceptionList (state_after demo_throw) !! 1 = Some x /\
    ExceptionEntry.thread x = 1 /\
    exceptionList
      (state_of (popCallingEnv 1 (VarOut None) (state_after demo_throw)))
    = alter (ExceptionEntry.set_thrown false) 1
            (exceptionList (state_after demo_throw)).
Proof.
  assert (Hpop : popCallingEnv 1 (VarOut None) (state_after demo_throw)
                 = Ok (VarOut (Some 1))
                      (state_of (popCallingEnv 1 (VarOut None)
                                   (state_after demo_throw)))).
  { apply result_is_Ok. by_evaluation. }
  destruct (popCallingEnv_delivers_once verbatim 1 (VarOut None) _ _ _ Hpop)
    as [_ H].
  assert (E : deliverable 1 (state_after demo_throw) = Some 1)
    by by_evaluation.
  rewrite E in H. destruct H as (x & Hx & _ & _ & Ht & _ & _ & Hexc & _).
  eauto.
Defined.

(** C3 at the concrete program: record 0 is the cause of record 1 only, and
    attaching it a second time aborts. *)
Lemma cause_of_at_most_one_witness :
  referrers 0 (exceptionList (state_after demo_throw)) <= 1 /\
  exAlloc verbatim exOther (Some 0) [x61] tt (state_after demo_throw)
  = Violation (state_after demo_throw).
Proof.
  destruct (cause_of_at_most_one verbatim) as (Hone & Hcheck & _ & _).
  split.
  - apply Hone, demo_throw_reachable.
  - apply (Hcheck (state_after demo_throw) 0
             (record_at (state_after demo_throw) 0) exOther [x61] tt 1);
      [apply record_at_lookup|]; by_evaluation.
Defined.

(** C4 at the concrete program: freeing the caught record 1 frees its cause,
    record 0, too; freeing record 0 itself aborts. *)
Lemma exFree_whole_chain_witness :
  (exists ch,
      cause_chain (exceptionList (state_after demo_caught)) (Some 1) ch /\
      NoDup ch /\
      forall fuel, length ch <= fuel ->
        exists s',
          exFree fuel (Some 1) (state_after demo_caught) = Ok tt s' /\
          in_use (exceptionList s') + length ch
          = in_use (exceptionList (state_after demo_caught))) /\
  forall fuel,
    exFree fuel (Some 0) (state_after demo_caught)
    = Violation (state_after demo_caught).
Proof.
  split.
  - destruct (exFree_whole_chain verbatim (state_after demo_caught) 1
                (record_at (state_after demo_caught) 1)
                demo_caught_reachable) as [Hfree _];
      [apply record_at_lookup; by_evaluation|].
    destruct Hfree as (ch & Hch & Hnd & _ & Hrun);
      [by_evaluation|by_evaluation| |].
    { apply (find_index_None _ _ 0). by_evaluation. }
    exists ch. split; [done|]. split; [done|]. intros fuel Hfuel.
    destruct (Hrun fuel Hfuel) as (s' & Hs' & _ & _ & _ & Hcount). eauto.
  - destruct (exFree_whole_chain verbatim (state_after demo_caught) 0
                (record_at (state_after demo_caught) 0)
                demo_caught_reachable) as [_ Hbad];
      [apply record_at_lookup; by_evaluation|].
    apply Hbad. right. left. by_evaluation.
Defined.

(** C5 as stated fails at the first entry of a thread: the slot gets level
    0, not 1 + 0. *)
Lemma pushCallingEnv_level_counterexample :
  exists j s' x,
    pushCallingEnv 1 zeroed = Ok j s' /\
    envList s' !! j = Some x /\
    open_blocks 1 (envList zeroed) = 0 /\
    EnvEntry.level x = 0%Z /\
    EnvEntry.level x <> (1 + Z.of_nat (open_blocks 1%nat (envList zeroed)))%Z.
Proof.
  exists 0, (state_of (pushCallingEnv 1 zeroed)), (EnvEntry.mk 0 true 0%Z 1).
  split; [apply result_is_Ok; by_evaluation|].
  split; [by_evaluation|]. split; [by_evaluation|].
  split; [done|]. assert (E : open_blocks 1 (envList zeroed) = 0)
    by by_evaluation.
  rewrite E. done.
Defined.

(** C5, amended, at the second entry of a thread. *)
Lemma pushCallingEnv_level_witness :
  exists x,
    envList (state_of (try_ 1 100 zeroed)) !! 1 = Some x /\
    envList (state_of (pushCallingEnv 1 (state_of (try_ 1 100 zeroed)))) !! 1
    = Some (EnvEntry.mk (EnvEntry.env x) true 1%Z 1).
Proof.
  assert (Hpush : pushCallingEnv 1 (state_of (try_ 1 100 zeroed))
                  = Ok 1 (state_of (pushCallingEnv 1
                                      (state_of (try_ 1 100 zeroed))))).
  { apply result_is_Ok. by_evaluation. }
  destruct (pushCallingEnv_level _ _ _ _ Hpush)
    as (x & Hx & _ & _ & Hnew & _).
  exists x. split; [done|].
  assert (E : open_blocks 1 (envList (state_of (try_ 1 100 zeroed))) = 1)
    by by_evaluation.
  by rewrite E in Hnew.
Defined.

(** C6 at the concrete program. *)
Lemma env_levels_contiguous_witness :
  env_inv (envList (state_after demo_enter)) /\
  env_inv (envList (state_of (pushCallingEnv 1 (state_after demo_enter)))) /\
  env_inv (envList (state_of (popCallingEnv 1 (VarOut None)
                                (state_after demo_throw)))).
Proof.
  destruct (env_levels_contiguous verbatim) as (Hreach & Hpush & Hpop).
  pose proof (Hreach _ demo_enter_reachable) as H1.
  pose proof (Hreach _ demo_throw_reachable) as H2.
  split; [done|]. split.
  - apply (Hpush (state_after demo_enter) 1 3); [done|].
    apply result_is_Ok. by_evaluation.
  - apply (Hpop (state_after demo_throw) 1 (VarOut None) (VarOut (Some 1)));
      [by_evaluation|done|]. apply result_is_Ok. by_evaluation.
Defined.

(** C7 at a template of [MAX_MSG_LEN + 2] characters. *)
Lemma message_truncated_witness :
  length (take (MAX_MSG_LEN - 1) long_text ++ [x00]) = MAX_MSG_LEN /\
  c_strlen (take (MAX_MSG_LEN - 1) long_text ++ [x00]) = MAX_MSG_LEN - 1 /\
  exists n x,
    exceptionList (state_of (exAlloc verbatim exOther None long_text tt zeroed))
    !! n = Some x /\
    Exception.msg (ExceptionEntry.exception x)
    = take (MAX_MSG_LEN - 1) long_text ++ [x00].
Proof.
  assert (Hlong : MAX_MSG_LEN <= length (verbatim long_text tt)).
  { apply Nat.leb_le. by_evaluation. }
  destruct inv_zeroed as (Hwf & _).
  pose proof (message_truncated verbatim exOther None long_text tt zeroed
                Hwf Hlong) as H.
  cbv zeta in H. destruct H as (_ & Hlen & _ & Hstr & _ & Halloc & _).
  split; [exact Hlen|]. split.
  - apply Hstr. apply Forall_forall. intros b Hb.
    apply list_elem_of_lookup in Hb as [i Hb].
    apply lookup_take_Some in Hb as [Hb _].
    unfold verbatim, long_text in Hb.
    apply lookup_replicate in Hb as [-> _]. done.
  - destruct (Halloc (Some 0)
                (state_of (exAlloc verbatim exOther None long_text tt zeroed)))
      as (_ & n & x & _ & Hx & Hm & _);
      [apply result_is_Ok; by_evaluation|]. eauto.
Defined.

(** C8 at the concrete program: the handler of the inner block repeats the
    caught record 1, and the handler of the outer block receives it. *)
Lemma exRepeat_preserves_record_witness :
  exists x,
    exceptionList (state_after demo_caught) !! 1 = Some x /\
    exceptionList
      (state_of (popCallingEnv 1 (VarOut None)
                   (state_of (exRepeat 1 (Some 1) (state_after demo_caught)))))
    !! 1 = Some (ExceptionEntry.set_thread 1 x).
Proof.
  destruct (exRepeat_preserves_record 1 1 (state_after demo_caught) 0
              (state_of (exRepeat 1 (Some 1) (state_after demo_caught)))
              None (VarOut (Some 1))
              (state_of (popCallingEnv 1 (VarOut None)
                 (state_of (exRepeat 1 (Some 1) (state_after demo_caught))))))
    as (x & Hx & _ & _ & _ & _ & _ & _ & _ & Hsame).
  - apply result_is_Ok. by_evaluation.
  - apply result_is_Ok. by_evaluation.
  - destruct (Hsame eq_refl) as (_ & Hx2 & _). eauto.
Defined.

(** C10 at the concrete program: the inner block of thread 1 ends normally. *)
Lemma popCallingEnv_normal_exit_witness :
  catch_normal 1 (state_after demo_enter)
  = Ok NullOut
       (mkState (alter (EnvEntry.set_used false) 2
                       (envList (state_after demo_enter)))
                (exceptionList (state_after demo_enter))).
Proof.
  destruct (popCallingEnv_normal_exit 1 (state_after demo_enter))
    as (_ & Hexit & _).
  - apply (find_index_None _ _ 0). by_evaluation.
  - apply Hexit. by_evaluation.
Defined.

(** C9 fails on the code.  [exRepeat] accepts a record that is the cause of
    another one, and [exFree] clears the in-use flag of the records of a
    cause chain without looking at their in-flight bit: after [demo_stale]
    record 0 is free with its in-flight bit still set for thread 1.  Once
    [exAlloc] has handed the slot out again, the record built in it, never
    thrown, counts as in flight on thread 1, and the normal exit of the block
    of thread 1 stores through [NULL]. *)
Theorem stale_thrown_bit_reachable :
  reachable verbatim (state_after demo_stale) /\
  (exists x,
      exceptionList (state_after demo_stale) !! 0 = Some x /\
      ExceptionEntry.used x = false /\ ExceptionEntry.thrown x = true) /\
  reachable verbatim (state_after demo_stale_reused) /\
  deliverable 1 (state_after demo_stale_reused) = Some 0 /\
  catch_normal 1 (state_after demo_stale_reused) = Undefined.
Proof.
  split; [apply state_after_reachable; by_evaluation|]. split.
  { exists (record_at (state_after demo_stale) 0).
    split; [apply record_at_lookup|split]; by_evaluation. }
  split; [apply state_after_reachable; by_evaluation|].
  split; by_evaluation.
Qed.

(** * Further properties of the code *)

Lemma all_used_no_unused l :
  (forall k x, l !! k = Some x -> EnvEntry.used x = true) ->
  find_index unused_env l 0 = None.
Proof.
  intros H. apply find_index_None_iff. intros j y Hy.
  unfold unused_env. by rewrite (H j y Hy).
Qed.

Lemma all_used_no_unused_exc l :
  (forall k x, l !! k = Some x -> ExceptionEntry.used x = true) ->
  find_index unused_exc l 0 = None.
Proof.
  intros H. apply find_index_None_iff. intros j y Hy.
  unfold unused_exc. by rewrite (H j y Hy).
Qed.

Lemma open_blocks_zero t l :
  length l = ENV_LIST_SIZE -> open_blocks t l = 0 -> last_slot t l = None.
Proof.
  intros Hlen H0. destruct (last_slot t l) as [j|] eqn:E; [|done].
  destruct (last_slot_Some t l j Hlen E) as (x & Hj & Ho & _).
  pose proof (count_if_pos (owned t) l j x Hj Ho) as Hpos.
  unfold open_blocks in H0. lia.
Qed.

Section Edges.
Context {Template Args : Type} (vformat : Template -> Args -> list byte).

(** X1.  The table of calling environments is shared by all threads.  When
    every slot is in use, whichever threads own them, [pushCallingEnv] finds
    no unused slot and stores through [NULL]; entering a protected block is
    then undefined.  When a slot is unused the entry succeeds, takes an unused
    slot at or before it, and the thread has one more block open. *)
Theorem try_capacity t ctx s :
  ((forall k x, envList s !! k = Some x -> EnvEntry.used x = true) ->
   pushCallingEnv t s = Undefined /\ try_ t ctx s = Undefined) /\
  (forall k x,
      envList s !! k = Some x -> EnvEntry.used x = false ->
      exists j s',
        try_ t ctx s = Ok j s' /\ j <= k /\
        open_blocks t (envList s') = open_blocks t (envList s) + 1 /\
        exceptionList s' = exceptionList s).
Proof.
  split.
  - intros Hfull. rewrite pushCallingEnv_run, try_run.
    by rewrite (all_used_no_unused _ Hfull).
  - intros k x Hk Hu. rewrite try_run.
    destruct (find_index unused_env (envList s) 0) as [j|] eqn:E.
    + pose proof E as (k' & y & -> & Hj & Hy & Hlt)%find_index_Some.
      eexists _, _. split; [done|]. cbn [envList exceptionList].
      split; [|split; [|done]].
      * destruct (le_lt_dec k' k) as [|Hlt']; [lia|].
        specialize (Hlt k x Hlt' Hk). unfold unused_env in Hlt.
        rewrite Hu in Hlt. done.
      * pose proof (count_if_alter (owned t)
                      (fun x0 => EnvEntry.set_env ctx
                         (reserve t (Z.of_nat (open_blocks t (envList s))) x0))
                      (envList s) k' y Hj) as Hc.
        rewrite (owned_unused t y) in Hc
          by (unfold unused_env in Hy; by destruct (EnvEntry.used y)).
        change (owned t (EnvEntry.set_env ctx (reserve t _ y)))
          with (t =? t) in Hc.
        rewrite Nat.eqb_refl in Hc. change (0 + k') with k'. unfold open_blocks in *. lia.
    + pose proof (find_index_None _ _ _ E k x Hk) as H.
      unfold unused_env in H. rewrite Hu in H. done.
Qed.

(** X2.  When every record of the pool is in use, [allocExceptionEntry]
    returns [NULL] and changes nothing, and neither [exAlloc] nor [exThrow]
    returns or jumps: the three assertions on the cause are evaluated first,
    so a cause that fails them aborts with the registries untouched, and
    otherwise the construction stores through [NULL]. *)
Theorem exception_pool_full code cause msg args t s :
  (forall k x, exceptionList s !! k = Some x -> ExceptionEntry.used x = true) ->
  allocExceptionEntry s = Ok None s /\
  (exAlloc vformat code cause msg args s = Undefined \/
   exAlloc vformat code cause msg args s = Violation s) /\
  (exThrow vformat t code cause msg args s = Undefined \/
   exThrow vformat t code cause msg args s = Violation s) /\
  ((cause = None \/
    exists c y, cause = Some c /\ exceptionList s !! c = Some y /\
                at_rest y = true) ->
   exAlloc vformat code cause msg args s = Undefined /\
   exThrow vformat t code cause msg args s = Undefined).
Proof.
  intros Hfull. pose proof (all_used_no_unused_exc _ Hfull) as Hf.
  rewrite allocExceptionEntry_run, exAlloc_run, exThrow_run, Hf.
  unfold construct. rewrite assert_cause_run, Hf.
  split; [done|].
  destruct cause as [c|].
  - destruct (exceptionList s !! c) as [y|] eqn:Hc.
    + destruct (at_rest y) eqn:Hr.
      * repeat split; auto.
      * split; [by right|]. split; [by right|].
        intros [|(c' & y' & [= <-] & Hy' & Hr')]; [done|]. congruence.
    + repeat split; auto.
  - repeat split; auto.
Qed.

(** X3.  A thread with no protected block open has no calling environment:
    [getLastEnvEntry] returns [NULL], whatever blocks other threads have
    open.  [popCallingEnv] then stores through [NULL], and [exThrow] and
    [exRepeat] never jump: they abort on a failed assertion or end in a
    [longjmp] through [NULL]. *)
Theorem no_open_block t s :
  length (envList s) = ENV_LIST_SIZE ->
  open_blocks t (envList s) = 0 ->
  getLastEnvEntry t s = Ok None s /\
  (forall e, popCallingEnv t e s = Undefined) /\
  (forall code cause msg args j s',
      exThrow vformat t code cause msg args s <> Ok j s') /\
  (forall code msg args, exThrow vformat t code None msg args s = Undefined) /\
  (forall e j s', exRepeat t e s <> Ok j s') /\
  (forall i x,
      exceptionList s !! i = Some x ->
      ExceptionEntry.used x = true -> ExceptionEntry.thrown x = false ->
      exRepeat t (Some i) s = Undefined).
Proof.
  intros Hlen H0. pose proof (open_blocks_zero t _ Hlen H0) as Hlast.
  split; [by rewrite getLastEnvEntry_run, Hlast|].
  split; [intros e; by rewrite popCallingEnv_run, Hlast|].
  split; [|split; [|split]].
  - intros code cause msg args j s' (n & x & m & Hl & _)%exThrow_Ok. congruence.
  - intros code msg args. rewrite exThrow_run. unfold construct.
    rewrite assert_cause_run, Hlast.
    destruct (find_index unused_exc (exceptionList s) 0) as [n|]; [|done].
    destruct (exceptionList s !! n) as [x|]; [|done].
    by destruct (vsnprintf _ _ _).
  - intros e j s' (i & x & _ & _ & _ & _ & Hl & _)%exRepeat_Ok. congruence.
  - intros i x Hi Hu Ht. by rewrite exRepeat_run, Hi, Hu, Ht, Hlast.
Qed.

(** X4.  [getExceptionEntry] returns the pool entry of a pointer to a record
    of the pool and [NULL] for every other pointer, [NULL] included, and
    changes nothing.  The callers dereference the result unchecked: [exFree]
    and [exRepeat] of [NULL] or of a pointer that is not a record of the pool
    are undefined ([exFree (NULL)] is no no-op), and so are [exAlloc] and
    [exThrow] with such a pointer as the cause. *)
Theorem pointer_outside_pool e s :
  (e = None \/ exists i, e = Some i /\ length (exceptionList s) <= i) ->
  getExceptionEntry e s = Ok None s /\
  (forall i, i < length (exceptionList s) ->
             getExceptionEntry (Some i) s = Ok (Some i) s) /\
  (forall fuel, exFree fuel e s = Undefined) /\
  (forall t, exRepeat t e s = Undefined) /\
  (e <> None ->
   forall code msg args t,
     exAlloc vformat code e msg args s = Undefined /\
     exThrow vformat t code e msg args s = Undefined).
Proof.
  intros He. split; [|split; [|split; [|split]]].
  - destruct He as [->|(i & -> & Hi)]; [apply getExceptionEntry_null|].
    apply getExceptionEntry_outside. by apply lookup_ge_None.
  - intros i Hi. destruct (lookup_lt_is_Some_2 _ _ Hi) as [x Hx].
    by eapply getExceptionEntry_pool.
  - intros fuel. rewrite exFree_run.
    destruct He as [->|(i & -> & Hi)]; [done|].
    by rewrite (proj2 (lookup_ge_None _ _) Hi).
  - intros t. rewrite exRepeat_run.
    destruct He as [->|(i & -> & Hi)]; [done|].
    by rewrite (proj2 (lookup_ge_None _ _) Hi).
  - intros Hne code msg args t.
    destruct He as [->|(i & -> & Hi)]; [done|].
    rewrite exAlloc_run, exThrow_run. unfold construct.
    rewrite assert_cause_run. by rewrite (proj2 (lookup_ge_None _ _) Hi).
Qed.

(** X5.  Once [exFree] has returned, every record it released - the record
    passed and the records of its cause chain - fails the in-use assertion of
    each function it is passed to, as long as its slot has not been handed
    out again: a second [exFree], an [exRepeat], and an [exAlloc] or
    [exThrow] naming it as the cause all abort with the registries
    untouched. *)
Theorem use_after_free fuel i s s' :
  reachable vformat s ->
  exFree fuel (Some i) s = Ok tt s' ->
  exists ch,
    cause_chain (exceptionList s) (Some i) ch /\ i ∈ ch /\
    forall k, k ∈ ch ->
      (forall fuel', exFree fuel' (Some k) s' = Violation s') /\
      (forall t, exRepeat t (Some k) s' = Violation s') /\
      (forall code msg args,
          exAlloc vformat code (Some k) msg args s' = Violation s') /\
      (forall t code msg args,
          exThrow vformat t code (Some k) msg args s' = Violation s').
Proof.
  intros Hr Hfree. pose proof (reachable_inv vformat s Hr) as Hinv.
  pose proof Hinv as (_ & _ & Ha & _).
  apply (exFree_Ok _ _ _ _ Hinv) in Hfree
    as (i' & x & ch & [= <-] & Hi & Hrest & Hch & _ & ->).
  exists ch. split; [done|]. split.
  { inversion Hch; subst. left. }
  intros k Hk.
  destruct (cause_chain_used _ (Some i) ch Ha Hch) with (k := k)
    as (y & Hy & Hyu); [intros ? [= <-]; eauto using at_rest_used|done|].
  assert (Hk' : exceptionList
                  (mkState (envList s) (released ch (exceptionList s))) !! k
                = Some (ExceptionEntry.set_used false y)).
  { cbn [exceptionList]. rewrite lookup_released, Hy.
    by rewrite bool_decide_eq_true_2. }
  repeat split.
  - intros fuel'. by rewrite exFree_run, Hk'.
  - intros t. by rewrite exRepeat_run, Hk'.
  - intros code msg args. rewrite exAlloc_run. unfold construct.
    by rewrite assert_cause_run, Hk'.
  - intros t code msg args. rewrite exThrow_run. unfold construct.
    by rewrite assert_cause_run, Hk'.
Qed.

End Edges.

(** ** Calls of the other threads *)

Section Others.
Context {Template Args : Type} (vformat : Template -> Args -> list byte).

Lemma by_others_keeps_blocks t (c : call Template Args) :
  by_others t c -> keeps_blocks t c.
Proof. by destruct c. Qed.

Lemma in_flight_unused t x :
  ExceptionEntry.used x = false -> in_flight t x = false.
Proof. unfold in_flight. by intros ->. Qed.

Lemma in_flight_not_thrown t x :
  ExceptionEntry.thrown x = false -> in_flight t x = false.
Proof. unfold in_flight. intros ->. by rewrite andb_false_r. Qed.

Lemma in_flight_other t t' x :
  ExceptionEntry.thread x = t' -> t' <> t -> in_flight t x = false.
Proof.
  unfold in_flight. intros -> Hne.
  rewrite (proj2 (Nat.eqb_neq _ _) Hne). by rewrite andb_false_r.
Qed.

(** The pool after a construction: the records in flight on [t] are those
    that were, untouched, and the new record if [lift] launched it on [t]. *)
Lemma built_in_flight lift code m cause n x l t k :
  grounded l ->
  l !! n = Some x -> ExceptionEntry.used x = false ->
  (forall c, cause = Some c ->
     exists y, l !! c = Some y /\ at_rest y = true) ->
  k <> n ->
  (forall y, l !! k = Some y -> in_flight t y = true ->
             built lift code m cause n l !! k = Some y) /\
  (forall y', built lift code m cause n l !! k = Some y' ->
              in_flight t y' = true -> l !! k = Some y').
Proof.
  intros Hg Hn Hu Hcause Hk. rewrite lookup_built_ne by done.
  destruct (decide (cause = Some k)) as [->|Hck].
  - destruct (Hcause k eq_refl) as (z & Hz & (_ & _ & Hzt)%at_rest_true).
    rewrite lookup_marked_eq, Hz. split.
    + intros y [= <-] Hy. by rewrite in_flight_not_thrown in Hy.
    + intros y' [= <-] Hy'. by rewrite in_flight_not_thrown in Hy'.
  - rewrite lookup_marked_ne by done. by split.
Qed.

(** A call not made by [t] neither puts a record in flight on [t] nor
    touches one that is. *)
Lemma by_others_in_flight c t s s' k :
  inv s -> grounded (exceptionList s) ->
  by_others t c -> ~ repeats_a_cause c s -> exec vformat c s s' ->
  (forall y, exceptionList s !! k = Some y -> in_flight t y = true ->
             exceptionList s' !! k = Some y) /\
  (forall y', exceptionList s' !! k = Some y' -> in_flight t y' = true ->
              exceptionList s !! k = Some y').
Proof.
  intros Hinv Hg Hby Hnr Hex.
  destruct c as [t' ctx|t' e|code cause msg args|t' code cause msg args|t' e|e];
    cbn [exec by_others] in *.
  - destruct Hex as [j (x & _ & _ & _ & ->)%try_Ok]. by split.
  - destruct Hex as [e' (j & _ & _ & Hexc)%popCallingEnv_Ok].
    destruct Hexc as [(i & v & Hf & _ & _ & ->)|(_ & _ & ->)]; [|by split].
    apply find_index_Some in Hf as (i' & x & -> & Hi & Hx & _).
    cbn [Nat.add]. apply in_flight_true in Hx as (_ & _ & Hxt).
    destruct (decide (k = i')) as [->|Hne].
    + rewrite (lookup_alter_Some _ _ _ _ Hi), Hi. split.
      * intros y [= <-] Hy. by rewrite (in_flight_other t t' x) in Hy.
      * intros y' [= <-] Hy'. by rewrite in_flight_not_thrown in Hy'.
    + rewrite list_lookup_alter_ne by done. by split.
  - destruct Hex as [p (n & x & m & _ & _ & Hn & Hu & Hc & _ & ->)%exAlloc_Ok].
    cbn [exceptionList].
    destruct (decide (k = n)) as [->|Hne]; [|by eapply built_in_flight].
    assert (Hcn : cause <> Some n).
    { intros E. destruct (Hc n E) as (z & Hz & Hr%at_rest_used). congruence. }
    rewrite (lookup_built_eq _ _ _ _ _ _ x Hn Hcn), Hn. split.
    + intros y [= <-] Hy. by rewrite in_flight_unused in Hy.
    + intros y' [= <-] Hy'. rewrite in_flight_not_thrown in Hy'; [done|].
      cbn. apply (Hg n x Hn). by left.
  - destruct Hex as [j (n & x & m & _ & _ & Hn & Hu & Hc & _ & ->)%exThrow_Ok].
    cbn [exceptionList].
    destruct (decide (k = n)) as [->|Hne]; [|by eapply built_in_flight].
    assert (Hcn : cause <> Some n).
    { intros E. destruct (Hc n E) as (z & Hz & Hr%at_rest_used). congruence. }
    rewrite (lookup_built_eq _ _ _ _ _ _ x Hn Hcn), Hn. split.
    + intros y [= <-] Hy. by rewrite in_flight_unused in Hy.
    + intros y' [= <-] Hy'. by rewrite (in_flight_other t t') in Hy'.
  - destruct Hex as [j (i & x & _ & Hi & _ & Hxt & _ & ->)%exRepeat_Ok].
    cbn [exceptionList]. destruct (decide (k = i)) as [->|Hne].
    + rewrite (lookup_alter_Some _ _ _ _ Hi), Hi. split.
      * intros y [= <-] Hy. by rewrite in_flight_not_thrown in Hy.
      * intros y' [= <-] Hy'. by rewrite (in_flight_other t t') in Hy'.
    + rewrite list_lookup_alter_ne by done. by split.
  - destruct Hex as [fuel H]. apply (exFree_Ok _ _ _ _ Hinv) in H
      as (i & x & ch & _ & Hi & Hr & Hch & _ & ->).
    cbn [exceptionList]. rewrite lookup_released.
    case_bool_decide as Hin; [|by split].
    destruct Hinv as (_ & _ & Ha & _).
    destruct (exceptionList s !! k) as [z|] eqn:Hz; [|by split].
    assert (Hzt : ExceptionEntry.thrown z = false).
    { destruct (cause_chain_pred _ _ _ _ Hch Hin)
        as [->|(p & w & Hp & Hw & Hwc)].
      - rewrite Hi in Hz. inversion Hz; subst z.
        by apply at_rest_true in Hr as (_ & _ & ?).
      - destruct (cause_chain_used _ _ _ Ha Hch) with (k := p)
          as (w' & Hw' & Hwu);
          [intros ? [= <-]; eauto using at_rest_used|done|].
        rewrite Hw in Hw'. inversion Hw'; subst w'.
        destruct (Ha p w k Hw Hwu Hwc) as (z' & Hz' & _ & Hzc).
        rewrite Hz in Hz'. inversion Hz'; subst z'.
        apply (Hg k z Hz). by right. }
    split.
    + intros y [= <-] Hy. by rewrite in_flight_not_thrown in Hy.
    + intros y' [= <-] Hy'. by rewrite in_flight_unused in Hy'.
Qed.

Lemma same_blocks_trans t l1 l2 l3 :
  same_blocks t l1 l2 -> same_blocks t l2 l3 -> same_blocks t l1 l3.
Proof.
  intros [H1 H2] [H3 H4]. split; [congruence|].
  intros k x Hx. by rewrite (H2 k x Hx), (H4 k x Hx).
Qed.

Lemma others_run_spec t s s' :
  inv s -> grounded (exceptionList s) -> others_run vformat t s s' ->
  inv s' /\ grounded (exceptionList s') /\
  same_blocks t (envList s) (envList s') /\
  forall k,
    (forall y, exceptionList s !! k = Some y -> in_flight t y = true ->
               exceptionList s' !! k = Some y) /\
    (forall y', exceptionList s' !! k = Some y' -> in_flight t y' = true ->
                exceptionList s !! k = Some y').
Proof.
  intros Hinv Hg H.
  induction H as [s|s c s1 s2 _ IH Hby Hnr Hex].
  - split; [done|]. split; [done|]. split; [apply same_blocks_refl|].
    intros k. by split.
  - destruct (IH Hinv Hg) as (Hinv1 & Hg1 & Hsame & Hfl).
    pose proof Hinv1 as ((Hlen & _) & _).
    split; [by eapply exec_inv|]. split; [by eapply exec_grounded|]. split.
    + eapply same_blocks_trans; [exact Hsame|].
      eapply keeps_blocks_frame; [done|exact Hex|].
      by apply by_others_keeps_blocks.
    + intros k.
      destruct (by_others_in_flight c t s1 s2 k Hinv1 Hg1 Hby Hnr Hex)
        as [Hfwd Hback].
      destruct (Hfl k) as [Hfwd0 Hback0]. split.
      * intros y Hy Hfy. apply Hfwd; [|done]. by apply Hfwd0.
      * intros y' Hy' Hfy'. apply Hback0; [|done]. by apply Hback.
Qed.

Lemma reachable_sparing_grounded s :
  reachable_sparing vformat s -> grounded (exceptionList s).
Proof.
  induction 1 as [s H|s c s' Hr IH Hnr Hex].
  - inversion H; subst. by intros i x ->%zeroed_exc.
  - eapply exec_grounded; [|exact IH|exact Hnr|exact Hex].
    by apply (reachable_inv vformat), reachable_sparing_reachable.
Qed.

(** The slot a thread's innermost block occupies stays its innermost slot
    while the thread neither enters nor leaves a block. *)
Lemma same_blocks_last_slot t l l' j :
  length l = ENV_LIST_SIZE -> length l' = ENV_LIST_SIZE ->
  env_inv l -> env_inv l' ->
  same_blocks t l l' -> last_slot t l = Some j ->
  last_slot t l' = Some j /\
  exists x, l !! j = Some x /\ l' !! j = Some x /\ owned t x = true.
Proof.
  intros Hlen Hlen' Hinv Hinv' [Hcount Hsame] Hlast.
  destruct (last_slot_Some t l j Hlen Hlast) as (x & Hj & Ho & Hmax).
  pose proof (env_inv_top t j x l Hinv Hj Ho Hmax) as Htop.
  assert (Hj' : l' !! j = Some x) by (by apply Hsame).
  split; [|by exists x].
  eapply last_slot_innermost; [done|done|exact Hj'|done|]. by rewrite Hcount.
Qed.

(** X10.  Thread isolation of a throw.  Let thread [t], with nothing in
    flight, throw in a state reached without [exRepeat] of a cause, and let
    the other threads then make any calls (again no [exRepeat] of a cause)
    before the handler of [t] runs.  The record thrown stays in flight on
    [t], untouched; the slot [exThrow] jumped to stays the innermost slot of
    [t]; and [popCallingEnv] of [t] returns, releases that slot and hands
    over exactly that record, which then passes the assertions of [exFree],
    [exRepeat] and of a cause of [exAlloc] and [exThrow]. *)
Theorem exThrow_delivered_intact t code cause msg args s j s1 s2 v :
  reachable_sparing vformat s ->
  (forall k y, exceptionList s !! k = Some y -> in_flight t y = false) ->
  exThrow vformat t code cause msg args s = Ok j s1 ->
  others_run vformat t s1 s2 ->
  exists n x s3,
    exceptionList s1 !! n = Some x /\
    in_flight t x = true /\
    Exception.code (ExceptionEntry.exception x) = code /\
    Exception.cause (ExceptionEntry.exception x) = cause /\
    exceptionList s2 !! n = Some x /\
    (forall k y, exceptionList s2 !! k = Some y -> in_flight t y = true ->
                 k = n) /\
    (forall t' fuel code' msg' args',
        exRepeat t' (Some n) s2 = Violation s2 /\
        exFree fuel (Some n) s2 = Violation s2 /\
        exAlloc vformat code' (Some n) msg' args' s2 = Violation s2 /\
        exThrow vformat t' code' (Some n) msg' args' s2 = Violation s2) /\
    popCallingEnv t (VarOut v) s2 = Ok (VarOut (Some n)) s3 /\
    exceptionList s3
    = alter (ExceptionEntry.set_thrown false) n (exceptionList s2) /\
    exceptionList s3 !! n = Some (ExceptionEntry.set_thrown false x) /\
    at_rest (ExceptionEntry.set_thrown false x) = true /\
    envList s3 = alter (EnvEntry.set_used false) j (envList s2) /\
    (exists e, envList s !! j = Some e /\ envList s2 !! j = Some e /\
               owned t e = true) /\
    open_blocks t (envList s3) + 1 = open_blocks t (envList s).
Proof.
  intros Hr Hnone Hthrow Hrun.
  pose proof (reachable_inv vformat s
                (reachable_sparing_reachable vformat s Hr)) as Hinv.
  pose proof (reachable_sparing_grounded s Hr) as Hg.
  assert (Hinv1 : inv s1).
  { apply (exec_inv vformat (Throw t code cause msg args) s s1 Hinv).
    by exists j. }
  assert (Hg1 : grounded (exceptionList s1)).
  { apply (exec_grounded vformat (Throw t code cause msg args) s s1 Hinv Hg);
      [by intros []|by exists j]. }
  apply exThrow_Ok in Hthrow
    as (n & x0 & m & Hlast & _ & Hn & Hu & Hc & Hm & ->).
  cbn [envList exceptionList] in *.
  assert (Hcn : cause <> Some n).
  { intros E. destruct (Hc n E) as (z & Hz & Hz'%at_rest_used). congruence. }
  set (x := filled code m cause (launched t (allocated x0))).
  pose proof (lookup_built_eq (fun y => launched t (allocated y))
                code m cause n _ x0 Hn Hcn) as Hx. fold x in Hx.
  assert (Hxf : in_flight t x = true) by (cbn; apply Nat.eqb_refl).
  destruct (others_run_spec t _ s2 Hinv1 Hg1 Hrun)
    as (Hinv2 & Hg2 & Hsame & Hfl).
  cbn [envList exceptionList] in *.
  assert (Hx2 : exceptionList s2 !! n = Some x) by (by apply (Hfl n)).
  assert (Honly : forall k y, exceptionList s2 !! k = Some y ->
                    in_flight t y = true -> k = n).
  { intros k y Hy Hyf. destruct (decide (k = n)) as [|Hne]; [done|].
    apply (Hfl k) in Hy; [|done].
    apply (built_in_flight (fun z => launched t (allocated z)) code m cause
             n x0 _ t k Hg Hn Hu Hc Hne) in Hy; [|done].
    by rewrite (Hnone k y Hy) in Hyf. }
  assert (Hf : find_index (in_flight t) (exceptionList s2) 0 = Some n).
  { apply (find_index_first (in_flight t) _ 0 n x); [done|done|].
    intros k y Hk Hy. destruct (in_flight t y) eqn:E; [|done].
    specialize (Honly k y Hy E). lia. }
  pose proof Hinv as ((Hlen & _) & Henv & _).
  pose proof Hinv2 as ((Hlen2 & _) & Henv2 & _).
  destruct (same_blocks_last_slot t _ _ j Hlen Hlen2 Henv Henv2 Hsame Hlast)
    as (Hlast2 & e & He & He2 & Heo).
  exists n, x. eexists.
  split; [done|]. split; [done|]. split; [done|]. split; [done|].
  split; [done|]. split; [done|].
  split.
  { intros t' fuel code' msg' args'.
    rewrite exRepeat_run, exFree_run, exAlloc_run, exThrow_run.
    unfold construct. rewrite assert_cause_run, Hx2. done. }
  split; [by rewrite popCallingEnv_run, Hlast2, Hf|].
  cbn [envList exceptionList]. split; [done|].
  split; [by apply lookup_alter_Some|].
  split.
  { apply at_rest_true. cbn. done. }
  split; [done|]. split; [by exists e|].
  pose proof (open_blocks_release t t j e _ He2 Heo) as Hrel.
  rewrite Nat.eqb_refl in Hrel. destruct Hsame as [Hcount _]. lia.
Qed.


End Others.

(** ** Leaving nested blocks *)

Section Unwinding.
Context {Template Args : Type} (vformat : Template -> Args -> list byte).

(** Every block entered, not only the last one, keeps its slot, its saved
    context and its level. *)
Lemma nested_entries_levels t s js s' :
  inv s -> nested_entries vformat t s js s' ->
  forall p j ctx, js !! p = Some (j, ctx) ->
    exists x, envList s' !! j = Some x /\ owned t x = true /\
              EnvEntry.env x = ctx /\
              EnvEntry.level x = Z.of_nat (open_blocks t (envList s) + p).
Proof.
  intros Hinv H.
  induction H as [s|s js s1 ctx j s2 Hn IH Htry|s js s1 c s2 Hn IH Hk Hex];
    intros p j' ctx' Hp.
  - done.
  - destruct (nested_entries_spec vformat t s js s1 Hinv Hn)
      as (Hinv1 & Hcount & _).
    pose proof Htry as (x & _ & Hj & Hu & ->)%try_Ok. cbn [envList].
    destruct (decide (p = length js)) as [->|Hne].
    + rewrite lookup_app_r, Nat.sub_diag in Hp by lia. inversion Hp; subst.
      eexists. split.
      { apply lookup_alter_Some. by apply lookup_alter_Some. }
      split; [apply Nat.eqb_refl|]. split; [done|]. cbn. by rewrite Hcount.
    + assert (Hlt : p < length js).
      { apply lookup_lt_Some in Hp. rewrite length_app in Hp. cbn in Hp. lia. }
      rewrite lookup_app_l in Hp by done.
      destruct (IH Hinv p j' ctx' Hp) as (y & Hy & Ho & He & Hl).
      exists y. split; [|done].
      assert (j' <> j).
      { intros ->. rewrite Hj in Hy. inversion Hy; subst y.
        by rewrite (owned_unused t x Hu) in Ho. }
      by rewrite !list_lookup_alter_ne.
  - destruct (nested_entries_spec vformat t s js s1 Hinv Hn)
      as (Hinv1 & _ & _).
    pose proof Hinv1 as ((Hlen & _) & _).
    destruct (keeps_blocks_frame vformat c t s1 s2 Hlen Hex Hk) as [_ Hsame].
    destruct (IH Hinv p j' ctx' Hp) as (y & Hy & Ho & He & Hl).
    exists y. split; [by apply Hsame|done].
Qed.

(** X12.  Leaving the innermost block uncovers the enclosing one.  When
    thread [t] has entered blocks ending with the blocks of slots [j1]
    and then [j2], whatever other calls were made meanwhile, a
    [popCallingEnv] of [t] releases [j2], and from then on [getLastEnvEntry]
    returns [j1], which still holds the context saved by its entry: an
    [exRepeat] or [exThrow] in the handler of the inner block jumps to the
    enclosing block. *)
Theorem popCallingEnv_uncovers_enclosing t s js j1 ctx1 j2 ctx2 s1 e e' s2 :
  reachable vformat s ->
  nested_entries vformat t s (js ++ [(j1, ctx1); (j2, ctx2)]) s1 ->
  popCallingEnv t e s1 = Ok e' s2 ->
  j1 <> j2 /\
  envList s2 = alter (EnvEntry.set_used false) j2 (envList s1) /\
  getLastEnvEntry t s2 = Ok (Some j1) s2 /\
  (exists x, envList s2 !! j1 = Some x /\ owned t x = true /\
             EnvEntry.env x = ctx1) /\
  (forall i target s3, exRepeat t i s2 = Ok target s3 -> target = j1) /\
  (forall code cause msg args target s3,
      exThrow vformat t code cause msg args s2 = Ok target s3 -> target = j1).
Proof.
  intros Hr Hn Hpop. pose proof (reachable_inv vformat s Hr) as Hinv.
  destruct (nested_entries_spec vformat t s _ s1 Hinv Hn)
    as (Hinv1 & Hcount & _).
  rewrite length_app in Hcount. cbn [length] in Hcount.
  pose proof (nested_entries_levels t s _ s1 Hinv Hn) as Hlev.
  destruct (Hlev (length js) j1 ctx1) as (x1 & Hx1 & Ho1 & He1 & Hl1).
  { by rewrite lookup_app_r, Nat.sub_diag by lia. }
  destruct (Hlev (S (length js)) j2 ctx2) as (x2 & Hx2 & Ho2 & He2 & Hl2).
  { rewrite lookup_app_r by lia.
    by replace (S (length js) - length js) with 1 by lia. }
  assert (Hne : j1 <> j2).
  { intros ->. rewrite Hx1 in Hx2. inversion Hx2; subst x2. lia. }
  pose proof Hinv1 as ((Hlen1 & _) & Henv1 & _).
  assert (Hlast1 : last_slot t (envList s1) = Some j2).
  { eapply last_slot_innermost; [done|done|exact Hx2|done|]. lia. }
  assert (Hinv2 : inv s2).
  { apply (exec_inv vformat (Catch t e) s1 s2 Hinv1). by exists e'. }
  apply popCallingEnv_Ok in Hpop as (j' & Hj' & Henv & _).
  assert (j' = j2) by congruence. subst j'.
  pose proof Hinv2 as ((Hlen2 & _) & Henv2 & _).
  assert (Hx1' : envList s2 !! j1 = Some x1).
  { rewrite Henv. by rewrite list_lookup_alter_ne. }
  assert (Hlast2 : last_slot t (envList s2) = Some j1).
  { eapply last_slot_innermost; [done|done|exact Hx1'|done|].
    pose proof (open_blocks_release t t j2 x2 _ Hx2 Ho2) as Hrel.
    rewrite Nat.eqb_refl, <- Henv in Hrel. lia. }
  split; [done|]. split; [done|].
  split; [by rewrite getLastEnvEntry_run, Hlast2|].
  split; [by exists x1|]. split.
  - intros i target s3 (i' & y & _ & _ & _ & _ & Hl & _)%exRepeat_Ok.
    congruence.
  - intros code cause msg args target s3
      (n & y & m & Hl & _)%exThrow_Ok. congruence.
Qed.

End Unwinding.

(** ** The links written by exInit *)

Lemma length_16 {A} (l : list A) :
  length l = 16 ->
  exists a0 a1 a2 a3 a4 a5 a6 a7 a8 a9 a10 a11 a12 a13 a14 a15,
    l = [a0; a1; a2; a3; a4; a5; a6; a7; a8; a9; a10; a11; a12; a13; a14; a15].
Proof.
  intros H.
  do 16 (destruct l as [|? l]; [discriminate|]).
  destruct l; [|discriminate]. by repeat eexists.
Qed.

(** X6.  Whatever the links held before, [exInit] writes all of them, inside
    the arrays: afterwards the walk [for (entry = list; entry;
    entry = entry->next)] from the head of either array visits every entry
    once, in index order, and ends; calling [exInit] again changes nothing.
    Before [exInit], with the links of zero-initialised storage, the same
    walk ends after entry 0. *)
Theorem exInit_links l :
  length (Links.envNext l) = ENV_LIST_SIZE ->
  length (Links.excNext l) = EXCEPTION_LIST_SIZE ->
  exists l',
    Links.exInit l = Some l' /\
    Links.walk ENV_LIST_SIZE (Links.envNext l') (Some 0)
    = Some (seq 0 ENV_LIST_SIZE) /\
    Links.walk EXCEPTION_LIST_SIZE (Links.excNext l') (Some 0)
    = Some (seq 0 EXCEPTION_LIST_SIZE) /\
    Links.exInit l' = Some l' /\
    Links.exInit Links.zero = Some l' /\
    Links.walk ENV_LIST_SIZE (Links.envNext Links.zero) (Some 0) = Some [0] /\
    Links.walk EXCEPTION_LIST_SIZE (Links.excNext Links.zero) (Some 0)
    = Some [0].
Proof.
  destruct l as [env exc]. cbn [Links.envNext Links.excNext].
  intros (a0 & a1 & a2 & a3 & a4 & a5 & a6 & a7 & a8 & a9 & a10 & a11 & a12
          & a13 & a14 & a15 & ->)%length_16
         (b0 & b1 & b2 & b3 & b4 & b5 & b6 & b7 & b8 & b9 & b10 & b11 & b12
          & b13 & b14 & b15 & ->)%length_16.
  eexists. split; [reflexivity|]. by repeat split.
Qed.

(** ** The shutdown report *)

Lemma exDeinit_env_run env exc pre mid post out :
  env = pre ++ mid ++ post ->
  exDeinit_env (length mid) (length pre) out (mkState env exc)
  = Ok (out ++ concat (replicate (count_if EnvEntry.used mid) env_leak_report))
       (mkState env exc).
Proof.
  intros ->. revert pre out.
  induction mid as [|x mid IH]; intros pre out.
  - cbn. by rewrite app_nil_r.
  - cbn [length exDeinit_env]. unfold bind at 1, readEnv. cbn [envList].
    change ((x :: mid) ++ post) with (x :: mid ++ post).
    rewrite list_lookup_middle by done.
    replace (S (length pre)) with (length (pre ++ [x]))
      by (rewrite length_app; cbn; lia).
    replace (pre ++ x :: mid ++ post) with ((pre ++ [x]) ++ mid ++ post)
      by (by rewrite <- app_assoc).
    cbn [count_if]. destruct (EnvEntry.used x); rewrite IH.
    + rewrite <- app_assoc. by cbn.
    + done.
Qed.

Lemma used_shutdown x :
  ExceptionEntry.used (shutdown x) = ExceptionEntry.used x.
Proof. unfold shutdown. by destruct (ExceptionEntry.used x) eqn:E. Qed.

Lemma exDeinit_exc_run env pre mid post out :
  (forall x, x ∈ mid ->
     length (Exception.msg (ExceptionEntry.exception x)) = MAX_MSG_LEN) ->
  exDeinit_exc (length mid) (length pre) out (mkState env (pre ++ mid ++ post))
  = Ok (out ++ exc_leak_reports (shutdown <$> mid))
       (mkState env (pre ++ (shutdown <$> mid) ++ post)).
Proof.
  revert pre out. induction mid as [|x mid IH]; intros pre out Hlen.
  - cbn. by rewrite app_nil_r.
  - cbn [length exDeinit_exc fmap list_fmap].
    rewrite <- !app_comm_cons.
    assert (Hx : (pre ++ x :: mid ++ post) !! length pre = Some x)
      by (by rewrite list_lookup_middle).
    erewrite bind_run by (by eapply readExc_run).
    assert (Hsplit : forall y, pre ++ y :: mid ++ post
                               = (pre ++ [y]) ++ mid ++ post)
      by (intros y; by rewrite <- app_assoc).
    assert (Hnext : forall y : ExceptionEntry.t,
              S (length pre) = length (pre ++ [y]))
      by (intros y; rewrite length_app; cbn; lia).
    unfold exc_leak_reports. cbn [fmap list_fmap concat].
    fold (exc_leak_reports (shutdown <$> mid)). rewrite used_shutdown.
    unfold shutdown at 1 3. destruct (ExceptionEntry.used x) eqn:Hu.
    + assert (Hstore :
        store_msg (Some (length pre)) (MAX_MSG_LEN - 1) x00
          (mkState env (pre ++ x :: mid ++ post))
        = Ok tt (mkState env
                   (pre ++ set_msg_at (MAX_MSG_LEN - 1) x00 x :: mid ++ post))).
      { unfold store_msg. erewrite bind_run by (by eapply readExc_run).
        rewrite (Hlen x) by left.
        change (MAX_MSG_LEN - 1 <? MAX_MSG_LEN) with true. cbv iota.
        erewrite writeExc_run by done. cbn [envList exceptionList].
        f_equal. f_equal.
        replace (length pre) with (length pre + 0) at 1 by lia.
        by rewrite alter_app_r. }
      rewrite (bind_run _ _ _ _ _ Hstore).
      erewrite bind_run
        by (eapply readExc_run; cbn [exceptionList];
            by rewrite list_lookup_middle).
      rewrite Hsplit, (Hnext (set_msg_at (MAX_MSG_LEN - 1) x00 x)).
      rewrite IH by (intros y Hy; apply Hlen; by right).
      rewrite <- !app_assoc. done.
    + rewrite Hsplit, (Hnext x).
      rewrite IH by (intros y Hy; apply Hlen; by right).
      rewrite <- !app_assoc. done.
Qed.

Lemma exc_leak_report_nonempty m : exc_leak_report m <> [].
Proof. intros [H _]%app_eq_nil. vm_compute in H. discriminate. Qed.

Lemma exc_leak_reports_nil l :
  exc_leak_reports l = [] <-> in_use l = 0.
Proof.
  unfold exc_leak_reports, in_use.
  induction l as [|x l IH]; [done|]. cbn [fmap list_fmap concat count_if].
  destruct (ExceptionEntry.used x).
  - split; [|lia]. intros [H _]%app_eq_nil.
    by apply exc_leak_report_nonempty in H.
  - cbn [app Nat.add]. exact IH.
Qed.

Lemma env_leak_reports_nil n :
  concat (replicate n env_leak_report) = [] <-> n = 0.
Proof.
  destruct n as [|n]; [done|]. cbn [replicate concat].
  split; [|lia]. intros [H _]%app_eq_nil. vm_compute in H. discriminate.
Qed.

Lemma in_use_shutdown l : in_use (shutdown <$> l) = in_use l.
Proof.
  unfold in_use. induction l as [|x l IH]; [done|].
  cbn [fmap list_fmap count_if]. rewrite used_shutdown. by f_equal.
Qed.

Lemma shutdown_idemp x : shutdown (shutdown x) = shutdown x.
Proof.
  unfold shutdown at 1. rewrite used_shutdown.
  unfold shutdown. destruct (ExceptionEntry.used x); [|done].
  unfold set_msg_at. cbn. by rewrite list_insert_insert_eq.
Qed.

Lemma shutdown_terminated x :
  Exception.msg (ExceptionEntry.exception x) !! (MAX_MSG_LEN - 1) = Some x00 ->
  shutdown x = x.
Proof.
  intros H. unfold shutdown, set_msg_at.
  destruct (ExceptionEntry.used x); [|done].
  rewrite list_insert_id by done. by destruct x as [[] ? ? ? ?].
Qed.

Lemma length_msg_shutdown x :
  length (Exception.msg (ExceptionEntry.exception (shutdown x)))
  = length (Exception.msg (ExceptionEntry.exception x)).
Proof.
  unfold shutdown, set_msg_at. destruct (ExceptionEntry.used x); [|done].
  cbn. apply length_insert.
Qed.

Lemma exDeinit_run s :
  wf s ->
  exDeinit s
  = Ok (concat (replicate (count_if EnvEntry.used (envList s)) env_leak_report)
        ++ exc_leak_reports (shutdown <$> exceptionList s))
       (mkState (envList s) (shutdown <$> exceptionList s)).
Proof.
  destruct s as [env exc]. intros (Hl1 & Hl2 & Hmsg).
  cbn [envList exceptionList] in *. unfold exDeinit.
  pose proof (exDeinit_env_run env exc [] env [] []) as He.
  rewrite app_nil_l, app_nil_r, Hl1 in He. cbn [length] in He.
  rewrite (bind_run _ _ _ _ _ (He eq_refl)). cbn [app].
  pose proof (exDeinit_exc_run env [] exc []) as Hx.
  rewrite Hl2 in Hx. cbn [length app] in Hx. rewrite !app_nil_r in Hx.
  apply Hx. intros x [i Hi]%list_elem_of_lookup. eauto.
Qed.

(** X7.  [exDeinit] releases nothing.  It writes one report for every
    calling environment in use and then one for every record in use, the
    latter with the message of the record, and nothing else: the output is
    empty exactly when no environment and no record is in use.  The only
    store is a NUL into the last byte of the message of each record in use;
    a second call writes the same output and changes nothing more. *)
Theorem exDeinit_reports s :
  wf s ->
  exists out s',
    exDeinit s = Ok out s' /\
    envList s' = envList s /\
    exceptionList s' = shutdown <$> exceptionList s /\
    in_use (exceptionList s') = in_use (exceptionList s) /\
    out = concat (replicate (count_if EnvEntry.used (envList s))
                            env_leak_report)
          ++ exc_leak_reports (exceptionList s') /\
    (out = [] <->
     count_if EnvEntry.used (envList s) = 0 /\ in_use (exceptionList s) = 0) /\
    exDeinit s' = Ok out s'.
Proof.
  intros Hwf. eexists _, _. split; [by apply exDeinit_run|].
  cbn [envList exceptionList]. split; [done|]. split; [done|].
  split; [apply in_use_shutdown|]. split; [done|]. split.
  - split.
    + intros [H1 H2]%app_eq_nil. split.
      * by apply env_leak_reports_nil.
      * rewrite <- in_use_shutdown. by apply exc_leak_reports_nil.
    + intros [H1 H2]. rewrite H1. cbn [replicate concat app].
      apply exc_leak_reports_nil. by rewrite in_use_shutdown.
  - rewrite exDeinit_run.
    + cbn [envList exceptionList]. rewrite <- list_fmap_compose.
      assert (E : shutdown ∘ shutdown <$> exceptionList s
                  = shutdown <$> exceptionList s).
      { apply list_fmap_ext. intros i x _. apply shutdown_idemp. }
      by rewrite E.
    + destruct Hwf as (H1 & H2 & H3). split; [done|].
      cbn [envList exceptionList]. split; [by rewrite length_fmap|].
      intros i y Hy. apply list_lookup_fmap_Some in Hy as (x & -> & Hx).
      rewrite length_msg_shutdown. eauto.
Qed.

(** ** Messages are strings *)

Lemma c_str_take n out rest :
  c_str (take n out ++ x00 :: rest) = take n (c_str out).
Proof.
  revert n. induction out as [|b out IH]; intros n.
  - rewrite take_nil. cbn. by rewrite take_nil.
  - destruct n as [|n]; [done|]. cbn [take app c_str].
    destruct (Byte.eqb b x00); [done|]. cbn [take]. by rewrite IH.
Qed.

Lemma c_str_length_le buf k :
  buf !! k = Some x00 -> length (c_str buf) <= k.
Proof.
  revert k. induction buf as [|b buf IH]; intros k Hk; [done|].
  cbn [c_str]. destruct (Byte.eqb b x00) eqn:E; [cbn; lia|].
  destruct k as [|k]; cbn in Hk.
  - inversion Hk; subst. done.
  - cbn [length]. specialize (IH k Hk). lia.
Qed.

Lemma c_str_no_nul bs : Forall (fun b => b <> x00) bs -> c_str bs = bs.
Proof.
  induction 1 as [|b bs Hb _ IH]; [done|]. cbn [c_str].
  destruct (Byte.eqb b x00) eqn:E; [by apply Byte.byte_dec_bl in E|].
  by rewrite IH.
Qed.

(** What [vsnprintf] leaves in a buffer of [MAX_MSG_LEN] bytes that ended
    with a NUL: a buffer that ends with a NUL and holds the formatted output,
    cut after [MAX_MSG_LEN - 1] characters, as its string. *)
Lemma vsnprintf_string buf out m :
  length buf = MAX_MSG_LEN ->
  vsnprintf buf MAX_MSG_LEN out = Some m ->
  c_str m = take (MAX_MSG_LEN - 1) (c_str out) /\
  (buf !! (MAX_MSG_LEN - 1) = Some x00 -> m !! (MAX_MSG_LEN - 1) = Some x00).
Proof.
  intros Hlen Hm. rewrite (vsnprintf_fits buf out Hlen) in Hm.
  apply (inj Some) in Hm as <-. split.
  - rewrite <- app_assoc. cbn [app]. apply c_str_take.
  - intros Hend.
    destruct (decide (length (take (MAX_MSG_LEN - 1) out) = MAX_MSG_LEN - 1))
      as [E|E].
    + rewrite lookup_app_l
        by (rewrite length_app, E; cbn [length]; unfold MAX_MSG_LEN; lia).
      rewrite lookup_app_r by lia. by rewrite E, Nat.sub_diag.
    + assert (length (take (MAX_MSG_LEN - 1) out) < MAX_MSG_LEN - 1).
      { rewrite length_take in *. lia. }
      rewrite lookup_app_r by (rewrite length_app; cbn [length]; lia).
      rewrite lookup_drop, length_app. cbn [length]. rewrite <- Hend.
      f_equal. lia.
Qed.

Lemma msg_terminated_transfer l l' :
  (forall k y', l' !! k = Some y' ->
     exists y, l !! k = Some y /\
       ExceptionEntry.exception y' = ExceptionEntry.exception y) ->
  msg_terminated l -> msg_terminated l'.
Proof.
  intros H Hl k y' Hy'. destruct (H k y' Hy') as (y & Hy & ->). eauto.
Qed.

Lemma msg_terminated_alter_flags f i l :
  (forall x, ExceptionEntry.exception (f x) = ExceptionEntry.exception x) ->
  msg_terminated l -> msg_terminated (alter f i l).
Proof.
  intros Hf. apply msg_terminated_transfer. intros k y' Hy'.
  destruct (l !! i) as [x|] eqn:Hi.
  - destruct (lookup_alter_inv _ _ _ _ _ _ Hi Hy') as [[-> ->]|[_ Hk]]; eauto.
  - rewrite list_alter_None in Hy' by done. eauto.
Qed.

Lemma msg_terminated_built lift code m cause n x l out :
  (forall y, ExceptionEntry.exception (lift y) = ExceptionEntry.exception y) ->
  l !! n = Some x -> cause <> Some n ->
  length (Exception.msg (ExceptionEntry.exception x)) = MAX_MSG_LEN ->
  vsnprintf (Exception.msg (ExceptionEntry.exception x)) MAX_MSG_LEN out
  = Some m ->
  msg_terminated l -> msg_terminated (built lift code m cause n l).
Proof.
  intros Hlift Hn Hne Hlen Hm Hl k y' Hy'.
  destruct (decide (k = n)) as [->|Hk].
  - rewrite (lookup_built_eq _ _ _ _ _ _ x Hn Hne) in Hy'.
    inversion Hy'; subst y'. cbn.
    by apply (vsnprintf_string _ _ _ Hlen Hm), (Hl n x Hn).
  - destruct (built_others _ _ _ _ _ _ _ _ Hk Hy') as (y & Hy & ->). eauto.
Qed.

Section Messages.
Context {Template Args : Type} (vformat : Template -> Args -> list byte).

Lemma exec_msg_terminated c s s' :
  wf s -> msg_terminated (exceptionList s) -> exec vformat c s s' ->
  msg_terminated (exceptionList s').
Proof.
  intros (_ & _ & Hmsg) Hl Hex.
  destruct c as [t ctx|t e|code cause msg args|t code cause msg args|t e|e];
    cbn [exec] in Hex.
  - by destruct Hex as [j (x & _ & _ & _ & ->)%try_Ok].
  - destruct Hex as [e' (j & _ & _ & Hexc)%popCallingEnv_Ok].
    destruct Hexc as [(i & v & _ & _ & _ & ->)|(_ & _ & ->)]; [|done].
    by apply msg_terminated_alter_flags.
  - destruct Hex as [p (n & x & m & _ & _ & Hn & Hu & Hc & Hm & ->)%exAlloc_Ok].
    eapply msg_terminated_built; eauto.
    intros E. destruct (Hc n E) as (z & Hz & Hr%at_rest_used). congruence.
  - destruct Hex as [j (n & x & m & _ & _ & Hn & Hu & Hc & Hm & ->)%exThrow_Ok].
    eapply (msg_terminated_built (fun y => launched t (allocated y))); eauto.
    intros E. destruct (Hc n E) as (z & Hz & Hr%at_rest_used). congruence.
  - destruct Hex as [j (i & x & _ & _ & _ & _ & _ & ->)%exRepeat_Ok].
    by apply msg_terminated_alter_flags.
  - destruct Hex as [fuel H]. rewrite exFree_run in H.
    destruct e as [k|]; [|done].
    destruct (exceptionList s !! k) as [x|]; [|done].
    destruct (at_rest x); [|done].
    apply exFree_loop_frame in H as [_ H].
    eapply msg_terminated_transfer; [|exact Hl]. intros i y' Hy'.
    destruct (H i y' Hy') as (y & Hy & [->| ->]); eauto.
Qed.

Lemma reachable_msg_terminated s :
  reachable vformat s -> msg_terminated (exceptionList s).
Proof.
  induction 1 as [s H|s c s' Hr IH Hex].
  - inversion H; subst. intros i x ->%zeroed_exc.
    unfold ExceptionEntry.zero, Exception.zero.
    cbn [ExceptionEntry.exception Exception.msg].
    apply lookup_replicate. split; [done|]. unfold MAX_MSG_LEN. lia.
  - eapply exec_msg_terminated; [|exact IH|exact Hex].
    by apply (reachable_inv vformat s Hr).
Qed.

(** X8.  As long as the records are written through the interface only,
    every message buffer of the pool, of a record in use or not, ends with
    a NUL in its last byte, so the message of every record is a string of
    fewer than [MAX_MSG_LEN] characters.  The NUL that [exDeinit] stores is
    then already there: [exDeinit] leaves both registries exactly as they
    are. *)
Theorem messages_terminated s :
  reachable vformat s ->
  (forall i x, exceptionList s !! i = Some x ->
     length (Exception.msg (ExceptionEntry.exception x)) = MAX_MSG_LEN /\
     Exception.msg (ExceptionEntry.exception x) !! (MAX_MSG_LEN - 1)
     = Some x00 /\
     c_strlen (Exception.msg (ExceptionEntry.exception x)) < MAX_MSG_LEN) /\
  exists out, exDeinit s = Ok out s.
Proof.
  intros Hr. pose proof (reachable_inv vformat s Hr) as (Hwf & _).
  pose proof (reachable_msg_terminated s Hr) as Hterm. split.
  - intros i x Hi. destruct Hwf as (_ & _ & Hmsg).
    split; [eauto|]. split; [eauto|].
    pose proof (c_str_length_le _ _ (Hterm i x Hi)) as Hle.
    unfold c_strlen. unfold MAX_MSG_LEN in *. lia.
  - eexists. rewrite (exDeinit_run s Hwf). f_equal.
    destruct s as [env exc]. cbn [envList exceptionList] in *. f_equal.
    rewrite <- (list_fmap_id exc) at 2. apply list_fmap_ext.
    intros i x Hi. apply shutdown_terminated. eauto.
Qed.

(** X9.  The record [exAlloc] returns, and the record [exThrow] puts in
    flight, holds the code and the cause passed, and as its message string
    the formatted output up to its first NUL, cut after [MAX_MSG_LEN - 1]
    characters: nothing of what the slot held before shows.  A formatted
    output without NUL and shorter than [MAX_MSG_LEN] is stored whole. *)
Theorem message_stored code cause msg args s :
  wf s ->
  (forall p s',
      exAlloc vformat code cause msg args s = Ok p s' ->
      exists n x,
        p = Some n /\ exceptionList s' !! n = Some x /\
        ExceptionEntry.used x = true /\ ExceptionEntry.cause x = false /\
        Exception.code (ExceptionEntry.exception x) = code /\
        Exception.cause (ExceptionEntry.exception x) = cause /\
        c_str (Exception.msg (ExceptionEntry.exception x))
        = take (MAX_MSG_LEN - 1) (c_str (vformat msg args))) /\
  (forall t j s',
      exThrow vformat t code cause msg args s = Ok j s' ->
      exists n x,
        exceptionList s' !! n = Some x /\ in_flight t x = true /\
        ExceptionEntry.cause x = false /\
        Exception.code (ExceptionEntry.exception x) = code /\
        Exception.cause (ExceptionEntry.exception x) = cause /\
        c_str (Exception.msg (ExceptionEntry.exception x))
        = take (MAX_MSG_LEN - 1) (c_str (vformat msg args))) /\
  (length (vformat msg args) < MAX_MSG_LEN ->
   Forall (fun b => b <> x00) (vformat msg args) ->
   take (MAX_MSG_LEN - 1) (c_str (vformat msg args)) = vformat msg args).
Proof.
  intros (_ & _ & Hmsg). split; [|split].
  - intros p s' H.
    apply exAlloc_Ok in H as (n & x & m & -> & _ & Hn & Hu & Hc & Hm & ->).
    assert (Hne : cause <> Some n).
    { intros E. destruct (Hc n E) as (z & Hz & Hr%at_rest_used). congruence. }
    eexists n, _. split; [done|].
    split; [by apply (lookup_built_eq _ _ _ _ _ _ x)|]. cbn.
    do 4 (split; [done|]).
    by apply (vsnprintf_string _ _ _ (Hmsg n x Hn) Hm).
  - intros t j s' H.
    apply exThrow_Ok in H as (n & x & m & _ & _ & Hn & Hu & Hc & Hm & ->).
    assert (Hne : cause <> Some n).
    { intros E. destruct (Hc n E) as (z & Hz & Hr%at_rest_used). congruence. }
    eexists n, _.
    split; [by apply (lookup_built_eq _ _ _ _ _ _ x)|]. cbn.
    split; [apply Nat.eqb_refl|]. do 3 (split; [done|]).
    by apply (vsnprintf_string _ _ _ (Hmsg n x Hn) Hm).
  - intros Hlen Hnul. rewrite c_str_no_nul by done.
    apply take_ge. unfold MAX_MSG_LEN in *. lia.
Qed.

End Messages.

(** ** Ownership of cause chains *)

(** A record of a chain that is not its head is the cause of a record in
    use, so its cause bit is set. *)
Lemma cause_chain_inner l a ch k x :
  exc_inv l -> cause_chain l (Some a) ch ->
  (exists y, l !! a = Some y /\ ExceptionEntry.used y = true) ->
  k ∈ ch -> k <> a -> l !! k = Some x -> ExceptionEntry.cause x = true.
Proof.
  intros (Ha & _) Hch Hhead Hk Hne Hx.
  destruct (cause_chain_pred _ _ _ _ Hch Hk) as [->|(p & w & Hp & Hw & Hwc)];
    [done|].
  destruct (cause_chain_used _ _ _ Ha Hch) with (k := p)
    as (w' & Hw' & Hwu); [by intros ? [= <-]|done|].
  rewrite Hw in Hw'. inversion Hw'; subst w'.
  destruct (Ha p w k Hw Hwu Hwc) as (x' & Hx' & _ & Hxc). congruence.
Qed.

(** The chains of two records that are nobody's cause share no record. *)
Lemma cause_chains_disjoint l ea cha b chb :
  exc_inv l ->
  cause_chain l ea cha -> cause_chain l (Some b) chb ->
  (exists y, l !! b = Some y /\ ExceptionEntry.used y = true) ->
  forall a, ea = Some a ->
    (exists x, l !! a = Some x /\ ExceptionEntry.used x = true) ->
    a ∉ chb -> b ∉ cha ->
    forall k, k ∈ cha -> k ∉ chb.
Proof.
  intros Hinv Hcha Hchb Hbu. pose proof Hinv as (Ha & Hb & _).
  induction Hcha as [|i x ch Hi Hch IH]; intros a Hea Hau Hab Hba k Hk;
    [by apply elem_of_nil in Hk|].
  inversion Hea; subst a. apply elem_of_cons in Hk as [->|Hk]; [done|].
  destruct Hau as (x' & Hi' & Hxu). rewrite Hi in Hi'. inversion Hi'; subst x'.
  destruct (Exception.cause (ExceptionEntry.exception x)) as [c|] eqn:Hc.
  2:{ inversion Hch; subst. by apply elem_of_nil in Hk. }
  assert (Hcin : c ∈ ch) by (inversion Hch; subst; left).
  apply (IH c eq_refl); [| |intros ?; apply Hba; by right|done].
  - destruct (Ha i x c Hi Hxu Hc) as (y & Hy & Hyu & _). eauto.
  - intros Hcb.
    destruct (cause_chain_pred _ _ _ _ Hchb Hcb)
      as [->|(p & w & Hp & Hw & Hwc)]; [apply Hba; by right|].
    destruct (cause_chain_used _ _ _ Ha Hchb) with (k := p)
      as (w' & Hw' & Hwu); [by intros ? [= <-]|done|].
    rewrite Hw in Hw'. inversion Hw'; subst w'.
    assert (i = p); [|by subst].
    apply (Hb i p x w c Hi Hw); by apply points_to_true.
Qed.

Section Ownership.
Context {Template Args : Type} (vformat : Template -> Args -> list byte).

(** X13.  A cause chain belongs to its head.  Let record [i] be in use and
    nobody's cause.  No call other than [exFree] of [i] itself releases or
    rewrites a record of its cause chain: after the call the chain is the
    same, every record on it is still in use, and its code, message and
    cause reference are as before.  In particular [exFree] of any other
    record leaves the chain alone. *)
Theorem cause_chain_owned s i x ch c s' :
  reachable vformat s ->
  exceptionList s !! i = Some x ->
  ExceptionEntry.used x = true -> ExceptionEntry.cause x = false ->
  cause_chain (exceptionList s) (Some i) ch ->
  c <> Free (Some i) ->
  exec vformat c s s' ->
  cause_chain (exceptionList s') (Some i) ch /\
  forall k, k ∈ ch ->
    exists y y',
      exceptionList s !! k = Some y /\ exceptionList s' !! k = Some y' /\
      ExceptionEntry.used y' = true /\
      ExceptionEntry.exception y' = ExceptionEntry.exception y.
Proof.
  intros Hr Hi Hxu Hxc Hch Hc Hex.
  pose proof (reachable_inv vformat s Hr) as Hinv.
  pose proof Hinv as (_ & _ & Hexc). pose proof Hexc as (Ha & _).
  assert (Hused : forall k, k ∈ ch ->
            exists y, exceptionList s !! k = Some y /\
                      ExceptionEntry.used y = true).
  { apply (cause_chain_used _ (Some i) ch Ha Hch). intros ? [= <-]. eauto. }
  cut (forall k y, k ∈ ch -> exceptionList s !! k = Some y ->
         exists y', exceptionList s' !! k = Some y' /\
           ExceptionEntry.used y' = ExceptionEntry.used y /\
           ExceptionEntry.exception y' = ExceptionEntry.exception y).
  { intros Hkeep. split.
    - eapply cause_chain_agree; [|exact Hch]. intros k y Hk Hy.
      destruct (Hkeep k y Hk Hy) as (y' & Hy' & _ & E). exists y'.
      by rewrite E.
    - intros k Hk. destruct (Hused k Hk) as (y & Hy & Hyu).
      destruct (Hkeep k y Hk Hy) as (y' & Hy' & Eu & E).
      exists y, y'. repeat split; [done|done|congruence|done]. }
  intros k y Hk Hy. destruct (Hused k Hk) as (y0 & Hy0 & Hyu).
  rewrite Hy in Hy0. inversion Hy0; subst y0. clear Hy0.
  destruct c as [t ctx|t e|code cause msg args|t code cause msg args|t e|e];
    cbn [exec] in Hex.
  - destruct Hex as [j (x0 & _ & _ & _ & ->)%try_Ok]. eauto.
  - destruct Hex as [e' (j & _ & _ & Hexc')%popCallingEnv_Ok].
    destruct Hexc' as [(n & v & _ & _ & _ & ->)|(_ & _ & ->)]; [|eauto].
    destruct (decide (k = n)) as [->|Hne].
    + rewrite (lookup_alter_Some _ _ _ _ Hy). eauto.
    + rewrite list_lookup_alter_ne by done. eauto.
  - destruct Hex as [p (n & x0 & m & _ & _ & Hn & Hu & _ & _ & ->)%exAlloc_Ok].
    cbn [exceptionList]. rewrite lookup_built_ne by congruence.
    destruct (decide (cause = Some k)) as [->|Hck].
    + rewrite lookup_marked_eq, Hy. eauto.
    + rewrite lookup_marked_ne by done. eauto.
  - destruct Hex as [j (n & x0 & m & _ & _ & Hn & Hu & _ & _ & ->)%exThrow_Ok].
    cbn [exceptionList]. rewrite lookup_built_ne by congruence.
    destruct (decide (cause = Some k)) as [->|Hck].
    + rewrite lookup_marked_eq, Hy. eauto.
    + rewrite lookup_marked_ne by done. eauto.
  - destruct Hex as [j (n & x0 & _ & _ & _ & _ & _ & ->)%exRepeat_Ok].
    cbn [exceptionList]. destruct (decide (k = n)) as [->|Hne].
    + rewrite (lookup_alter_Some _ _ _ _ Hy). eauto.
    + rewrite list_lookup_alter_ne by done. eauto.
  - destruct Hex as [fuel H]. apply (exFree_Ok _ _ _ _ Hinv) in H
      as (i' & x' & ch' & -> & Hi' & Hr' & Hch' & _ & ->).
    cbn [exceptionList]. rewrite lookup_released.
    assert (Hne : i <> i') by congruence.
    apply at_rest_true in Hr' as (Hxu' & Hxc' & _).
    rewrite bool_decide_eq_false_2; [eauto|].
    apply (cause_chains_disjoint _ (Some i) ch i' ch' Hexc Hch Hch'
             ltac:(eauto) i eq_refl ltac:(eauto)); [| |done].
    + intros Hin.
      pose proof (cause_chain_inner _ i' ch' i x Hexc Hch' ltac:(eauto)
                    Hin Hne Hi). congruence.
    + intros Hin.
      pose proof (cause_chain_inner _ i ch i' x' Hexc Hch ltac:(eauto)
                    Hin ltac:(congruence) Hi'). congruence.
Qed.

End Ownership.

(** ** What a construction takes from the pool *)

Lemma in_use_built lift code m cause n x l :
  (forall y, ExceptionEntry.used (lift y) = true) ->
  l !! n = Some x -> ExceptionEntry.used x = false -> cause <> Some n ->
  in_use (built lift code m cause n l) = in_use l + 1.
Proof.
  intros Hlift Hn Hu Hne. unfold built, in_use.
  assert (Hm : in_use (marked cause (alter lift n l)) = in_use l + 1).
  { unfold in_use.
    pose proof (count_if_alter ExceptionEntry.used lift l n x Hn) as H1.
    rewrite Hu, Hlift in H1.
    destruct cause as [c|]; cbn [marked]; [|lia].
    destruct (alter lift n l !! c) as [y|] eqn:Hc.
    - pose proof (count_if_alter ExceptionEntry.used
                    (ExceptionEntry.set_cause true) _ c y Hc) as H2.
      change (ExceptionEntry.used (ExceptionEntry.set_cause true y))
        with (ExceptionEntry.used y) in H2. lia.
    - rewrite list_alter_None by done. lia. }
  unfold in_use in Hm.
  assert (Hl : marked cause (alter lift n l) !! n = Some (lift x)).
  { rewrite lookup_marked_ne by done. by apply lookup_alter_Some. }
  pose proof (count_if_alter ExceptionEntry.used (filled code m cause)
                _ n (lift x) Hl) as H3.
  change (ExceptionEntry.used (filled code m cause (lift x)))
    with (ExceptionEntry.used (lift x)) in H3. lia.
Qed.

Section Frame.
Context {Template Args : Type} (vformat : Template -> Args -> list byte).

(** X14.  [exAlloc] takes exactly one record from the pool, the unused one
    with the lowest index - so a record just released is handed out again
    when no record before it is unused.  It sets the cause bit of the cause
    and leaves every other record, and the table of calling environments, as
    they are.  Of the record it hands out it initialises the in-use flag, the
    cause bit, the code, the cause and the message; the in-flight bit and the
    owning thread are those the slot held before. *)
Theorem exAlloc_frame code cause msg args s p s' :
  exAlloc vformat code cause msg args s = Ok p s' ->
  exists n y y',
    p = Some n /\
    exceptionList s !! n = Some y /\ ExceptionEntry.used y = false /\
    (forall k z, k < n -> exceptionList s !! k = Some z ->
                 ExceptionEntry.used z = true) /\
    exceptionList s' !! n = Some y' /\
    ExceptionEntry.used y' = true /\ ExceptionEntry.cause y' = false /\
    ExceptionEntry.thrown y' = ExceptionEntry.thrown y /\
    ExceptionEntry.thread y' = ExceptionEntry.thread y /\
    in_use (exceptionList s') = in_use (exceptionList s) + 1 /\
    envList s' = envList s /\
    (forall k, k <> n -> cause <> Some k ->
               exceptionList s' !! k = exceptionList s !! k) /\
    (forall c, cause = Some c -> c <> n /\
       exceptionList s' !! c
       = ExceptionEntry.set_cause true <$> exceptionList s !! c).
Proof.
  intros (n & x & m & -> & Hf & Hn & Hu & Hc & _ & ->)%exAlloc_Ok.
  assert (Hne : cause <> Some n).
  { intros E. destruct (Hc n E) as (z & Hz & Hr%at_rest_used). congruence. }
  exists n, x, (filled code m cause (allocated x)).
  split; [done|]. split; [done|]. split; [done|]. split.
  { apply find_index_Some in Hf as (k' & x' & Hk' & _ & _ & Hlt).
    intros k z Hk Hz. specialize (Hlt k z ltac:(lia) Hz).
    unfold unused_exc in Hlt. by destruct (ExceptionEntry.used z). }
  cbn [envList exceptionList].
  split; [by apply lookup_built_eq|]. do 4 (split; [done|]).
  split; [by apply (in_use_built _ _ _ _ _ x)|]. split; [done|]. split.
  - intros k Hk Hck. rewrite lookup_built_ne by done.
    by rewrite lookup_marked_ne.
  - intros c ->. split; [congruence|].
    rewrite lookup_built_ne by congruence. apply lookup_marked_eq.
Qed.

End Frame.

(** ** The properties at concrete programs *)

Lemma none_unused_env l :
  find_index unused_env l 0 = None ->
  forall k x, l !! k = Some x -> EnvEntry.used x = true.
Proof.
  intros H k x Hk. pose proof (find_index_None _ _ _ H k x Hk) as Hx.
  unfold unused_env in Hx. by destruct (EnvEntry.used x).
Qed.

Lemma none_unused_exc l :
  find_index unused_exc l 0 = None ->
  forall k x, l !! k = Some x -> ExceptionEntry.used x = true.
Proof.
  intros H k x Hk. pose proof (find_index_None _ _ _ H k x Hk) as Hx.
  unfold unused_exc in Hx. by destruct (ExceptionEntry.used x).
Qed.

Lemma none_in_flight t l :
  find_index (in_flight t) l 0 = None ->
  forall k y, l !! k = Some y -> in_flight t y = false.
Proof. apply find_index_None. Qed.

Lemma env_at_lookup s i :
  (i <? length (envList s)) = true ->
  exists x, envList s !! i = Some x.
Proof. intros H%Nat.ltb_lt. by apply lookup_lt_is_Some_2. Qed.

(** X1 at a concrete program: with the sixteen slots taken by thread 2, the
    first entry of thread 1 is undefined; in the initial state it takes
    slot 0. *)
Lemma try_capacity_witness :
  try_ 1 100 (state_after demo_full_table) = Undefined /\
  exists j s', try_ 1 100 zeroed = Ok j s' /\ j <= 0.
Proof.
  split.
  - apply (try_capacity 1 100 (state_after demo_full_table)).
    apply none_unused_env. by_evaluation.
  - destruct (proj2 (try_capacity 1 100 zeroed) 0 EnvEntry.zero)
      as (j & s' & H & Hj & _); [by_evaluation|by_evaluation|]. eauto.
Defined.

(** X2 at a concrete program: the seventeenth [exAlloc]. *)
Lemma exception_pool_full_witness :
  exAlloc verbatim exOther None [x61] tt (state_after demo_full_pool)
  = Undefined /\
  exThrow verbatim 1 exOther None [x61] tt (state_after demo_full_pool)
  = Undefined.
Proof.
  apply (exception_pool_full verbatim exOther None [x61] tt 1
           (state_after demo_full_pool)).
  - apply none_unused_exc. by_evaluation.
  - by left.
Defined.

(** X3 at a concrete program: thread 3 has no block open while threads 1
    and 2 have. *)
Lemma no_open_block_witness :
  popCallingEnv 3 NullOut (state_after demo_enter) = Undefined /\
  exThrow verbatim 3 exOther None [x61] tt (state_after demo_enter)
  = Undefined.
Proof.
  destruct (no_open_block verbatim 3 (state_after demo_enter))
    as (_ & Hpop & _ & Hthrow & _); [by_evaluation|by_evaluation|].
  split; [apply Hpop|apply Hthrow].
Defined.

(** X4 at a concrete program: a pointer past the pool. *)
Lemma pointer_outside_pool_witness :
  exFree EXCEPTION_LIST_SIZE (Some 16) zeroed = Undefined /\
  exRepeat 1 (Some 16) zeroed = Undefined.
Proof.
  destruct (pointer_outside_pool verbatim (Some 16) zeroed)
    as (_ & _ & Hfree & Hrepeat & _).
  - right. exists 16. split; [done|]. apply Nat.leb_le. by_evaluation.
  - split; [apply Hfree|apply Hrepeat].
Defined.

(** X5 at a concrete program: the caught record 1 is freed twice. *)
Lemma use_after_free_witness :
  exFree EXCEPTION_LIST_SIZE (Some 1)
    (state_of (exFree EXCEPTION_LIST_SIZE (Some 1) (state_after demo_caught)))
  = Violation
      (state_of (exFree EXCEPTION_LIST_SIZE (Some 1)
                   (state_after demo_caught))).
Proof.
  destruct (use_after_free verbatim EXCEPTION_LIST_SIZE 1
              (state_after demo_caught)
              (state_of (exFree EXCEPTION_LIST_SIZE (Some 1)
                           (state_after demo_caught)))
              demo_caught_reachable)
    as (ch & _ & Hin & Hch); [apply result_is_Ok; by_evaluation|].
  apply (Hch 1 Hin).
Defined.

(** X6 at zero-initialised storage. *)
Lemma exInit_links_witness :
  exists l',
    Links.exInit Links.zero = Some l' /\
    Links.walk ENV_LIST_SIZE (Links.envNext l') (Some 0)
    = Some (seq 0 ENV_LIST_SIZE) /\
    Links.walk EXCEPTION_LIST_SIZE (Links.excNext l') (Some 0)
    = Some (seq 0 EXCEPTION_LIST_SIZE).
Proof.
  destruct (exInit_links Links.zero eq_refl eq_refl)
    as (l' & H1 & H2 & H3 & _).
  exists l'. split; [exact H1|]. split; [exact H2|exact H3].
Defined.

(** X7 at a concrete program: with blocks open and records in use,
    [exDeinit] writes a report. *)
Lemma exDeinit_reports_witness :
  exists out s',
    exDeinit (state_after demo_caught) = Ok out s' /\ out <> [] /\
    in_use (exceptionList s') = in_use (exceptionList (state_after demo_caught)).
Proof.
  destruct (exDeinit_reports (state_after demo_caught))
    as (out & s' & H & _ & _ & Hu & _ & Hnil & _).
  { apply (reachable_inv verbatim), demo_caught_reachable. }
  exists out, s'. split; [exact H|]. split; [|exact Hu].
  intros [_ H0]%Hnil.
  assert (E : in_use (exceptionList (state_after demo_caught)) = 2)
    by by_evaluation.
  rewrite E in H0. discriminate H0.
Defined.

(** X8 at a concrete program. *)
Lemma messages_terminated_witness :
  exists out,
    exDeinit (state_after demo_caught) = Ok out (state_after demo_caught).
Proof.
  apply (messages_terminated verbatim (state_after demo_caught)
           demo_caught_reachable).
Defined.

(** X9 at a concrete program: a message of one character. *)
Lemma message_stored_witness :
  exists n x,
    exceptionList (state_of (exAlloc verbatim exOther None [x61] tt zeroed))
    !! n = Some x /\
    c_str (Exception.msg (ExceptionEntry.exception x)) = [x61].
Proof.
  destruct inv_zeroed as (Hwf & _).
  destruct (message_stored verbatim exOther None [x61] tt zeroed Hwf)
    as (Halloc & _ & Hwhole).
  destruct (Halloc (Some 0)
              (state_of (exAlloc verbatim exOther None [x61] tt zeroed)))
    as (n & x & _ & Hx & _ & _ & _ & _ & Hs);
    [apply result_is_Ok; by_evaluation|].
  exists n, x. split; [done|]. rewrite Hs. apply Hwhole.
  - apply Nat.ltb_lt. by_evaluation.
  - by repeat constructor.
Defined.

Lemma demo_entered_sparing : reachable_sparing verbatim demo_entered.
Proof.
  apply (sparing_step _ _ verbatim zeroed (Try 1 100)).
  - by apply sparing_init.
  - exact (fun H => H).
  - exists 0. apply result_is_Ok. by_evaluation.
Qed.

(** X10 at a concrete program. *)
Lemma exThrow_delivered_intact_witness :
  exists n x s3,
    exceptionList demo_thrown !! n = Some x /\
    exceptionList demo_thrown_twice !! n = Some x /\
    popCallingEnv 1 (VarOut None) demo_thrown_twice = Ok (VarOut (Some n)) s3.
Proof.
  assert (Hrun : others_run verbatim 1 demo_thrown demo_thrown_twice).
  { apply (others_step verbatim 1 _
             (Throw 2 exOther None [x62] tt) demo_thrown_entered).
    - apply (others_step verbatim 1 _ (Try 2 300) demo_thrown).
      + apply others_refl.
      + discriminate.
      + exact (fun H => H).
      + exists 1. apply result_is_Ok. by_evaluation.
    - discriminate.
    - exact (fun H => H).
    - exists 1. apply result_is_Ok. by_evaluation. }
  destruct (exThrow_delivered_intact verbatim 1 exOther None [x61] tt
              demo_entered 0 demo_thrown demo_thrown_twice None
              demo_entered_sparing)
    as (n & x & s3 & H1 & _ & _ & _ & H2 & _ & _ & H3 & _);
    [apply none_in_flight; by_evaluation
    |apply result_is_Ok; by_evaluation|exact Hrun|].
  exists n, x, s3. split; [exact H1|]. split; [exact H2|exact H3].
Defined.


(** X12 at the concrete program: once the inner block of thread 1 is left,
    its outer block, in slot 0, is the innermost. *)
Lemma popCallingEnv_uncovers_enclosing_witness :
  getLastEnvEntry 1
    (state_of (popCallingEnv 1 (VarOut None) (nested_state 1 demo_enter)))
  = Ok (Some 0)
       (state_of (popCallingEnv 1 (VarOut None) (nested_state 1 demo_enter))).
Proof.
  assert (Hn : nested_entries verbatim 1 zeroed ([] ++ [(0, 100); (2, 200)])
                 (nested_state 1 demo_enter)).
  { apply nested_state_entries. by_evaluation. }
  destruct (popCallingEnv_uncovers_enclosing verbatim 1 zeroed [] 0 100 2 200
              (nested_state 1 demo_enter) (VarOut None) (VarOut None)
              (state_of (popCallingEnv 1 (VarOut None)
                           (nested_state 1 demo_enter)))
              (reachable_zeroed verbatim) Hn)
    as (_ & _ & H & _); [apply result_is_Ok; by_evaluation|exact H].
Defined.

(** X13 at the concrete program: record 1, caught, has record 0 as its
    cause; building another record leaves the chain as it is. *)
Lemma cause_chain_owned_witness :
  cause_chain
    (exceptionList
       (state_of (exAlloc verbatim exOther None [x63] tt
                    (state_after demo_caught))))
    (Some 1) [1; 0].
Proof.
  assert (Hch : cause_chain (exceptionList (state_after demo_caught))
                  (Some 1) [1; 0]).
  { apply (chain_link _ 1 (record_at (state_after demo_caught) 1));
      [apply record_at_lookup; by_evaluation|].
    assert (E1 : Exception.cause
                   (ExceptionEntry.exception
                      (record_at (state_after demo_caught) 1)) = Some 0)
      by by_evaluation.
    rewrite E1.
    apply (chain_link _ 0 (record_at (state_after demo_caught) 0));
      [apply record_at_lookup; by_evaluation|].
    assert (E0 : Exception.cause
                   (ExceptionEntry.exception
                      (record_at (state_after demo_caught) 0)) = None)
      by by_evaluation.
    rewrite E0. apply chain_end. }
  apply (cause_chain_owned verbatim (state_after demo_caught) 1
           (record_at (state_after demo_caught) 1) [1; 0]
           (Alloc exOther None [x63] tt)
           (state_of (exAlloc verbatim exOther None [x63] tt
                        (state_after demo_caught)))
           demo_caught_reachable).
  - apply record_at_lookup. by_evaluation.
  - by_evaluation.
  - by_evaluation.
  - exact Hch.
  - discriminate.
  - exists (Some 2). apply result_is_Ok. by_evaluation.
Defined.

(** X14 at a concrete program: once record 1 and its cause, record 0, are
    freed, the next record is built in slot 0. *)
Lemma exAlloc_frame_witness :
  exists y',
    exceptionList
      (state_of (exAlloc verbatim exOther None [x63] tt
                   (state_of (exFree EXCEPTION_LIST_SIZE (Some 1)
                                (state_after demo_caught)))))
    !! 0 = Some y' /\
    ExceptionEntry.used y' = true.
Proof.
  destruct (exAlloc_frame verbatim exOther None [x63] tt
              (state_of (exFree EXCEPTION_LIST_SIZE (Some 1)
                           (state_after demo_caught)))
              (Some 0)
              (state_of (exAlloc verbatim exOther None [x63] tt
                           (state_of (exFree EXCEPTION_LIST_SIZE (Some 1)
                                        (state_after demo_caught))))))
    as (n & y & y' & Hn & _ & _ & _ & Hy' & Hu & _);
    [apply result_is_Ok; by_evaluation|].
  inversion Hn; subst n. exists y'. split; [exact Hy'|exact Hu].
Defined.

(** ** The test program *)

Lemma count_if_find {A} (p : A -> bool) (l : list A) :
  0 < count_if p l ->
  exists n x, find_index p l 0 = Some n /\ l !! n = Some x /\ p x = true /\
    forall k y, k < n -> l !! k = Some y -> p y = false.
Proof.
  intros H. destruct (find_index p l 0) as [n|] eqn:E.
  - apply find_index_Some in E as (k & x & -> & Hk & Hx & Hlt).
    exists k, x. by repeat split.
  - rewrite (count_if_zero p l) in H; [lia|]. by eapply find_index_None.
Qed.

(** Entering a block when a slot is unused. *)
Lemma try_step t ctx env exc :
  0 < count_if unused_env env ->
  exists j x,
    env !! j = Some x /\ EnvEntry.used x = false /\
    try_ t ctx (mkState env exc)
    = Ok j (mkState
              (alter (fun x => EnvEntry.set_env ctx
                        (reserve t (Z.of_nat (open_blocks t env)) x)) j env)
              exc) /\
    count_if unused_env
      (alter (fun x => EnvEntry.set_env ctx
                (reserve t (Z.of_nat (open_blocks t env)) x)) j env) + 1
    = count_if unused_env env.
Proof.
  intros (j & x & Hf & Hj & Hx & _)%count_if_find.
  exists j, x. split; [done|]. split.
  { unfold unused_env in Hx. by destruct (EnvEntry.used x). }
  split.
  - rewrite try_run. cbn [envList exceptionList]. by rewrite Hf.
  - pose proof (count_if_alter unused_env
                  (fun x => EnvEntry.set_env ctx
                     (reserve t (Z.of_nat (open_blocks t env)) x))
                  env j x Hj) as H.
    rewrite Hx in H. cbn in H. lia.
Qed.

(** Leaving the innermost block. *)
Lemma pop_step t l j x :
  length l = ENV_LIST_SIZE -> env_inv l ->
  l !! j = Some x -> owned t x = true ->
  EnvEntry.level x = (Z.of_nat (open_blocks t l) - 1)%Z ->
  last_slot t l = Some j /\
  env_inv (alter (EnvEntry.set_used false) j l) /\
  length (alter (EnvEntry.set_used false) j l) = ENV_LIST_SIZE /\
  open_blocks t (alter (EnvEntry.set_used false) j l) + 1 = open_blocks t l.
Proof.
  intros Hlen Hinv Hj Ho Hlev.
  pose proof (last_slot_innermost t l j x Hlen Hinv Hj Ho Hlev) as Hlast.
  split; [done|].
  destruct (last_slot_Some t l j Hlen Hlast) as (x' & Hj' & _ & Hmax).
  rewrite Hj in Hj'. inversion Hj'; subst x'.
  split; [by eapply env_inv_release|]. split; [by rewrite length_alter|].
  pose proof (open_blocks_release t t j x l Hj Ho) as H.
  by rewrite Nat.eqb_refl in H.
Qed.

(** *** The pool with two records singled out *)

Section Pool2.
Context (l : list ExceptionEntry.t) (n1 n2 : nat).
Hypothesis (Hne : n1 <> n2) (H1 : n1 < length l) (H2 : n2 < length l).

Lemma lookup_pool2_1 r1 r2 : pool2 l n1 r1 n2 r2 !! n1 = Some r1.
Proof.
  unfold pool2. rewrite list_lookup_insert_ne by done.
  by apply list_lookup_insert_eq.
Qed.

Lemma lookup_pool2_2 r1 r2 : pool2 l n1 r1 n2 r2 !! n2 = Some r2.
Proof.
  unfold pool2. apply list_lookup_insert_eq. by rewrite length_insert.
Qed.

Lemma lookup_pool2_ne r1 r2 k :
  k <> n1 -> k <> n2 -> pool2 l n1 r1 n2 r2 !! k = l !! k.
Proof.
  intros. unfold pool2. by rewrite !list_lookup_insert_ne.
Qed.

Lemma alter_pool2_1 f r1 r2 :
  alter f n1 (pool2 l n1 r1 n2 r2) = pool2 l n1 (f r1) n2 r2.
Proof.
  apply list_eq. intros k. destruct (decide (k = n1)) as [->|Hk1].
  - rewrite (lookup_alter_Some f _ _ r1) by apply lookup_pool2_1.
    by rewrite lookup_pool2_1.
  - rewrite list_lookup_alter_ne by done.
    destruct (decide (k = n2)) as [->|Hk2].
    + by rewrite !lookup_pool2_2.
    + by rewrite !lookup_pool2_ne.
Qed.

Lemma alter_pool2_2 f r1 r2 :
  alter f n2 (pool2 l n1 r1 n2 r2) = pool2 l n1 r1 n2 (f r2).
Proof.
  apply list_eq. intros k. destruct (decide (k = n2)) as [->|Hk2].
  - rewrite (lookup_alter_Some f _ _ r2) by apply lookup_pool2_2.
    by rewrite lookup_pool2_2.
  - rewrite list_lookup_alter_ne by done.
    destruct (decide (k = n1)) as [->|Hk1].
    + by rewrite !lookup_pool2_1.
    + by rewrite !lookup_pool2_ne.
Qed.

Lemma pool2_id r1 r2 :
  l !! n1 = Some r1 -> l !! n2 = Some r2 -> pool2 l n1 r1 n2 r2 = l.
Proof.
  intros E1 E2. unfold pool2. rewrite (list_insert_id l n1 r1) by done.
  by apply list_insert_id.
Qed.

(** The first record for which [p] holds, when [p] holds for no record
    outside the two and [n1] comes first. *)
Lemma find_index_pool2 (p : ExceptionEntry.t -> bool) r1 r2 :
  n1 < n2 ->
  (forall k y, k <> n1 -> k < n2 -> l !! k = Some y -> p y = false) ->
  p r1 = true \/ p r2 = true ->
  find_index p (pool2 l n1 r1 n2 r2) 0
  = Some (if p r1 then n1 else n2).
Proof.
  intros Hlt Hnone Hp. destruct (p r1) eqn:E1.
  - apply (find_index_first p _ 0 n1 r1); [apply lookup_pool2_1|done|].
    intros k y Hk Hy. rewrite lookup_pool2_ne in Hy by lia.
    apply (Hnone k y); [lia|lia|done].
  - destruct Hp as [?|E2]; [done|].
    apply (find_index_first p _ 0 n2 r2); [apply lookup_pool2_2|done|].
    intros k y Hk Hy. destruct (decide (k = n1)) as [->|Hk1].
    + rewrite lookup_pool2_1 in Hy. by inversion Hy; subst.
    + rewrite lookup_pool2_ne in Hy by lia. by apply (Hnone k y).
Qed.

Lemma find_index_pool2_None (p : ExceptionEntry.t -> bool) r1 r2 :
  (forall k y, k <> n1 -> k <> n2 -> l !! k = Some y -> p y = false) ->
  p r1 = false -> p r2 = false ->
  find_index p (pool2 l n1 r1 n2 r2) 0 = None.
Proof.
  intros Hnone E1 E2. apply find_index_None_iff. intros k y Hy.
  destruct (decide (k = n1)) as [->|Hk1].
  { rewrite lookup_pool2_1 in Hy. by inversion Hy; subst. }
  destruct (decide (k = n2)) as [->|Hk2].
  { rewrite lookup_pool2_2 in Hy. by inversion Hy; subst. }
  rewrite lookup_pool2_ne in Hy by done. by apply (Hnone k y).
Qed.

Lemma length_pool2 r1 r2 : length (pool2 l n1 r1 n2 r2) = length l.
Proof. unfold pool2. by rewrite !length_insert. Qed.

End Pool2.

(** *** Messages that fit *)

Lemma vsnprintf_short buf out :
  length buf = MAX_MSG_LEN -> length out < MAX_MSG_LEN ->
  vsnprintf buf MAX_MSG_LEN out
  = Some (out ++ x00 :: drop (length out + 1) buf).
Proof.
  intros Hbuf Hout. rewrite (vsnprintf_fits buf out Hbuf).
  rewrite take_ge by (unfold MAX_MSG_LEN in *; lia).
  by rewrite <- app_assoc.
Qed.

Lemma snprintf_at_append a tail out :
  length (a ++ x00 :: tail) = MAX_MSG_LEN ->
  Forall (fun b => b <> x00) a ->
  length a + length out < MAX_MSG_LEN ->
  c_strlen (a ++ x00 :: tail) = length a /\
  snprintf_at (a ++ x00 :: tail) (length a) MAX_MSG_LEN out
  = Some (a ++ out ++ x00 :: drop (length out) tail).
Proof.
  intros Hlen Ha Hout. split.
  { unfold c_strlen. by rewrite c_str_terminated. }
  change (snprintf_at (a ++ x00 :: tail) (length a) MAX_MSG_LEN out)
    with (store_bytes (a ++ x00 :: tail) (length a)
            (take (MAX_MSG_LEN - 1) out ++ [x00])).
  rewrite take_ge by (unfold MAX_MSG_LEN in *; lia).
  rewrite store_bytes_inside
    by (rewrite Hlen, length_app; cbn [length]; lia).
  rewrite take_app_length, length_app. cbn [length].
  rewrite drop_app_add. f_equal. rewrite <- app_assoc. f_equal.
  f_equal. by replace (length out + 1) with (S (length out)) by lia.
Qed.

Lemma length_built_msg buf out :
  length buf = MAX_MSG_LEN -> length out < MAX_MSG_LEN ->
  length (out ++ x00 :: drop (length out + 1) buf) = MAX_MSG_LEN.
Proof.
  intros Hbuf Hout. rewrite length_app. cbn [length].
  rewrite length_drop. lia.
Qed.

(** *** Calls on the pool with two records singled out *)

Section Pool2Calls.
Context {Template Args : Type} (vformat : Template -> Args -> list byte).
Context (l : list ExceptionEntry.t) (n1 n2 : nat).
Hypothesis (Hlt : n1 < n2) (H2 : n2 < length l).
Hypothesis Hused :
  forall k y, k <> n1 -> k < n2 -> l !! k = Some y -> unused_exc y = false.

(** A construction without cause, when slot [n1] is unused. *)
Lemma construct_pool2_1 {A} lift code msg args (K : nat -> state -> Res A)
    env r1 r2 :
  unused_exc r1 = true ->
  length (Exception.msg (ExceptionEntry.exception r1)) = MAX_MSG_LEN ->
  construct vformat lift code None msg args K
    (mkState env (pool2 l n1 r1 n2 r2))
  = K n1 (mkState env
            (pool2 l n1
               (filled code
                  (stored (Exception.msg (ExceptionEntry.exception r1))
                          (vformat msg args))
                  None (lift r1))
               n2 r2)).
Proof.
  intros Hu Hlen. unfold construct. rewrite assert_cause_run.
  cbn [envList exceptionList].
  rewrite find_index_pool2; [|lia|lia|lia|lia|exact Hused|by left].
  rewrite Hu, lookup_pool2_1 by lia.
  rewrite (vsnprintf_fits _ _ Hlen). fold (stored
    (Exception.msg (ExceptionEntry.exception r1)) (vformat msg args)).
  unfold built. cbn [marked].
  by rewrite !alter_pool2_1 by lia.
Qed.

(** A construction with the record of slot [n1] as its cause, when slot
    [n1] is in use and slot [n2] is unused. *)
Lemma construct_pool2_2 {A} lift code msg args (K : nat -> state -> Res A)
    env r1 r2 :
  at_rest r1 = true -> unused_exc r2 = true ->
  length (Exception.msg (ExceptionEntry.exception r2)) = MAX_MSG_LEN ->
  construct vformat lift code (Some n1) msg args K
    (mkState env (pool2 l n1 r1 n2 r2))
  = K n2 (mkState env
            (pool2 l n1 (ExceptionEntry.set_cause true r1) n2
               (filled code
                  (stored (Exception.msg (ExceptionEntry.exception r2))
                          (vformat msg args))
                  (Some n1) (lift r2)))).
Proof.
  intros Hr Hu Hlen. unfold construct. rewrite assert_cause_run.
  cbn [envList exceptionList]. rewrite lookup_pool2_1, Hr by lia.
  assert (Hu1 : unused_exc r1 = false).
  { apply at_rest_used in Hr. unfold unused_exc. by rewrite Hr. }
  rewrite find_index_pool2; [|lia|lia|lia|lia|exact Hused|by right].
  rewrite Hu1, lookup_pool2_2 by lia.
  rewrite (vsnprintf_fits _ _ Hlen). fold (stored
    (Exception.msg (ExceptionEntry.exception r2)) (vformat msg args)).
  unfold built. cbn [marked].
  by rewrite alter_pool2_2, alter_pool2_1, alter_pool2_2 by lia.
Qed.

(** The handler's [popCallingEnv], when the record in flight is that of
    slot [n1], or that of slot [n2] with slot [n1] not in flight. *)
Lemma popCallingEnv_pool2 t v env j r1 r2 :
  (forall k y, k <> n1 -> k <> n2 -> l !! k = Some y -> in_flight t y = false) ->
  last_slot t env = Some j ->
  in_flight t r1 = true \/ in_flight t r2 = true ->
  popCallingEnv t (VarOut v) (mkState env (pool2 l n1 r1 n2 r2))
  = Ok (VarOut (Some (if in_flight t r1 then n1 else n2)))
       (mkState (alter (EnvEntry.set_used false) j env)
          (if in_flight t r1
           then pool2 l n1 (ExceptionEntry.set_thrown false r1) n2 r2
           else pool2 l n1 r1 n2 (ExceptionEntry.set_thrown false r2))).
Proof.
  intros Hnone Hlast Hf. rewrite popCallingEnv_run.
  cbn [envList exceptionList]. rewrite Hlast. cbv zeta.
  rewrite find_index_pool2; [|lia|lia|lia|lia| |done].
  2:{ intros k y Hk1 Hk2 Hy. apply (Hnone k y); [done|lia|done]. }
  destruct (in_flight t r1).
  - by rewrite alter_pool2_1 by lia.
  - by rewrite alter_pool2_2 by lia.
Qed.

End Pool2Calls.

Lemma count_if_find2 {A} (p : A -> bool) (l : list A) :
  2 <= count_if p l ->
  exists n1 x1 n2 x2,
    n1 < n2 /\ l !! n1 = Some x1 /\ l !! n2 = Some x2 /\
    p x1 = true /\ p x2 = true /\
    forall k y, k <> n1 -> k < n2 -> l !! k = Some y -> p y = false.
Proof.
  revert l. induction l as [|a l IH]; cbn [count_if]; [lia|]. intros H.
  destruct (p a) eqn:Ea.
  - destruct (count_if_find p l) as (n & x & _ & Hn & Hx & Hlt); [lia|].
    exists 0, a, (S n), x.
    split; [lia|]. split; [done|]. split; [exact Hn|]. do 2 (split; [done|]).
    intros [|k] y Hk0 Hk Hy; [done|]. cbn in Hy. apply (Hlt k y); [lia|done].
  - destruct IH as (n1 & x1 & n2 & x2 & Hlt & H1 & H2 & E1 & E2 & Hno); [lia|].
    exists (S n1), x1, (S n2), x2.
    split; [lia|]. split; [exact H1|]. split; [exact H2|].
    do 2 (split; [done|]).
    intros [|k] y Hk0 Hk Hy; cbn in Hy; [congruence|].
    apply (Hno k y); [lia|lia|done].
Qed.


Lemma longjmp_run {A} j x s :
  envList s !! j = Some x -> @longjmp A j s = Ok (Jump (EnvEntry.env x)) s.
Proof. intros H. unfold longjmp, bind, readEnv. by rewrite H. Qed.

Lemma exFree_pool2_1 l n1 n2 env r1 r2 :
  n1 < n2 -> n2 < length l ->
  at_rest r1 = true ->
  Exception.cause (ExceptionEntry.exception r1) = None ->
  exFree EXCEPTION_LIST_SIZE (Some n1) (mkState env (pool2 l n1 r1 n2 r2))
  = Ok tt (mkState env (pool2 l n1 (ExceptionEntry.set_used false r1) n2 r2)).
Proof.
  intros Hlt H2 Hr Hc. rewrite exFree_run. cbn [exceptionList].
  rewrite lookup_pool2_1, Hr by lia.
  rewrite (exFree_loop_run [n1]).
  - cbn [envList exceptionList released foldl]. by rewrite alter_pool2_1 by lia.
  - cbn [exceptionList]. econstructor; [by apply lookup_pool2_1; lia|].
    rewrite Hc. constructor.
  - cbn. unfold EXCEPTION_LIST_SIZE. lia.
Qed.

Lemma exFree_pool2_2 l n1 n2 env r1 r2 :
  n1 < n2 -> n2 < length l ->
  at_rest r2 = true ->
  Exception.cause (ExceptionEntry.exception r2) = Some n1 ->
  Exception.cause (ExceptionEntry.exception r1) = None ->
  exFree EXCEPTION_LIST_SIZE (Some n2) (mkState env (pool2 l n1 r1 n2 r2))
  = Ok tt (mkState env
             (pool2 l n1 (ExceptionEntry.set_used false r1)
                      n2 (ExceptionEntry.set_used false r2))).
Proof.
  intros Hlt H2 Hr Hc2 Hc1. rewrite exFree_run. cbn [exceptionList].
  rewrite lookup_pool2_2, Hr by lia.
  rewrite (exFree_loop_run [n2; n1]).
  - cbn [envList exceptionList released foldl].
    by rewrite alter_pool2_2, alter_pool2_1 by lia.
  - cbn [exceptionList]. econstructor; [by apply lookup_pool2_2; lia|].
    rewrite Hc2. econstructor; [by apply lookup_pool2_1; lia|].
    rewrite Hc1. constructor.
  - cbn. unfold EXCEPTION_LIST_SIZE. lia.
Qed.

Lemma exRepeat_pool2_2 l n1 n2 t env j r1 r2 :
  n1 < n2 -> n2 < length l ->
  ExceptionEntry.used r2 = true -> ExceptionEntry.thrown r2 = false ->
  last_slot t env = Some j ->
  exRepeat t (Some n2) (mkState env (pool2 l n1 r1 n2 r2))
  = Ok j (mkState env (pool2 l n1 r1 n2 (launched t r2))).
Proof.
  intros Hlt H2 Hu Ht Hlast. rewrite exRepeat_run. cbn [envList exceptionList].
  rewrite lookup_pool2_2, Hu, Ht, Hlast by lia. cbn [negb andb].
  by rewrite alter_pool2_2 by lia.
Qed.

Lemma length_stored buf out :
  length buf = MAX_MSG_LEN -> length (stored buf out) = MAX_MSG_LEN.
Proof.
  intros Hbuf. pose proof (vsnprintf_fits buf out Hbuf) as H.
  apply vsnprintf_length in H. by rewrite <- Hbuf.
Qed.

Lemma stored_short buf out :
  length out < MAX_MSG_LEN ->
  stored buf out = out ++ x00 :: drop (length out + 1) buf.
Proof.
  intros Hout. unfold stored.
  rewrite take_ge by (unfold MAX_MSG_LEN in *; lia).
  by rewrite <- app_assoc.
Qed.

Lemma c_str_stored buf out :
  c_str (stored buf out) = take (MAX_MSG_LEN - 1) (c_str out).
Proof. unfold stored. rewrite <- app_assoc. apply c_str_take. Qed.

Section TestThread.
Context (decimal : Z -> list byte) (ctxA1 ctxA2 ctxB1 ctxB2 : jmp_buf).

(** X15.  The assertion of the test thread holds.  Let the registries be in
    a state reached without [exRepeat] of a cause, with nothing in flight on
    thread [t], at least four unused slots and at least two unused records,
    and let [%d] yield, for the three secrets, strings without NUL of at
    most eleven characters.  If thread [t] runs [funcA] with no call of
    another thread in between, then every [longjmp] lands in the handler of
    the innermost open block, the handlers receive the records thrown, the
    message assembled from the chain of two records equals the expected
    [secret0 secret1 secret2], so the [assert] passes, and [funcA] runs to
    its end.  Afterwards the slots and the records in use are exactly those
    of before, unchanged: everything [funcA] took is released. *)
Theorem funcA_assertion_holds t thread e eB msgExpected msgActual s :
  reachable_sparing (format decimal) s ->
  (forall k y, exceptionList s !! k = Some y -> in_flight t y = false) ->
  4 <= count_if unused_env (envList s) ->
  2 <= count_if unused_exc (exceptionList s) ->
  length msgExpected = MAX_MSG_LEN -> length msgActual = MAX_MSG_LEN ->
  Forall (fun n => Forall (fun b => b <> x00) (decimal n) /\
                   length (decimal n) <= 11)
    [secret0 thread; secret1 thread; secret2 thread] ->
  exists s',
    funcA decimal ctxA1 ctxA2 ctxB1 ctxB2 t thread e eB msgExpected msgActual s
    = Ok (Done tt) s' /\
    (forall k x, envList s !! k = Some x -> EnvEntry.used x = true ->
                 envList s' !! k = Some x) /\
    (forall k x, envList s' !! k = Some x -> EnvEntry.used x = true ->
                 envList s !! k = Some x) /\
    (forall k x, exceptionList s !! k = Some x ->
                 ExceptionEntry.used x = true ->
                 exceptionList s' !! k = Some x) /\
    (forall k x, exceptionList s' !! k = Some x ->
                 ExceptionEntry.used x = true ->
                 exceptionList s !! k = Some x).
Proof.
  intros Hr Hnone Henv Hexc Hle Hla Hdec.
  apply Forall_cons in Hdec as [[Z0 L0] Hdec].
  apply Forall_cons in Hdec as [[Z1 L1] Hdec].
  apply Forall_cons in Hdec as [[Z2 L2] _].
  pose proof (reachable_inv _ s (reachable_sparing_reachable _ s Hr)) as Hinv.
  pose proof (reachable_sparing_grounded _ s Hr) as Hg.
  destruct s as [env0 exc0]. cbn [envList exceptionList] in *.
  (* the four entries *)
  destruct (try_step t ctxA1 env0 exc0) as (j1 & x1 & Hj1 & Hu1 & Ht1 & Hc1);
    [lia|].
  set (l1 := alter _ j1 env0) in *.
  destruct (try_step t ctxA2 l1 exc0) as (j2 & x2 & Hj2 & Hu2 & Ht2 & Hc2);
    [lia|].
  set (l2 := alter _ j2 l1) in *.
  destruct (try_step t ctxB1 l2 exc0) as (j3 & x3 & Hj3 & Hu3 & Ht3 & Hc3);
    [lia|].
  set (l3 := alter _ j3 l2) in *.
  destruct (try_step t ctxB2 l3 exc0) as (j4 & x4 & Hj4 & Hu4 & Ht4 & Hc4);
    [lia|].
  set (l4 := alter _ j4 l3) in *.
  assert (Hn : nested_entries (format decimal) t (mkState env0 exc0)
                 [(j1, ctxA1); (j2, ctxA2); (j3, ctxB1); (j4, ctxB2)]
                 (mkState l4 exc0)).
  { apply (nested_enter _ _ _ _ _ [(j1, ctxA1); (j2, ctxA2); (j3, ctxB1)]
             (mkState l3 exc0)); [|done].
    apply (nested_enter _ _ _ _ _ [(j1, ctxA1); (j2, ctxA2)]
             (mkState l2 exc0)); [|done].
    apply (nested_enter _ _ _ _ _ [(j1, ctxA1)] (mkState l1 exc0)); [|done].
    apply (nested_enter _ _ _ _ _ [] (mkState env0 exc0)); [|done].
    apply nested_none. }
  destruct (nested_entries_spec _ _ _ _ _ Hinv Hn) as (Hinv4 & Hd4 & _).
  pose proof (nested_entries_levels _ _ _ _ _ Hinv Hn) as Hlev.
  cbn [envList exceptionList length] in *.
  destruct (Hlev 0 j1 ctxA1 eq_refl) as (e1 & He1 & Ho1 & Hx1 & Hl1).
  destruct (Hlev 1 j2 ctxA2 eq_refl) as (e2 & He2 & Ho2 & Hx2 & Hl2).
  destruct (Hlev 2 j3 ctxB1 eq_refl) as (e3 & He3 & Ho3 & Hx3 & Hl3).
  destruct (Hlev 3 j4 ctxB2 eq_refl) as (e4 & He4 & Ho4 & Hx4 & Hl4).
  clear Hlev Hn.
  assert (Hj12 : j1 <> j2 /\ j1 <> j3 /\ j1 <> j4 /\ j2 <> j3 /\ j2 <> j4
                 /\ j3 <> j4).
  { repeat split; intros E; subst; simplify_eq; lia. }
  destruct Hj12 as (N12 & N13 & N14 & N23 & N24 & N34).
  (* the four exits *)
  pose proof Hinv4 as ((Hlen4 & _) & Henv4 & _). cbn [envList] in *.
  destruct (pop_step t l4 j4 e4 Hlen4 Henv4 He4 Ho4 ltac:(lia))
    as (Hlast4 & Henv5 & Hlen5 & Hd5).
  set (l5 := alter (EnvEntry.set_used false) j4 l4) in *.
  assert (He3' : l5 !! j3 = Some e3)
    by (unfold l5; by rewrite list_lookup_alter_ne).
  destruct (pop_step t l5 j3 e3 Hlen5 Henv5 He3' Ho3 ltac:(lia))
    as (Hlast5 & Henv6 & Hlen6 & Hd6).
  set (l6 := alter (EnvEntry.set_used false) j3 l5) in *.
  assert (He2' : l6 !! j2 = Some e2)
    by (unfold l6, l5; by rewrite !list_lookup_alter_ne).
  destruct (pop_step t l6 j2 e2 Hlen6 Henv6 He2' Ho2 ltac:(lia))
    as (Hlast6 & Henv7 & Hlen7 & Hd7).
  set (l7 := alter (EnvEntry.set_used false) j2 l6) in *.
  assert (He1' : l7 !! j1 = Some e1)
    by (unfold l7, l6, l5; by rewrite !list_lookup_alter_ne).
  destruct (pop_step t l7 j1 e1 Hlen7 Henv7 He1' Ho1 ltac:(lia))
    as (Hlast7 & _ & _ & _).
  set (l8 := alter (EnvEntry.set_used false) j1 l7) in *.
  (* the two records *)
  destruct (count_if_find2 unused_exc exc0 Hexc)
    as (n1 & y1 & n2 & y2 & Hlt & Hn1 & Hn2 & Hy1 & Hy2 & Hused).
  pose proof (lookup_lt_Some _ _ _ Hn2) as Hlt2.
  pose proof Hinv as ((_ & _ & Hmsg) & _). cbn [exceptionList] in Hmsg.
  assert (Hy1u : ExceptionEntry.used y1 = false)
    by (by apply unused_exc_true).
  assert (Hy2u : ExceptionEntry.used y2 = false)
    by (by apply unused_exc_true).
  assert (Hy1t : ExceptionEntry.thrown y1 = false)
    by (apply (Hg n1 y1 Hn1); by left).
  assert (Hy2t : ExceptionEntry.thrown y2 = false)
    by (apply (Hg n2 y2 Hn2); by left).
  assert (Hnone' : forall k y, k <> n1 -> k <> n2 -> exc0 !! k = Some y ->
                     in_flight t y = false) by eauto.
  rewrite <- (pool2_id exc0 n1 n2 y1 y2 Hn1 Hn2) in Ht1, Ht2, Ht3, Ht4.
  (* the records *)
  set (s0 := secret0 thread). set (s1 := secret1 thread).
  set (s2 := secret2 thread).
  assert (Hd0 : length (decimal s0) < MAX_MSG_LEN)
    by (unfold s0, MAX_MSG_LEN; lia).
  assert (Hd1 : length (decimal s1) < MAX_MSG_LEN)
    by (unfold s1, MAX_MSG_LEN; lia).
  pose (m1 := stored (Exception.msg (ExceptionEntry.exception y1))
                (format decimal (literal "No error.") [])).
  pose (r1a := filled exOther m1 None (launched t (allocated y1))).
  pose (r1b := ExceptionEntry.set_thrown false r1a).
  pose (r1c := ExceptionEntry.set_used false r1b).
  pose (m2 := stored m1 (format decimal [PctD] [ArgInt s0])).
  pose (r1d := filled exOther m2 None (allocated r1c)).
  pose (r1e := ExceptionEntry.set_cause true r1d).
  pose (m3 := stored (Exception.msg (ExceptionEntry.exception y2))
                (format decimal [PctD] [ArgInt s1])).
  pose (r2a := filled exOther m3 (Some n1) (launched t (allocated y2))).
  pose (r2b := ExceptionEntry.set_thrown false r2a).
  pose (r2c := launched t r2b).
  pose (r2d := ExceptionEntry.set_thrown false r2c).
  assert (Hm1 : length m1 = MAX_MSG_LEN) by (apply length_stored; eauto).
  assert (Hm2 : length m2 = MAX_MSG_LEN) by (by apply length_stored).
  assert (Hm3 : length m3 = MAX_MSG_LEN) by (apply length_stored; eauto).
  (* the innermost block of funcB *)
  assert (E5 : throw decimal t exOther None (literal "No error.") []
                 (mkState l4 (pool2 exc0 n1 y1 n2 y2))
               = Ok (@Jump unit ctxB2) (mkState l4 (pool2 exc0 n1 r1a n2 y2))).
  { unfold throw, bind. rewrite exThrow_run.
    rewrite (construct_pool2_1 _ exc0 n1 n2 Hlt Hlt2 Hused); [|done|eauto].
    cbn [envList]. rewrite Hlast4.
    rewrite (longjmp_run j4 e4) by done. by rewrite Hx4. }
  assert (E6 : catch_resumed t eB (mkState l4 (pool2 exc0 n1 r1a n2 y2))
               = Ok (VarOut (Some n1)) (mkState l5 (pool2 exc0 n1 r1b n2 y2))).
  { unfold catch_resumed.
    rewrite (popCallingEnv_pool2 exc0 n1 n2 Hlt Hlt2 t eB l4 j4);
      [|done|done|left; cbn; by rewrite Nat.eqb_refl].
    replace (in_flight t r1a) with true by (cbn; by rewrite Nat.eqb_refl).
    done. }
  assert (E7 : exFree EXCEPTION_LIST_SIZE (Some n1)
                 (mkState l5 (pool2 exc0 n1 r1b n2 y2))
               = Ok tt (mkState l5 (pool2 exc0 n1 r1c n2 y2))).
  { by apply exFree_pool2_1. }
  assert (E8 : exAlloc (format decimal) exOther None [PctD] [ArgInt s0]
                 (mkState l5 (pool2 exc0 n1 r1c n2 y2))
               = Ok (Some n1) (mkState l5 (pool2 exc0 n1 r1d n2 y2))).
  { rewrite exAlloc_run.
    by rewrite (construct_pool2_1 _ exc0 n1 n2 Hlt Hlt2 Hused). }
  assert (E9 : throw decimal t exOther (Some n1) [PctD] [ArgInt s1]
                 (mkState l5 (pool2 exc0 n1 r1d n2 y2))
               = Ok (@Jump unit ctxB1) (mkState l5 (pool2 exc0 n1 r1e n2 r2a))).
  { unfold throw, bind. rewrite exThrow_run.
    rewrite (construct_pool2_2 _ exc0 n1 n2 Hlt Hlt2 Hused); [|done|done|eauto].
    cbn [envList]. rewrite Hlast5.
    rewrite (longjmp_run j3 e3) by done. by rewrite Hx3. }
  assert (E10 : catch_resumed t eB (mkState l5 (pool2 exc0 n1 r1e n2 r2a))
                = Ok (VarOut (Some n2))
                     (mkState l6 (pool2 exc0 n1 r1e n2 r2b))).
  { unfold catch_resumed.
    rewrite (popCallingEnv_pool2 exc0 n1 n2 Hlt Hlt2 t eB l5 j3);
      [|done|done|right; cbn; by rewrite Nat.eqb_refl].
    done. }
  assert (E11 : repeat_ t (Some n2) (mkState l6 (pool2 exc0 n1 r1e n2 r2b))
                = Ok (@Jump unit ctxA2)
                     (mkState l6 (pool2 exc0 n1 r1e n2 r2c))).
  { unfold repeat_.
    rewrite (bind_run _ _ _ _ _
               (exRepeat_pool2_2 exc0 n1 n2 t l6 j2 r1e r2b Hlt Hlt2
                  eq_refl eq_refl Hlast6)).
    rewrite (longjmp_run j2 e2) by done. by rewrite Hx2. }
  assert (E12 : catch_resumed t e (mkState l6 (pool2 exc0 n1 r1e n2 r2c))
                = Ok (VarOut (Some n2))
                     (mkState l7 (pool2 exc0 n1 r1e n2 r2d))).
  { unfold catch_resumed.
    rewrite (popCallingEnv_pool2 exc0 n1 n2 Hlt Hlt2 t e l6 j2);
      [|done|done|right; cbn; by rewrite Nat.eqb_refl].
    done. }
  (* the inner handler of funcA *)
  assert (Hd2 : length (decimal s1) + length (x20 :: decimal s2) < MAX_MSG_LEN).
  { cbn [length]. unfold s1, s2, MAX_MSG_LEN. lia. }
  assert (F1 : forall n, format decimal [PctD] [ArgInt n] = decimal n).
  { intros n. cbn [format]. apply app_nil_r. }
  pose (t3 := drop (length (decimal s1) + 1)
                (Exception.msg (ExceptionEntry.exception y2))).
  assert (Hm3' : m3 = decimal s1 ++ x00 :: t3).
  { unfold m3. rewrite F1. by apply stored_short. }
  pose (m4 := decimal s1 ++ (x20 :: decimal s2)
              ++ x00 :: drop (length (x20 :: decimal s2)) t3).
  pose (r2e := ExceptionEntry.set_exception
                 (Exception.set_msg m4 (ExceptionEntry.exception r2d)) r2d).
  pose (r2f := launched t r2e).
  pose (r2g := ExceptionEntry.set_thrown false r2f).
  assert (E13 : append_secret decimal (Some n2) s2
                  (mkState l7 (pool2 exc0 n1 r1e n2 r2d))
                = Ok tt (mkState l7 (pool2 exc0 n1 r1e n2 r2e))).
  { unfold append_secret, bind.
    rewrite (readExc_run n2 _ r2d) by (by apply lookup_pool2_2).
    change (Exception.msg (ExceptionEntry.exception r2d)) with m3.
    replace (format decimal [Lit x20; PctD] [ArgInt s2])
      with (x20 :: decimal s2) by (cbn [format]; by rewrite app_nil_r).
    rewrite Hm3'.
    destruct (snprintf_at_append (decimal s1) t3 (x20 :: decimal s2))
      as [-> ->]; [by rewrite <- Hm3'|exact Z1|exact Hd2|].
    rewrite (writeExc_run n2 _ _ r2d) by (by apply lookup_pool2_2).
    cbn [envList exceptionList]. by rewrite alter_pool2_2 by lia. }
  assert (E14 : repeat_ t (Some n2) (mkState l7 (pool2 exc0 n1 r1e n2 r2e))
                = Ok (@Jump unit ctxA1)
                     (mkState l7 (pool2 exc0 n1 r1e n2 r2f))).
  { unfold repeat_.
    rewrite (bind_run _ _ _ _ _
               (exRepeat_pool2_2 exc0 n1 n2 t l7 j1 r1e r2e Hlt Hlt2
                  eq_refl eq_refl Hlast7)).
    rewrite (longjmp_run j1 e1) by done. by rewrite Hx1. }
  assert (E15 : catch_resumed t e (mkState l7 (pool2 exc0 n1 r1e n2 r2f))
                = Ok (VarOut (Some n2))
                     (mkState l8 (pool2 exc0 n1 r1e n2 r2g))).
  { unfold catch_resumed.
    rewrite (popCallingEnv_pool2 exc0 n1 n2 Hlt Hlt2 t e l7 j1);
      [|done|done|right; cbn; by rewrite Nat.eqb_refl].
    done. }
  (* the outer handler of funcA *)
  pose (joined := decimal s0 ++ x20 :: decimal s1 ++ x20 :: decimal s2).
  assert (Hs2 : c_str m2 = decimal s0).
  { unfold m2. rewrite F1, stored_short by done.
    by apply c_str_terminated. }
  assert (Hs4 : c_str m4 = decimal s1 ++ x20 :: decimal s2).
  { unfold m4. rewrite app_assoc. apply c_str_terminated.
    apply Forall_app. split; [exact Z1|]. by constructor. }
  assert (E16 : join_messages decimal (Some n2) msgActual
                  (mkState l8 (pool2 exc0 n1 r1e n2 r2g))
                = Ok (stored msgActual joined)
                     (mkState l8 (pool2 exc0 n1 r1e n2 r2g))).
  { unfold join_messages, bind.
    rewrite (readExc_run n2 _ r2g) by (by apply lookup_pool2_2).
    change (Exception.cause (ExceptionEntry.exception r2g)) with (Some n1).
    rewrite (readExc_run n1 _ r1e) by (apply lookup_pool2_1; lia).
    change (Exception.msg (ExceptionEntry.exception r1e)) with m2.
    change (Exception.msg (ExceptionEntry.exception r2g)) with m4.
    cbn [format]. rewrite Hs2, Hs4, app_nil_r.
    by rewrite (vsnprintf_fits _ _ Hla). }
  assert (E17 : exFree EXCEPTION_LIST_SIZE (Some n2)
                  (mkState l8 (pool2 exc0 n1 r1e n2 r2g))
                = Ok tt (mkState l8
                           (pool2 exc0 n1 (ExceptionEntry.set_used false r1e)
                                       n2 (ExceptionEntry.set_used false r2g)))).
  { by apply exFree_pool2_2. }
  exists (mkState l8
            (pool2 exc0 n1 (ExceptionEntry.set_used false r1e)
                        n2 (ExceptionEntry.set_used false r2g))).
  split.
  { rewrite <- (pool2_id exc0 n1 n2 y1 y2 Hn1 Hn2) at 1.
    unfold funcA, funcB, try_catch, and_then, returns, bind.
    rewrite Ht1, Ht2, Ht3, Ht4, E5.
    rewrite Nat.eqb_refl, E6. cbv beta iota. rewrite E7.
    cbv beta iota delta [ret]. fold s0 s1 s2. rewrite E8.
    cbv beta iota. rewrite E9.
    rewrite Nat.eqb_refl, E10. cbv beta iota. rewrite E11.
    rewrite Nat.eqb_refl, E12. cbv beta iota. rewrite E13.
    cbv beta iota. rewrite E14.
    rewrite Nat.eqb_refl, E15. cbv beta iota. rewrite E16.
    cbv beta iota. rewrite E17. cbv beta iota.
    rewrite (vsnprintf_fits _ _ Hle).
    change ((take (MAX_MSG_LEN - 1) ?out ++ [x00])
            ++ drop (length (take (MAX_MSG_LEN - 1) ?out) + 1) msgExpected)
      with (stored msgExpected out).
    cbv beta iota. unfold same_string.
    rewrite bool_decide_eq_true_2; [done|].
    rewrite !c_str_stored. f_equal. f_equal. cbn [format].
    by rewrite app_nil_r. }
  cbn [envList exceptionList].
  assert (U1 : env0 !! j1 = Some x1) by done.
  assert (U2 : env0 !! j2 = Some x2).
  { unfold l1 in Hj2. by rewrite list_lookup_alter_ne in Hj2. }
  assert (U3 : env0 !! j3 = Some x3).
  { unfold l2, l1 in Hj3. by rewrite !list_lookup_alter_ne in Hj3. }
  assert (U4 : env0 !! j4 = Some x4).
  { unfold l3, l2, l1 in Hj4. by rewrite !list_lookup_alter_ne in Hj4. }
  assert (V1 : l8 !! j1 = Some (EnvEntry.set_used false e1)).
  { unfold l8. by apply lookup_alter_Some. }
  assert (V2 : l8 !! j2 = Some (EnvEntry.set_used false e2)).
  { unfold l8, l7. rewrite list_lookup_alter_ne by done.
    by apply lookup_alter_Some. }
  assert (V3 : l8 !! j3 = Some (EnvEntry.set_used false e3)).
  { unfold l8, l7, l6. rewrite !list_lookup_alter_ne by done.
    by apply lookup_alter_Some. }
  assert (V4 : l8 !! j4 = Some (EnvEntry.set_used false e4)).
  { unfold l8, l7, l6, l5. rewrite !list_lookup_alter_ne by done.
    by apply lookup_alter_Some. }
  assert (W : forall k, k <> j1 -> k <> j2 -> k <> j3 -> k <> j4 ->
                        l8 !! k = env0 !! k).
  { intros k K1 K2 K3 K4. unfold l8, l7, l6, l5, l4, l3, l2, l1.
    by rewrite !list_lookup_alter_ne by done. }
  split; [|split; [|split]].
  - intros k x Hk Hu. rewrite W; [done| | | |]; intros ->.
    + rewrite U1 in Hk. apply (inj Some) in Hk as ->. congruence.
    + rewrite U2 in Hk. apply (inj Some) in Hk as ->. congruence.
    + rewrite U3 in Hk. apply (inj Some) in Hk as ->. congruence.
    + rewrite U4 in Hk. apply (inj Some) in Hk as ->. congruence.
  - intros k x Hk Hu.
    destruct (decide (k = j1)) as [->|K1].
    { rewrite V1 in Hk. apply (inj Some) in Hk as <-. done. }
    destruct (decide (k = j2)) as [->|K2].
    { rewrite V2 in Hk. apply (inj Some) in Hk as <-. done. }
    destruct (decide (k = j3)) as [->|K3].
    { rewrite V3 in Hk. apply (inj Some) in Hk as <-. done. }
    destruct (decide (k = j4)) as [->|K4].
    { rewrite V4 in Hk. apply (inj Some) in Hk as <-. done. }
    by rewrite <- W.
  - intros k x Hk Hu. rewrite lookup_pool2_ne; [done| |]; intros ->.
    + rewrite Hn1 in Hk. apply (inj Some) in Hk as ->. congruence.
    + rewrite Hn2 in Hk. apply (inj Some) in Hk as ->. congruence.
  - intros k x Hk Hu.
    destruct (decide (k = n1)) as [->|K1].
    { rewrite lookup_pool2_1 in Hk by lia.
      apply (inj Some) in Hk as <-. done. }
    destruct (decide (k = n2)) as [->|K2].
    { rewrite lookup_pool2_2 in Hk by lia.
      apply (inj Some) in Hk as <-. done. }
    by rewrite lookup_pool2_ne in Hk.
Qed.

End TestThread.

Lemma decimal_checked_spec decimal ns :
  decimal_checked decimal ns = true ->
  Forall (fun n => Forall (fun b => b <> x00) (decimal n) /\
                   length (decimal n) <= 11) ns.
Proof.
  intros H. unfold decimal_checked in H. rewrite forallb_forall in H.
  apply Forall_forall. intros n Hn%list_elem_of_In.
  apply H in Hn. apply andb_true_iff in Hn as [Hb Hl]. split.
  - rewrite forallb_forall in Hb. apply Forall_forall.
    intros b Hin%list_elem_of_In. apply Hb in Hin. by intros ->.
  - by apply Nat.leb_le.
Qed.

Lemma demo_entered_sparing_format :
  reachable_sparing (format decimal_int) demo_entered.
Proof.
  apply (sparing_step _ _ (format decimal_int) zeroed (Try 1 100)).
  - by apply sparing_init.
  - exact (fun H => H).
  - exists 0. apply result_is_Ok. by_evaluation.
Qed.

(** X15 at a concrete program: thread 1 has entered a block; thread 2 runs
    [funcA] with three secrets. *)
Lemma funcA_assertion_holds_witness :
  exists s',
    funcA decimal_int 10 20 30 40 2
      (mkTestThread 1804289383 846930886 1681692777) None None
      (replicate MAX_MSG_LEN xff) (replicate MAX_MSG_LEN xff) demo_entered
    = Ok (Done tt) s' /\
    forall k x, envList demo_entered !! k = Some x ->
                EnvEntry.used x = true -> envList s' !! k = Some x.
Proof.
  destruct (funcA_assertion_holds decimal_int 10 20 30 40 2
              (mkTestThread 1804289383 846930886 1681692777) None None
              (replicate MAX_MSG_LEN xff) (replicate MAX_MSG_LEN xff)
              demo_entered demo_entered_sparing_format)
    as (s' & H1 & H2 & _);
    [apply none_in_flight; by_evaluation
    |apply Nat.leb_le; by_evaluation
    |apply Nat.leb_le; by_evaluation
    |apply length_replicate
    |apply length_replicate
    |apply decimal_checked_spec; by_evaluation|].
  exists s'. split; [exact H1|exact H2].
Defined.
